(** * goldmark-pipefence: the Tagger and the Raw Emitter of [extension.go]

    The extension rewrites a parsed Markdown tree ([transformer.Transform])
    and registers one render function for the rewritten nodes
    ([pfRenderer.RegisterFuncs]).  Both work on the node objects of the
    host, goldmark, which are linked through parent, sibling and child
    pointers and are mutated in place.  The tree is therefore a store of
    node objects addressed by references, and every Go function is a
    computation over that store.

    [extension.go] calls into the host: [ast.Walk], the [ast.BaseNode]
    methods behind [doc.ReplaceChild], [FencedCodeBlock.Language],
    [Segments] and [Segment.Value], the renderer's dispatch on the node
    kind.  These are embedded next to the functions of [extension.go], each
    under the name it has in goldmark's packages [ast], [text] and
    [renderer]; the byte-level functions of [text] stay abstract in
    [HostText]. *)

From Stdlib Require Import ZArith Lia Ascii String.
From stdpp Require Import base option list strings gmap.

Open Scope string_scope.
Open Scope list_scope.
Open Scope nat_scope.

(** ** Bytes, errors, host text capabilities *)

(** A Go [[]byte] is a sequence of 8-bit characters. *)
Abbreviation bytes := string.

(** A Go [error], identified with its message ([err.Error()]). *)
Abbreviation error := string.

(** What [extension.go] needs from the host's text layer:
    [text.Segment] with [Segment.Value(source)], and the [%q] verb of
    [fmt.Errorf] applied to a string. *)
Class HostText := {
  Segment : Type;
  Value : Segment -> bytes -> bytes;
  Quote : string -> string
}.

(** [type PipeFunc func([]byte) ([]byte, error)] *)
Abbreviation PipeFunc := (bytes -> bytes + error)%type.

(** ** Nodes *)

(** A reference to a node object (a Go pointer); [None] is [nil]. *)
Abbreviation ref := nat.

Inductive NodeKind :=
  | KindDocument
  | KindFencedCodeBlock
  | pfKind                       (* ast.NewNodeKind("PipefenceBlock") *)
  | KindOther (name : string).

#[global] Instance NodeKind_eq_dec : EqDecision NodeKind.
Proof. solve_decision. Defined.

(** The link fields of [ast.BaseNode]. *)
Record BaseNode := mkBaseNode {
  firstChild : option ref;
  lastChild : option ref;
  parent : option ref;
  next : option ref;
  prev : option ref;
  childCount : Z
}.

Definition with_firstChild (v : option ref) (b : BaseNode) : BaseNode :=
  mkBaseNode v (lastChild b) (parent b) (next b) (prev b) (childCount b).
Definition with_lastChild (v : option ref) (b : BaseNode) : BaseNode :=
  mkBaseNode (firstChild b) v (parent b) (next b) (prev b) (childCount b).
Definition with_parent (v : option ref) (b : BaseNode) : BaseNode :=
  mkBaseNode (firstChild b) (lastChild b) v (next b) (prev b) (childCount b).
Definition with_next (v : option ref) (b : BaseNode) : BaseNode :=
  mkBaseNode (firstChild b) (lastChild b) (parent b) v (prev b) (childCount b).
Definition with_prev (v : option ref) (b : BaseNode) : BaseNode :=
  mkBaseNode (firstChild b) (lastChild b) (parent b) (next b) v (childCount b).
Definition with_childCount (f : Z -> Z) (b : BaseNode) : BaseNode :=
  mkBaseNode (firstChild b) (lastChild b) (parent b) (next b) (prev b)
             (f (childCount b)).

(** ** Computations: state passing, [None] when the Go code does not
    return (a nil dereference, [log.Fatalf], or a walk that never ends) *)

Definition M (St A : Type) : Type := St -> option (A * St).

Definition ret {St A} (a : A) : M St A := fun s => Some (a, s).
Definition bind {St A B} (m : M St A) (k : A -> M St B) : M St B :=
  fun s => match m s with
           | Some (a, s') => k a s'
           | None => None
           end.
Definition crash {St A} : M St A := fun _ => None.
Definition gets {St A} (f : St -> A) : M St A := fun s => Some (f s, s).
Definition modify {St} (f : St -> St) : M St unit := fun s => Some (tt, f s).

Notation "x <~ m ;; k" := (bind m (fun x => k))
  (at level 100, m at next level, right associativity).
Notation "m ;;; k" := (bind m (fun _ => k))
  (at level 100, right associativity).

Section Model.
Context `{HostText}.

(** [ast.FencedCodeBlock]: the embedded base node, the fence's info string
    ([Info], [nil] when the fence has none) and the content lines. *)
Record FencedCodeBlock := mkFencedCodeBlock {
  BaseBlock : BaseNode;
  Info : option Segment;
  lines : list Segment
}.

(** The dynamic type of a node object.  [pfBlock] is the wrapper struct of
    [extension.go], which embeds an [ast.FencedCodeBlock] by value. *)
Inductive node :=
  | Document (b : BaseNode)
  | Fenced (fb : FencedCodeBlock)
  | pfBlock (fb : FencedCodeBlock)
  | Other (name : string) (b : BaseNode).

Definition base (n : node) : BaseNode :=
  match n with
  | Document b => b
  | Fenced fb => BaseBlock fb
  | pfBlock fb => BaseBlock fb
  | Other _ b => b
  end.

Definition with_BaseBlock (b : BaseNode) (fb : FencedCodeBlock) : FencedCodeBlock :=
  mkFencedCodeBlock b (Info fb) (lines fb).

Definition set_base (b : BaseNode) (n : node) : node :=
  match n with
  | Document _ => Document b
  | Fenced fb => Fenced (with_BaseBlock b fb)
  | pfBlock fb => pfBlock (with_BaseBlock b fb)
  | Other k _ => Other k b
  end.

(** [func (b *pfBlock) Kind() ast.NodeKind { return pfKind }] and the kinds
    of the host's own node types. *)
Definition Kind (n : node) : NodeKind :=
  match n with
  | Document _ => KindDocument
  | Fenced _ => KindFencedCodeBlock
  | pfBlock _ => pfKind
  | Other k _ => KindOther k
  end.

(** [func (b *pfBlock) IsRaw() bool { return true }] *)
Definition IsRaw (b : FencedCodeBlock) : bool := true.

(** ** The world the two passes run in *)

(** The node store, the source buffer, the extension's registry
    ([Extension.PipeFuncs]) and the output sink [w].  [calls] is ghost
    state: it records every invocation of a registered function, with the
    language tag and the argument. *)
Record world := mkWorld {
  nodes : list node;
  source : bytes;
  PipeFuncs : gmap string PipeFunc;
  w : bytes;
  calls : list (string * bytes)
}.

Definition with_nodes (f : list node -> list node) (s : world) : world :=
  mkWorld (f (nodes s)) (source s) (PipeFuncs s) (w s) (calls s).
Definition with_w (f : bytes -> bytes) (s : world) : world :=
  mkWorld (nodes s) (source s) (PipeFuncs s) (f (w s)) (calls s).
Definition with_calls (f : list (string * bytes) -> list (string * bytes))
    (s : world) : world :=
  mkWorld (nodes s) (source s) (PipeFuncs s) (w s) (f (calls s)).

(** Run a computation on [world] inside a larger state. *)
Definition lift {C A} (m : M world A) : M (C * world) A :=
  fun '(c, s) => match m s with
                 | Some (a, s') => Some (a, (c, s'))
                 | None => None
                 end.

(** ** Node objects in the store *)

Definition load (r : ref) : M world node :=
  fun s => match nodes s !! r with
           | Some n => Some (n, s)
           | None => None
           end.

(** Assignment to the link fields of the object at [r]. *)
Definition update (r : ref) (g : BaseNode -> BaseNode) : M world unit :=
  n <~ load r ;;
  modify (with_nodes (fun l => <[r := set_base (g (base n)) n]> l)).

(** A freshly allocated object ([&pfBlock{...}]). *)
Definition alloc (n : node) : M world ref :=
  fun s => Some (length (nodes s), with_nodes (fun l => l ++ [n]) s).

Definition field {A} (f : BaseNode -> A) (r : ref) : M world A :=
  n <~ load r ;; ret (f (base n)).

(** ** The host's [ast.BaseNode] methods that [Transform] runs

    [doc.ReplaceChild(parent, fb, copy)] is the host's
    [BaseNode.ReplaceChild], which is [InsertBefore] followed by
    [RemoveChild]; [InsertBefore] first isolates the node to insert
    ([ensureIsolated]).  [n] is the receiver (the object whose
    [firstChild], [lastChild] and [childCount] the method assigns),
    [self] the node passed as first argument; the two are different
    parameters in the host, and [Transform] passes [doc] as receiver and
    [fb.Parent()] as [self].  Comparisons of [Node] values compare
    references, [nil] included. *)

Definition Parent (v : ref) : M world (option ref) := field parent v.
Definition PreviousSibling (v : ref) : M world (option ref) := field prev v.
Definition NextSibling (v : ref) : M world (option ref) := field next v.
Definition FirstChild (v : ref) : M world (option ref) := field firstChild v.
Definition SetParent (v : ref) (p : option ref) : M world unit :=
  update v (with_parent p).
Definition SetPreviousSibling (v : ref) (p : option ref) : M world unit :=
  update v (with_prev p).
Definition SetNextSibling (v : ref) (p : option ref) : M world unit :=
  update v (with_next p).

Definition RemoveChild (n : ref) (self : option ref) (v : ref) : M world unit :=
  p <~ Parent v ;;
  if decide (p = self) then
    update n (with_childCount Z.pred) ;;;
    prv <~ PreviousSibling v ;;
    nxt <~ NextSibling v ;;
    match prv with
    | Some pr => SetNextSibling pr nxt
    | None => update n (with_firstChild nxt)
    end ;;;
    match nxt with
    | Some nx => SetPreviousSibling nx prv
    | None => update n (with_lastChild prv)
    end ;;;
    SetParent v None ;;;
    SetPreviousSibling v None ;;;
    SetNextSibling v None
  else ret tt.

Definition ensureIsolated (v : ref) : M world unit :=
  p <~ Parent v ;;
  match p with
  | Some p => RemoveChild p (Some p) v
  | None => ret tt
  end.

Definition AppendChild (n : ref) (self : option ref) (v : ref) : M world unit :=
  ensureIsolated v ;;;
  fc <~ field firstChild n ;;
  match fc with
  | None =>
      update n (with_firstChild (Some v)) ;;;
      SetNextSibling v None ;;;
      SetPreviousSibling v None
  | Some _ =>
      last <~ field lastChild n ;;
      match last with
      | Some l => SetNextSibling l (Some v) ;;; SetPreviousSibling v last
      | None => crash
      end
  end ;;;
  SetParent v self ;;;
  update n (with_lastChild (Some v)) ;;;
  update n (with_childCount Z.succ).

Definition InsertBefore (n : ref) (self : option ref) (v1 : option ref)
    (insertee : ref) : M world unit :=
  update n (with_childCount Z.succ) ;;;
  match v1 with
  | None => AppendChild n self insertee
  | Some c =>
      ensureIsolated insertee ;;;
      p <~ Parent c ;;
      if decide (p = self) then
        prv <~ PreviousSibling c ;;
        match prv with
        | Some pr =>
            SetNextSibling pr (Some insertee) ;;;
            SetPreviousSibling insertee prv
        | None =>
            update n (with_firstChild (Some insertee)) ;;;
            SetPreviousSibling insertee None
        end ;;;
        SetNextSibling insertee (Some c) ;;;
        SetParent insertee self ;;;
        SetPreviousSibling c (Some insertee)
      else ret tt
  end.

Definition ReplaceChild (n : ref) (self : option ref) (v1 insertee : ref)
    : M world unit :=
  InsertBefore n self (Some v1) insertee ;;;
  RemoveChild n self v1.

(** ** The host's [ast.Walk]

    The walker is called twice on every node: with [entering] true before
    the children are walked, and with [entering] false after. *)

Inductive WalkStatus := WalkStop | WalkSkipChildren | WalkContinue.

#[global] Instance WalkStatus_eq_dec : EqDecision WalkStatus.
Proof. solve_decision. Defined.

Definition Walker (St : Type) : Type :=
  ref -> bool -> M St (WalkStatus * option error).

(** [err != nil || status == WalkStop] *)
Definition stops (r : WalkStatus * option error) : bool :=
  match r with
  | (_, Some _) => true
  | (WalkStop, None) => true
  | (_, None) => false
  end.

(** [status != WalkSkipChildren] *)
Definition descends (r : WalkStatus * option error) : bool :=
  match fst r with
  | WalkSkipChildren => false
  | _ => true
  end.

Section Walk.
Context {St : Type} (heap : St -> list node) (walker : Walker St).

Definition link (f : BaseNode -> option ref) (r : ref) : M St (option ref) :=
  fun s => match heap s !! r with
           | Some n => Some (f (base n), s)
           | None => None
           end.

(** [walkHelper] calls the walker on entering a node, walks the children
    from [FirstChild] along [NextSibling] unless told to skip them, and
    calls the walker again on leaving.  [fuel] bounds the depth of calls
    and the length of the sibling loop; a walk that exhausts it has no
    result. *)
Fixpoint walkHelper (fuel : nat) (n : ref) : M St (WalkStatus * option error) :=
  match fuel with
  | O => crash
  | S fuel =>
      r <~ walker n true ;;
      if stops r then ret r else
      r' <~ (if descends r then c <~ link firstChild n ;; walkChildren fuel c
             else ret (WalkContinue, None)) ;;
      if stops r' then ret r' else
      r'' <~ walker n false ;;
      if stops r'' then ret (WalkStop, snd r'') else ret (WalkContinue, None)
  end
with walkChildren (fuel : nat) (c : option ref) : M St (WalkStatus * option error) :=
  match fuel with
  | O => crash
  | S fuel =>
      match c with
      | None => ret (WalkContinue, None)
      | Some c =>
          r <~ walkHelper fuel c ;;
          if stops r then ret (WalkStop, snd r) else
          nx <~ link next c ;;
          walkChildren fuel nx
      end
  end.

Definition Walk (fuel : nat) (n : ref) : M St (option error) :=
  r <~ walkHelper fuel n ;; ret (snd r).

End Walk.

(** ** [FencedCodeBlock.Language]: the info string up to its first space

    (The host caches the result in the node; the cache is not modelled,
    both passes read the same source.) *)

Fixpoint firstToken (info : bytes) : bytes :=
  match info with
  | EmptyString => EmptyString
  | String c rest =>
      if decide (c = Ascii.Space) then EmptyString else String c (firstToken rest)
  end.

Definition Language (fb : FencedCodeBlock) (src : bytes) : bytes :=
  match Info fb with
  | None => EmptyString
  | Some seg => firstToken (Value seg src)
  end.

(** ** [transformer.Transform] *)

(** The callback handed to [ast.Walk]: the type assertion of [node] to
    a pointer to [ast.FencedCodeBlock], and the append.  [enter] is not
    consulted. *)
Definition collect : Walker (list ref * world) :=
  fun node enter =>
    n <~ lift (load node) ;;
    match n with
    | Fenced _ =>
        modify (fun '(fencedBlocks, s) => (fencedBlocks ++ [node], s)) ;;;
        ret (WalkContinue, None)
    | _ => ret (WalkContinue, None)
    end.

(** One iteration of [for _, fb := range fencedBlocks]. *)
Definition replaceOne (doc fb : ref) : M world unit :=
  src <~ gets source ;;
  n <~ load fb ;;
  match n with
  | Fenced f =>
      let lang := Language f src in
      funcs <~ gets PipeFuncs ;;
      match (funcs !! lang : option PipeFunc) with
      | None => ret tt
      | Some _ =>
          parent <~ Parent fb ;;
          new <~ alloc (pfBlock f) ;;
          ReplaceChild doc parent fb new
      end
  | _ => crash
  end.

Fixpoint replaceAll (doc : ref) (fencedBlocks : list ref) : M world unit :=
  match fencedBlocks with
  | [] => ret tt
  | fb :: rest => replaceOne doc fb ;;; replaceAll doc rest
  end.

(** The walk of [Transform]: its error and the blocks it appended to
    [fencedBlocks]. *)
Definition collectFenced (fuel : nat) (doc : ref)
    : M world (option error * list ref) :=
  fun s =>
    match Walk (St := list ref * world) (fun st => nodes (snd st))
               collect fuel doc ([], s) with
    | Some (err, (fencedBlocks, s')) => Some ((err, fencedBlocks), s')
    | None => None
    end.

Definition Transform (fuel : nat) (doc : ref) : M world unit :=
  r <~ collectFenced fuel doc ;;
  match fst r with
  | Some _ => crash               (* log.Fatalf *)
  | None => replaceAll doc (snd r)
  end.

(** ** [pfBlock.RawContent] *)

Definition RawContent (b : FencedCodeBlock) (src : bytes) : bytes :=
  foldl (fun buf i =>
           match lines b !! i with
           | Some line => buf +:+ Value line src
           | None => buf
           end)
        EmptyString (seq 0 (length (lines b))).

(** The content of a block as the specification words it: the content
    lines' byte spans, concatenated in order with nothing in between. *)
Definition concatBytes (l : list bytes) : bytes :=
  foldr String.append EmptyString l.

Definition spec_RawContent (b : FencedCodeBlock) (src : bytes) : bytes :=
  concatBytes (map (fun line => Value line src) (lines b)).

(** ** [pfRenderer.RegisterFuncs] *)

Definition NodeRendererFunc : Type :=
  bytes -> ref -> bool -> M world (WalkStatus * option error).

Definition Errorf (lang : string) (err : error) : error :=
  "fenced block transformer " +:+ Quote lang +:+ ": " +:+ err.

Definition renderFenced : NodeRendererFunc :=
  fun src node entering =>
    n <~ load node ;;
    match n with
    | pfBlock fb =>
        let lang := Language fb src in
        funcs <~ gets PipeFuncs ;;
        match (funcs !! lang : option PipeFunc) with
        | None => ret (WalkContinue, None)
        | Some pipeFunc =>
            if negb entering then ret (WalkContinue, None) else
            let arg := RawContent fb src in
            modify (with_calls (fun l => l ++ [(lang, arg)])) ;;;
            match pipeFunc arg with
            | inr err => ret (WalkStop, Some (Errorf lang err))
            | inl content =>
                modify (with_w (fun out => out +:+ content)) ;;;
                ret (WalkSkipChildren, None)
            end
        end
    | _ => crash                  (* the type assertion to pfBlock panics *)
    end.

(** The host renderer's table of render functions, keyed by node kind. *)
Definition registry : Type := NodeKind -> option NodeRendererFunc.

Definition Register (k : NodeKind) (f : NodeRendererFunc) (r : registry)
    : registry :=
  fun k' => if decide (k' = k) then Some f else r k'.

Definition RegisterFuncs (r : registry) : registry :=
  Register pfKind renderFenced r.

(** ** The host's render pass: a walk that dispatches on the node's kind *)

Definition dispatch (funcs : registry) (src : bytes) : Walker world :=
  fun n entering =>
    nd <~ load n ;;
    match funcs (Kind nd) with
    | Some f => f src n entering
    | None => ret (WalkContinue, None)
    end.

Definition Render (funcs : registry) (fuel : nat) (n : ref)
    : M world (option error) :=
  src <~ gets source ;;
  Walk nodes (dispatch funcs src) fuel n.

(** A render function of the host: it reads the node and the source and
    appends to the sink. *)
Definition HostRenderer : Type :=
  bytes -> node -> bool -> (WalkStatus * option error) * bytes.

Definition hostFunc (f : HostRenderer) : NodeRendererFunc :=
  fun src n entering =>
    nd <~ load n ;;
    let '(r, out) := f src nd entering in
    modify (with_w (fun o => o +:+ out)) ;;;
    ret r.

(** The host's own table: no entry for [pfKind], which only this
    extension creates. *)
Definition hostRegistry (host : NodeKind -> option HostRenderer) : registry :=
  fun k => if decide (k = pfKind) then None else hostFunc <$> host k.

(** Parsing done, the host runs the AST transformers and then renders. *)
Definition Convert (funcs : registry) (fuel : nat) (doc : ref)
    : M world (option error) :=
  Transform fuel doc ;;; Render funcs fuel doc.

(** The children of a node, read along [firstChild] and [next]. *)
Fixpoint siblings (fuel : nat) (heap : list node) (c : option ref) : list ref :=
  match fuel, c with
  | S fuel, Some r =>
      r :: siblings fuel heap (heap !! r ≫= fun n => next (base n))
  | _, _ => []
  end.

Definition children (heap : list node) (r : ref) : list ref :=
  siblings (length heap) heap (heap !! r ≫= fun n => firstChild (base n)).

(** ** Well-formed trees

    The host's parser leaves a tree: following [firstChild] and [next]
    from the document reaches every node once.  [forest] is that shape
    (first child, next sibling), [shape heap c f] says that the sibling
    chain starting at [c] has it. *)

Inductive forest :=
  | Fnil
  | Fcons (r : ref) (children : forest) (siblings : forest).

Fixpoint shape (heap : list node) (c : option ref) (f : forest) : bool :=
  match f, c with
  | Fnil, None => true
  | Fcons r ch sib, Some r' =>
      bool_decide (r' = r) &&
      match heap !! r with
      | Some n =>
          shape heap (firstChild (base n)) ch && shape heap (next (base n)) sib
      | None => false
      end
  | _, _ => false
  end.

(** Fuel that suffices to walk a sibling chain of the given shape. *)
Fixpoint sizeF (f : forest) : nat :=
  match f with
  | Fnil => 1
  | Fcons _ ch sib => 2 + sizeF ch + sizeF sib
  end.

(** What [collect] appends while the chain is walked. *)
Definition mark (heap : list node) (r : ref) : list ref :=
  match heap !! r with
  | Some (Fenced _) => [r]
  | _ => []
  end.

Fixpoint fencedEvents (heap : list node) (f : forest) : list ref :=
  match f with
  | Fnil => []
  | Fcons r ch sib =>
      mark heap r ++ fencedEvents heap ch ++ mark heap r ++ fencedEvents heap sib
  end.

Definition registered (s : world) (lang : string) : bool :=
  match PipeFuncs s !! lang with
  | Some _ => true
  | None => false
  end.

(** No fenced block of the store has a registered tag. *)
Definition unmatched (s : world) : bool :=
  forallb (fun n => match n with
                    | Fenced fb => negb (registered s (Language fb (source s)))
                    | _ => true
                    end) (nodes s).

(** No node of the store is a tagged block (as the parser leaves it). *)
Definition untagged (heap : list node) : bool :=
  forallb (fun n => match n with pfBlock _ => false | _ => true end) heap.

(** ** What the link assignments leave alone *)

(** A node without its links: its dynamic type, info string and lines. *)
Definition erase (n : node) : node :=
  set_base (mkBaseNode None None None None None 0) n.

(** [s'] has the source, registry, sink and call record of [s]. *)
Definition frame (s s' : world) : Prop :=
  source s' = source s /\ PipeFuncs s' = PipeFuncs s
  /\ w s' = w s /\ calls s' = calls s.

(** [s'] differs from [s] in link fields only. *)
Definition relinked (s s' : world) : Prop :=
  frame s s'
  /\ length (nodes s') = length (nodes s)
  /\ forall r n, nodes s !! r = Some n ->
       exists n', nodes s' !! r = Some n' /\ erase n' = erase n.

(** [s'] differs from [s] in link fields and in objects allocated since. *)
Definition extends (s s' : world) : Prop :=
  frame s s'
  /\ length (nodes s) <= length (nodes s')
  /\ forall r n, nodes s !! r = Some n ->
       exists n', nodes s' !! r = Some n' /\ erase n' = erase n.

(** The objects of [s] allocated since [s0] are tagged blocks with a
    registered tag and the info string and lines of a fenced block of
    [s0]. *)
Definition created (s0 s : world) : Prop :=
  forall r n, length (nodes s0) <= r -> nodes s !! r = Some n ->
    exists fb orig f0,
      n = pfBlock fb
      /\ is_Some (PipeFuncs s0 !! Language fb (source s0))
      /\ nodes s0 !! orig = Some (Fenced f0)
      /\ Info fb = Info f0 /\ lines fb = lines f0.

(** None of the listed fenced blocks has a registered tag. *)
Definition unmatchedAt (s : world) (l : list ref) : bool :=
  forallb (fun x => match nodes s !! x with
                    | Some (Fenced fb) =>
                        negb (registered s (Language fb (source s)))
                    | _ => true
                    end) l.

(** What a conversion leaves behind: the error, the children of the
    document, the sink, and the calls made. *)
Definition outcome (doc : ref) (r : option (option error * world))
    : option (option error * list ref * bytes * list (string * bytes)) :=
  match r with
  | Some (e, s) => Some (e, children (nodes s) doc, w s, calls s)
  | None => None
  end.

(** ** Links as the parser leaves them

    Only documents and the host's other node types have children: a
    parent pointer leads to one of them, and fenced blocks (and their
    tagged copies) have no first child. *)

Definition container (n : node) : bool :=
  match n with
  | Document _ | Other _ _ => true
  | Fenced _ | pfBlock _ => false
  end.

Definition isCont (heap : list node) (r : ref) : bool :=
  match heap !! r with
  | Some n => container n
  | None => false
  end.

Definition okParent (heap : list node) (o : option ref) : bool :=
  match o with
  | Some p => isCont heap p
  | None => true
  end.

Definition wfNode (heap : list node) (n : node) : bool :=
  okParent heap (parent (base n))
  && (container n || bool_decide (firstChild (base n) = None)).

Definition wfLinks (heap : list node) : bool := forallb (wfNode heap) heap.

(** The links are well formed and the listed references are containers. *)
Definition Inv (C : list ref) (s : world) : Prop :=
  wfLinks (nodes s) = true /\ Forall (fun r => isCont (nodes s) r = true) C.

(** Partial correctness of a computation. *)
Definition hoare {St A} (P : St -> Prop) (m : M St A) (Q : A -> St -> Prop)
    : Prop :=
  forall s a s', P s -> m s = Some (a, s') -> Q a s'.

(** The object at [v] has parent pointer [o]. *)
Definition parentIs (v : ref) (o : option ref) (s : world) : Prop :=
  exists n, nodes s !! v = Some n /\ parent (base n) = o.

(** The object at [v] is detached: no parent, no siblings. *)
Definition detached (v : ref) (s : world) : Prop :=
  exists n, nodes s !! v = Some n
            /\ parent (base n) = None /\ prev (base n) = None
            /\ next (base n) = None.

(** The document has a first child, a tagged block without children
    and without next sibling. *)
Definition soleTagged (doc : ref) (s : world) : Prop :=
  exists bd Y fy,
    nodes s !! doc = Some (Document bd) /\ firstChild bd = Some Y
    /\ nodes s !! Y = Some (pfBlock fy)
    /\ firstChild (BaseBlock fy) = None /\ next (BaseBlock fy) = None.

(** A block as it appears in [fencedBlocks]: once for entering, once for
    leaving. *)
Definition twice (x : ref) : list ref := [x; x].

(** ** What the render hook does to the world *)

(** The call of a registered function, recorded. *)
Definition called (lang : string) (arg : bytes) (s : world) : world :=
  with_calls (fun l => l ++ [(lang, arg)]) s.

(** Bytes appended to the sink. *)
Definition written (out : bytes) (s : world) : world :=
  with_w (fun o => o +:+ out) s.

(** [s'] has the source and the registry of [s]. *)
Definition reads_only (s s' : world) : Prop :=
  source s' = source s /\ PipeFuncs s' = PipeFuncs s.

(** A computation all of whose runs relink. *)
Definition relinks {A} (m : M world A) : Prop :=
  forall s a s', m s = Some (a, s') -> relinked s s'.

(** ** Notions for the properties of the loop and of the render pass *)

(** The fenced blocks of a sibling chain, in document order. *)
Fixpoint fencedOf (heap : list node) (f : forest) : list ref :=
  match f with
  | Fnil => []
  | Fcons r ch sib => mark heap r ++ fencedOf heap ch ++ fencedOf heap sib
  end.

(** The object at [x] is a fenced block whose tag is registered. *)
Definition isHit (s : world) (x : ref) : bool :=
  match nodes s !! x with
  | Some (Fenced fb) => registered s (Language fb (source s))
  | _ => false
  end.

Fixpoint countHits (s : world) (l : list ref) : nat :=
  match l with
  | [] => 0
  | x :: l => (if isHit s x then 1 else 0) + countHits s l
  end.

(** The sibling chain that starts at [c] begins with the nodes [L]; the
    result is the link that follows the last of them. *)
Fixpoint follow (heap : list node) (c : option ref) (L : list ref)
    : option (option ref) :=
  match L with
  | [] => Some c
  | r :: L' =>
      match c, heap !! r with
      | Some r', Some n =>
          if decide (r' = r) then follow heap (next (base n)) L' else None
      | _, _ => None
      end
  end.

(** What the hook computes for the tagged block at [r]: the language
    tag, the content and the result of the registered function. *)
Definition piped (s : world) (src : bytes) (r : ref)
    : option (string * bytes * (bytes + error)) :=
  match nodes s !! r with
  | Some (pfBlock fb) =>
      match (PipeFuncs s !! Language fb src : option PipeFunc) with
      | Some f => Some (Language fb src, RawContent fb src, f (RawContent fb src))
      | None => None
      end
  | _ => None
  end.

(** The calls and outputs of a list of tagged blocks whose functions all
    succeed. *)
Fixpoint outputsOf (s : world) (src : bytes) (L : list ref)
    : option (list (string * bytes * bytes)) :=
  match L with
  | [] => Some []
  | r :: L' =>
      match piped s src r, outputsOf s src L' with
      | Some (lang, arg, inl out), Some tr => Some ((lang, arg, out) :: tr)
      | _, _ => None
      end
  end.

(** The world after the calls and outputs [tr]. *)
Definition after (tr : list (string * bytes * bytes)) (s : world) : world :=
  mkWorld (nodes s) (source s) (PipeFuncs s)
          (w s +:+ concatBytes (map snd tr))
          (calls s ++ map fst tr).

Fixpoint hasSpace (a : bytes) : bool :=
  match a with
  | EmptyString => false
  | String c rest => bool_decide (c = Ascii.Space) || hasSpace rest
  end.

(** ** Links that lead into the store

    A Go pointer that is not nil points at an object.  In the store this
    reads: every link field of every object is nil or a reference below
    the length of the store. *)

Definition inStore (N : nat) (o : option ref) : bool :=
  match o with
  | Some r => bool_decide (r < N)
  | None => true
  end.

Definition linksIn (N : nat) (b : BaseNode) : bool :=
  inStore N (firstChild b) && inStore N (lastChild b) && inStore N (parent b)
  && inStore N (next b) && inStore N (prev b).

Definition closed (heap : list node) : bool :=
  forallb (fun n => linksIn (length heap) (base n)) heap.

(** A store of [N] objects whose links lead into it. *)
Definition closedAt (N : nat) (s : world) : Prop :=
  length (nodes s) = N /\ closed (nodes s) = true.

(** Total correctness of a computation: from [P] it returns, in [Q]. *)
Definition total {St A} (P : St -> Prop) (m : M St A) (Q : A -> St -> Prop)
    : Prop :=
  forall s, P s -> exists a s', m s = Some (a, s') /\ Q a s'.

(** The objects at the references in [C] are in [s'] what they were in
    [s]. *)
Definition keptOn (C : ref -> Prop) (s s' : world) : Prop :=
  forall r n, C r -> nodes s !! r = Some n -> nodes s' !! r = Some n.

(** The last of the listed references that is a fenced block with a
    registered tag. *)
Fixpoint lastHit (s : world) (l : list ref) : option ref :=
  match l with
  | [] => None
  | x :: l =>
      match lastHit s l with
      | Some y => Some y
      | None => if isHit s x then Some x else None
      end
  end.

(** The document has a first child, a tagged block without children and
    without next sibling, with the info string and the lines of [f]. *)
Definition soleCopy (doc : ref) (f : FencedCodeBlock) (s : world) : Prop :=
  exists bd Y fy,
    nodes s !! doc = Some (Document bd) /\ firstChild bd = Some Y
    /\ nodes s !! Y = Some (pfBlock fy)
    /\ firstChild (BaseBlock fy) = None /\ next (BaseBlock fy) = None
    /\ Info fy = Info f /\ lines fy = lines f.

End Model.

(** ** A plain host text layer and the documents of [TestPipefence] *)

Definition nl : string := String (ascii_of_nat 10) EmptyString.
Definition dq : string := String (ascii_of_nat 34) EmptyString.

(** Segments as half-open byte ranges of the source. *)
#[global] Instance plainText : HostText := {|
  Segment := nat * nat;
  Value := fun seg src => String.substring (fst seg) (snd seg - fst seg) src;
  Quote := fun s => dq +:+ s +:+ dq
|}.

Fixpoint mapBytes (f : ascii -> ascii) (a : bytes) : bytes :=
  match a with
  | EmptyString => EmptyString
  | String c rest => String (f c) (mapBytes f rest)
  end.

(** The test's transformer: [bytes.ReplaceAll(a, "o", "a")]. *)
Definition o2a : PipeFunc :=
  fun a => inl (mapBytes (fun c => if decide (c = "o"%char) then "a"%char else c) a).

(** A transformer that reports a failure. *)
Definition failing : PipeFunc := fun _ => inr "exit status 1".

Definition bananaFuncs : gmap string PipeFunc := {[ "banana" := o2a ]}.

Definition leaf (parent prev next : option ref) : BaseNode :=
  mkBaseNode None None parent next prev 0.

(** The parse of a single fence tagged banana around the line foo. *)
Definition srcBanana : bytes := "```banana" +:+ nl +:+ "foo" +:+ nl +:+ "```" +:+ nl.
Definition fbBanana : FencedCodeBlock :=
  mkFencedCodeBlock (leaf (Some 0) None None) (Some (3, 9)) [(10, 14)].
Definition docBanana (funcs : gmap string PipeFunc) : world :=
  mkWorld
    [ Document (mkBaseNode (Some 1) (Some 1) None None None 1);
      Fenced fbBanana ]
    srcBanana funcs "" [].

(** What [Transform] makes of it: the fenced block is detached, and two
    tagged copies exist, one per visit of the block during the walk. *)
Definition fbDetached : FencedCodeBlock :=
  mkFencedCodeBlock (leaf None None None) (Some (3, 9)) [(10, 14)].
Definition docBananaOut : world :=
  mkWorld
    [ Document (mkBaseNode (Some 3) (Some 3) None None None 0);
      Fenced fbDetached;
      pfBlock fbBanana;
      pfBlock fbDetached ]
    srcBanana bananaFuncs "" [].

(** A tagged block as the render pass meets it. *)
Definition docTagged (funcs : gmap string PipeFunc) : world :=
  mkWorld
    [ Document (mkBaseNode (Some 1) (Some 1) None None None 1);
      pfBlock fbBanana ]
    srcBanana funcs "" [].

(** The parse of a fence tagged unknown around the line foo. *)
Definition srcUnknown : bytes := "```unknown" +:+ nl +:+ "foo" +:+ nl +:+ "```" +:+ nl.
Definition docUnknown : world :=
  mkWorld
    [ Document (mkBaseNode (Some 1) (Some 1) None None None 1);
      Fenced (mkFencedCodeBlock (leaf (Some 0) None None) (Some (3, 10)) [(11, 15)]) ]
    srcUnknown bananaFuncs "" [].

(** The parse of the paragraph lolcat: a paragraph holding a text node. *)
Definition docLolcat : world :=
  mkWorld
    [ Document (mkBaseNode (Some 1) (Some 1) None None None 1);
      Other "Paragraph" (mkBaseNode (Some 2) (Some 2) (Some 0) None None 1);
      Other "Text" (leaf (Some 1) None None) ]
    "lolcat" bananaFuncs "" [].

(** Two fences tagged banana, around foo and around boo, with a blank
    line between them. *)
Definition srcTwo : bytes :=
  srcBanana +:+ nl +:+ "```banana" +:+ nl +:+ "boo" +:+ nl +:+ "```" +:+ nl.
Definition docTwo : world :=
  mkWorld
    [ Document (mkBaseNode (Some 1) (Some 2) None None None 2);
      Fenced (mkFencedCodeBlock (leaf (Some 0) None (Some 2)) (Some (3, 9)) [(10, 14)]);
      Fenced (mkFencedCodeBlock (leaf (Some 0) (Some 1) None) (Some (22, 28)) [(29, 33)]) ]
    srcTwo bananaFuncs "" [].

(** A paragraph followed by a fence tagged banana. *)
Definition srcPara : bytes := "a" +:+ nl +:+ nl +:+ srcBanana.
Definition docPara : world :=
  mkWorld
    [ Document (mkBaseNode (Some 1) (Some 2) None None None 2);
      Other "Paragraph" (leaf (Some 0) None (Some 2));
      Fenced (mkFencedCodeBlock (leaf (Some 0) (Some 1) None) (Some (6, 12)) [(13, 17)]) ]
    srcPara bananaFuncs "" [].

(** Two tagged blocks under the document, linked as siblings: the tree
    the render pass would walk had each block of [docTwo] been replaced
    in place. *)
Definition docTwoTagged (funcs : gmap string PipeFunc) : world :=
  mkWorld
    [ Document (mkBaseNode (Some 1) (Some 2) None None None 2);
      pfBlock (mkFencedCodeBlock (leaf (Some 0) None (Some 2)) (Some (3, 9)) [(10, 14)]);
      pfBlock (mkFencedCodeBlock (leaf (Some 0) (Some 1) None) (Some (22, 28)) [(29, 33)]) ]
    srcTwo funcs "" [].

(** A host with no render functions of its own. *)
Definition noHost : NodeKind -> option HostRenderer := fun _ => None.

(** A host that renders a fenced code block the default way, as its
    lines inside a pre and code element (attributes and escaping left
    out). *)
Definition preHost : NodeKind -> option HostRenderer :=
  fun k =>
    match k with
    | KindFencedCodeBlock =>
        Some (fun src n entering =>
                match n, entering with
                | Fenced fb, true =>
                    ((WalkContinue, None),
                     "<pre><code>" +:+ spec_RawContent fb src
                       +:+ "</code></pre>" +:+ nl)
                | _, _ => ((WalkContinue, None), EmptyString)
                end)
    | _ => None
    end.

(** A transformer that fails on one input and replaces o by a on the
    others. *)
Definition failingOn (bad : bytes) : PipeFunc :=
  fun a => if decide (a = bad) then inr "exit status 1" else o2a a.

(** A block quote holding a fence tagged banana around the line foo. *)
Definition srcQuote : bytes :=
  "> ```banana" +:+ nl +:+ "> foo" +:+ nl +:+ "> ```" +:+ nl.
Definition fbQuoted : FencedCodeBlock :=
  mkFencedCodeBlock (leaf (Some 1) None None) (Some (5, 11)) [(14, 18)].
Definition docQuote : world :=
  mkWorld
    [ Document (mkBaseNode (Some 1) (Some 1) None None None 1);
      Other "Blockquote" (mkBaseNode (Some 2) (Some 2) (Some 0) None None 1);
      Fenced fbQuoted ]
    srcQuote bananaFuncs "" [].

(** The two fenced blocks of [docTwo]. *)
Definition fbFoo : FencedCodeBlock :=
  mkFencedCodeBlock (leaf (Some 0) None (Some 2)) (Some (3, 9)) [(10, 14)].
Definition fbBoo : FencedCodeBlock :=
  mkFencedCodeBlock (leaf (Some 0) (Some 1) None) (Some (22, 28)) [(29, 33)].

(** The sink after a render pass. *)
Definition rendered (r : option (option error * world)) : option bytes :=
  match r with
  | Some (_, s) => Some (w s)
  | None => None
  end.

(** ** The host's [text.Segment]

    A segment is a span of the source with a padding: the columns of a
    tab that the parser expanded and that remain after the fence's
    indentation was taken off the line.  [Segment.Value] puts that many
    spaces before the bytes of the span, and ends a line marked
    [ForceNewline] with a newline when its bytes do not end in one (a
    last line at the end of the input). *)

Record TextSegment := mkSegment {
  Start : nat;
  Stop : nat;
  Padding : nat;
  ForceNewline : bool
}.

Definition tab : string := String (ascii_of_nat 9) EmptyString.

Fixpoint spaces (n : nat) : bytes :=
  match n with
  | O => EmptyString
  | S n => String Ascii.Space (spaces n)
  end.

(** [len(result) > 0 && result[len(result)-1] != '\n'] is false. *)
Fixpoint endsLine (a : bytes) : bool :=
  match a with
  | EmptyString => true
  | String c EmptyString => bool_decide (c = ascii_of_nat 10)
  | String _ rest => endsLine rest
  end.

(** [buffer[t.Start:t.Stop]] *)
Definition span (buffer : bytes) (t : TextSegment) : bytes :=
  String.substring (Start t) (Stop t - Start t) buffer.

Definition SegmentValue (t : TextSegment) (buffer : bytes) : bytes :=
  let result :=
    if decide (Padding t = 0) then span buffer t
    else spaces (Padding t) +:+ span buffer t in
  if ForceNewline t && negb (endsLine result) then result +:+ nl else result.

Definition segmentText : HostText := {|
  Segment := TextSegment;
  Value := SegmentValue;
  Quote := fun s => dq +:+ s +:+ dq
|}.

(** A line whose value is its span of the source: no padding, and no
    newline to add. *)
Definition literal (buffer : bytes) (t : TextSegment) : bool :=
  bool_decide (Padding t = 0)
  && (negb (ForceNewline t) || endsLine (span buffer t)).

(** Lines that follow each other in the source without a gap. *)
Fixpoint chained (l : list TextSegment) : bool :=
  match l with
  | [] => true
  | t :: rest =>
      bool_decide (Start t <= Stop t)
      && match rest with
         | [] => true
         | t' :: _ => bool_decide (Stop t = Start t') && chained rest
         end
  end.

(** A fence tagged banana around the lines foo and bar. *)
Definition srcLines : bytes :=
  "```banana" +:+ nl +:+ "foo" +:+ nl +:+ "bar" +:+ nl +:+ "```" +:+ nl.
Definition fbLines : @FencedCodeBlock segmentText :=
  @mkFencedCodeBlock segmentText (leaf (Some 0) None None)
    (Some (mkSegment 3 9 0 false))
    [mkSegment 10 14 0 true; mkSegment 14 18 0 true].
Definition docLinesTagged : @world segmentText :=
  @mkWorld segmentText
    [ @Document segmentText (mkBaseNode (Some 1) (Some 1) None None None 1);
      @pfBlock segmentText fbLines ]
    srcLines bananaFuncs "" [].

(** The same block in the plain text layer. *)
Definition fbLinesPlain : FencedCodeBlock :=
  mkFencedCodeBlock (leaf (Some 0) None None) (Some (3, 9)) [(10, 14); (14, 18)].

(** A fence indented by two spaces and tagged banana, around a line
    that starts with a tab: the tab spans four columns, two of them are
    the fence's indentation, two remain as padding of the line. *)
Definition srcPadded : bytes :=
  "  ```banana" +:+ nl +:+ tab +:+ "foo" +:+ nl +:+ "  ```" +:+ nl.
Definition fbPadded : @FencedCodeBlock segmentText :=
  @mkFencedCodeBlock segmentText (leaf (Some 0) None None)
    (Some (mkSegment 5 11 0 false))
    [mkSegment 13 17 2 true].
Definition docPadded : @world segmentText :=
  @mkWorld segmentText
    [ @Document segmentText (mkBaseNode (Some 1) (Some 1) None None None 1);
      @Fenced segmentText fbPadded ]
    srcPadded bananaFuncs "" [].

(** Whether [a] is a span of [buffer]. *)
Definition isSpanOf (a buffer : bytes) : bool :=
  existsb (fun i => bool_decide (String.substring i (String.length a) buffer = a))
          (seq 0 (S (String.length buffer))).

(** * Byte slices and their backing arrays

    A Go [[]byte] is a window on a backing array, and two slices on one
    array share their bytes.  The memory is the list of the arrays
    allocated so far; a slice names an array and a window of it. *)

Record slice := mkSlice {
  arr : nat;
  lo : nat;
  hi : nat
}.

Abbreviation memory := (list bytes).

Definition bytesOf (m : memory) (p : slice) : bytes :=
  match m !! arr p with
  | Some a => String.substring (lo p) (hi p - lo p) a
  | None => EmptyString
  end.

(** [var buf bytes.Buffer]: a buffer with storage of its own, empty. *)
Definition newBuffer : M memory nat :=
  fun m => Some (length m, m ++ [EmptyString]).

(** [buf.Write(p)]: the bytes of [p] are copied to the end of the
    buffer's storage. *)
Definition Buffer_Write (buf : nat) (p : slice) : M memory unit :=
  fun m =>
    match m !! buf with
    | Some a => Some (tt, <[buf := a +:+ bytesOf m p]> m)
    | None => None
    end.

(** [buf.Bytes()]: a slice on the buffer's storage. *)
Definition Buffer_Bytes (buf : nat) : M memory slice :=
  fun m =>
    match m !! buf with
    | Some a => Some (mkSlice buf 0 (String.length a), m)
    | None => None
    end.

(** A [PipeFunc] as Go runs it: it is handed a slice and may write
    through it. *)
Definition PipeFuncM : Type := slice -> M memory (slice + error).

(** A function that reaches the memory through its argument only: it
    leaves every array other than its argument's as it is (and may
    allocate). *)
Definition confined (f : PipeFuncM) : Prop :=
  forall a m r m', f a m = Some (r, m') ->
    forall id, id < length m -> id <> arr a -> m' !! id = m !! id.

Section Buffers.
Context `{HostText}.

(** [line.Value(src)] on slices: the host may return a window of [src]
    itself or a slice on a new array. *)
Variable ValueM : Segment -> slice -> M memory slice.

(** What the passes rely on: the host's [Value] leaves the bytes of the
    source and every other array as they are, and the slice it returns
    holds the value of the line. *)
Definition readsOnly (line : Segment) : Prop :=
  forall src m v m', ValueM line src m = Some (v, m') ->
    length m <= length m'
    /\ (forall id, id < length m -> id <> arr src -> m' !! id = m !! id)
    /\ bytesOf m' src = bytesOf m src
    /\ bytesOf m' v = Value line (bytesOf m src).

(** The loop of [RawContent], [i] running over the indices of [lines]. *)
Fixpoint writeLines (buf : nat) (ls : list Segment) (src : slice)
    (indices : list nat) : M memory unit :=
  match indices with
  | [] => ret tt
  | i :: indices =>
      match ls !! i with
      | Some line =>
          v <~ ValueM line src ;;
          Buffer_Write buf v ;;;
          writeLines buf ls src indices
      | None => crash             (* [lines.At(i)] out of range *)
      end
  end.

(** [pfBlock.RawContent] on slices. *)
Definition RawContentM (b : FencedCodeBlock) (src : slice) : M memory slice :=
  buf <~ newBuffer ;;
  writeLines buf (lines b) src (seq 0 (length (lines b))) ;;;
  Buffer_Bytes buf.

End Buffers.

(** [Segment.Value] of the plain text layer on slices: the window
    [buffer[start:stop]] of the source itself, no copy. *)
Definition ValuePlainM (line : nat * nat) (buffer : slice) : M memory slice :=
  fun m =>
    if decide (fst line <= snd line <= hi buffer - lo buffer) then
      Some (mkSlice (arr buffer) (lo buffer + fst line) (lo buffer + snd line), m)
    else None.

(** The bytes [n] of [a] from [from] on set to [c]. *)
Fixpoint fill (a : bytes) (from n : nat) (c : ascii) : bytes :=
  match a with
  | EmptyString => EmptyString
  | String x rest =>
      match from, n with
      | S from, _ => String x (fill rest from n c)
      | O, S n => String c (fill rest O n c)
      | O, O => String x rest
      end
  end.

(** A function that overwrites its argument in place and returns it. *)
Definition scribble : PipeFuncM :=
  fun a m =>
    match m !! arr a with
    | Some s => Some (inl a, <[arr a := fill s (lo a) (hi a - lo a) "x"%char]> m)
    | None => None
    end.

(** * Properties *)

Section Proofs.
Context `{HostText}.

(** ** Running computations *)

Lemma bind_Some {St A B} (m : M St A) (k : A -> M St B) s b s' :
  (x <~ m ;; k x) s = Some (b, s') <->
  exists a s1, m s = Some (a, s1) /\ k a s1 = Some (b, s').
Proof.
  unfold bind. split.
  - destruct (m s) as [[a s1]|] eqn:E; [eauto | discriminate].
  - intros (a & s1 & -> & Hk). exact Hk.
Qed.

Lemma bind_run {St A B} (m : M St A) (k : A -> M St B) s a s1 :
  m s = Some (a, s1) -> (x <~ m ;; k x) s = k a s1.
Proof. unfold bind. now intros ->. Qed.

Lemma bind_ext {St A B} (m1 m2 : M St A) (k1 k2 : A -> M St B) s :
  m1 s = m2 s ->
  (forall a s1, m2 s = Some (a, s1) -> k1 a s1 = k2 a s1) ->
  (x <~ m1 ;; k1 x) s = (x <~ m2 ;; k2 x) s.
Proof.
  unfold bind. intros -> Hk. destruct (m2 s) as [[a s1]|]; [|reflexivity].
  now apply Hk.
Qed.

Lemma load_Some r s n : nodes s !! r = Some n -> load r s = Some (n, s).
Proof. unfold load. now intros ->. Qed.

Lemma load_inv r s n s' : load r s = Some (n, s') -> nodes s !! r = Some n /\ s' = s.
Proof.
  unfold load. destruct (nodes s !! r); [|discriminate].
  intros [= -> ->]. auto.
Qed.

(** ** The equations of the walk *)

Lemma walkHelper_S {St} (heap : St -> list node) (walker : Walker St) fuel n :
  walkHelper heap walker (S fuel) n =
    (r <~ walker n true ;;
     if stops r then ret r else
     r' <~ (if descends r then c <~ link heap firstChild n ;; walkChildren heap walker fuel c
            else ret (WalkContinue, None)) ;;
     if stops r' then ret r' else
     r'' <~ walker n false ;;
     if stops r'' then ret (WalkStop, snd r'') else ret (WalkContinue, None)).
Proof. reflexivity. Qed.

Lemma walkChildren_S {St} (heap : St -> list node) (walker : Walker St) fuel c :
  walkChildren heap walker (S fuel) c =
    match c with
    | None => ret (WalkContinue, None)
    | Some c =>
        r <~ walkHelper heap walker fuel c ;;
        if stops r then ret (WalkStop, snd r) else
        nx <~ link heap next c ;;
        walkChildren heap walker fuel nx
    end.
Proof. reflexivity. Qed.

(** ** Inverting runs *)

Lemma ret_inv {St A} (a b : A) (s s' : St) :
  ret a s = Some (b, s') -> b = a /\ s' = s.
Proof. unfold ret. intros [= -> ->]. auto. Qed.

Lemma link_inv {St} (heap : St -> list node) f r s a s' :
  link heap f r s = Some (a, s') ->
  s' = s /\ exists n, heap s !! r = Some n /\ a = f (base n).
Proof.
  unfold link. destruct (heap s !! r) as [n|]; [|discriminate].
  intros [= <- <-]. eauto.
Qed.

Ltac inv_bind H :=
  let a := fresh "a" in
  let s1 := fresh "s" in
  let H1 := fresh "Hrun" in
  apply bind_Some in H as (a & s1 & H1 & H).

Tactic Notation "bind_inv" hyp(H) "as" ident(a) ident(s1) ident(H1) :=
  apply bind_Some in H as (a & s1 & H1 & H).

Ltac inv_ret H :=
  apply ret_inv in H as [-> ->] || (apply ret_inv in H as [? ?]; subst).

(** ** Bytes *)

Lemma append_cons (c : ascii) (a b : bytes) :
  String c a +:+ b = String c (a +:+ b).
Proof. reflexivity. Qed.

Lemma append_nil_r (a : bytes) : a +:+ EmptyString = a.
Proof.
  induction a as [|c a IH]; [reflexivity|].
  now rewrite append_cons, IH.
Qed.

Lemma append_assoc (a b c : bytes) : (a +:+ b) +:+ c = a +:+ (b +:+ c).
Proof.
  induction a as [|x a IH]; [reflexivity|].
  now rewrite !append_cons, IH.
Qed.

(** ** [RawContent] *)

(** The indexed loop of [RawContent], started at line [length pre] with
    [buf] already written. *)
Lemma RawContent_loop (src : bytes) (pre rest : list Segment) (buf : bytes) :
  foldl (fun buf i =>
           match (pre ++ rest) !! i with
           | Some line => buf +:+ Value line src
           | None => buf
           end)
        buf (seq (length pre) (length rest))
  = buf +:+ concatBytes (map (fun line => Value line src) rest).
Proof.
  unfold concatBytes.
  revert pre buf. induction rest as [|line rest IH]; intros pre buf; simpl.
  - now rewrite append_nil_r.
  - rewrite (list_lookup_middle pre rest line (length pre) eq_refl).
    replace (pre ++ line :: rest) with ((pre ++ [line]) ++ rest)
      by now rewrite <- app_assoc.
    replace (S (length pre)) with (length (pre ++ [line]))
      by (rewrite length_app; simpl; lia).
    rewrite IH. apply append_assoc.
Qed.

Lemma RawContent_spec (b : FencedCodeBlock) (src : bytes) :
  RawContent b src = spec_RawContent b src.
Proof.
  unfold RawContent, spec_RawContent.
  exact (RawContent_loop src [] (lines b) EmptyString).
Qed.

(** ** The render hook on one tagged node *)

Lemma renderFenced_hit_enter src n s fb (f : PipeFunc) :
  nodes s !! n = Some (pfBlock fb) ->
  PipeFuncs s !! Language fb src = Some f ->
  renderFenced src n true s =
    match f (RawContent fb src) with
    | inl content =>
        Some ((WalkSkipChildren, None),
              written content (called (Language fb src) (RawContent fb src) s))
    | inr err =>
        Some ((WalkStop, Some (Errorf (Language fb src) err)),
              called (Language fb src) (RawContent fb src) s)
    end.
Proof.
  intros Hn Hf. unfold renderFenced, bind, load, gets, modify, ret.
  rewrite Hn, Hf. simpl.
  destruct (f (RawContent fb src)); reflexivity.
Qed.

Lemma renderFenced_hit_leave src n s fb (f : PipeFunc) :
  nodes s !! n = Some (pfBlock fb) ->
  PipeFuncs s !! Language fb src = Some f ->
  renderFenced src n false s = Some ((WalkContinue, None), s).
Proof.
  intros Hn Hf. unfold renderFenced, bind, load, gets, ret.
  now rewrite Hn, Hf.
Qed.

Lemma renderFenced_miss src n s fb entering :
  nodes s !! n = Some (pfBlock fb) ->
  PipeFuncs s !! Language fb src = None ->
  renderFenced src n entering s = Some ((WalkContinue, None), s).
Proof.
  intros Hn Hf. unfold renderFenced, bind, load, gets, ret.
  now rewrite Hn, Hf.
Qed.

(** The host's dispatch hands a tagged node to [renderFenced], whatever
    else is registered. *)
Lemma dispatch_pfBlock (r : registry) src n s fb entering :
  nodes s !! n = Some (pfBlock fb) ->
  dispatch (RegisterFuncs r) src n entering s = renderFenced src n entering s.
Proof.
  intros Hn. unfold dispatch, bind at 1. unfold load at 1.
  rewrite Hn. unfold RegisterFuncs, Register. simpl.
  now destruct (decide (pfKind = pfKind)).
Qed.

(** In the render pass, the visit of a tagged block whose tag is
    registered and whose function succeeds appends to the sink exactly the
    bytes the function returned for the block's content: nothing before
    them, nothing after them, nothing in place of them.  The visit is the
    host's walk of that node (entering, children, leaving) with
    [renderFenced] registered by [RegisterFuncs]. *)
Lemma tagged_block_emits_transformer_output
    (r : registry) (src : bytes) (fuel : nat) (n : ref) (s : world)
    (fb : FencedCodeBlock) (f : PipeFunc) (out : bytes) :
  nodes s !! n = Some (pfBlock fb) ->
  PipeFuncs s !! Language fb src = Some f ->
  f (RawContent fb src) = inl out ->
  walkHelper nodes (dispatch (RegisterFuncs r) src) (S fuel) n s =
    Some ((WalkContinue, None),
          written out (called (Language fb src) (RawContent fb src) s))
  /\ w (written out (called (Language fb src) (RawContent fb src) s))
     = w s +:+ out.
Proof.
  intros Hn Hf Hout. split; [|reflexivity].
  rewrite walkHelper_S. unfold bind at 1.
  rewrite (dispatch_pfBlock r src n s fb true Hn).
  rewrite (renderFenced_hit_enter src n s fb f Hn Hf), Hout.
  cbn [stops descends fst]. unfold bind at 1, ret at 1. cbn [stops].
  unfold bind at 1.
  rewrite (dispatch_pfBlock r src n _ fb false) by exact Hn.
  rewrite (renderFenced_hit_leave src n _ fb f) by assumption.
  reflexivity.
Qed.

(** C4: when the registered function fails on a tagged block, the hook
    returns [WalkStop] with an error made of the language tag and the
    cause, and the sink is as it was; the host's walk of that node ends
    there (the leaving call is not made), and the sibling loop that
    reached the node returns the error without visiting what follows. *)
Theorem C4_transformer_failure_halts
    (r : registry) (src : bytes) (fuel : nat) (n : ref) (s : world)
    (fb : FencedCodeBlock) (f : PipeFunc) (cause : error) :
  nodes s !! n = Some (pfBlock fb) ->
  PipeFuncs s !! Language fb src = Some f ->
  f (RawContent fb src) = inr cause ->
  let lang := Language fb src in
  let err := "fenced block transformer " +:+ Quote lang +:+ ": " +:+ cause in
  let s' := called lang (RawContent fb src) s in
  renderFenced src n true s = Some ((WalkStop, Some err), s')
  /\ w s' = w s
  /\ walkHelper nodes (dispatch (RegisterFuncs r) src) (S fuel) n s
     = Some ((WalkStop, Some err), s')
  /\ walkChildren nodes (dispatch (RegisterFuncs r) src) (S (S fuel)) (Some n) s
     = Some ((WalkStop, Some err), s').
Proof.
  intros Hn Hf Hout lang err s'.
  assert (Hhook : renderFenced src n true s = Some ((WalkStop, Some err), s')).
  { rewrite (renderFenced_hit_enter src n s fb f Hn Hf), Hout. reflexivity. }
  assert (Hwalk : walkHelper nodes (dispatch (RegisterFuncs r) src) (S fuel) n s
                  = Some ((WalkStop, Some err), s')).
  { rewrite walkHelper_S. unfold bind at 1.
    rewrite (dispatch_pfBlock r src n s fb true Hn), Hhook.
    reflexivity. }
  repeat split; try assumption.
  rewrite walkChildren_S. unfold bind at 1. rewrite Hwalk.
  reflexivity.
Qed.

(** C5, as the code has it: when the tag of a tagged node is not in the
    registry, the hook returns [WalkContinue] and no error, on entering
    and on leaving, and changes nothing: no byte is written, no function
    is called.  The host's walk of the node therefore leaves the sink as
    it was: nothing is rendered for the node. *)
Theorem C5_lookup_miss_renders_nothing
    (r : registry) (src : bytes) (fuel : nat) (n : ref) (s : world)
    (fb : FencedCodeBlock) :
  nodes s !! n = Some (pfBlock fb) ->
  firstChild (BaseBlock fb) = None ->
  PipeFuncs s !! Language fb src = None ->
  (forall entering,
     renderFenced src n entering s = Some ((WalkContinue, None), s))
  /\ walkHelper nodes (dispatch (RegisterFuncs r) src) (S (S fuel)) n s
     = Some ((WalkContinue, None), s).
Proof.
  intros Hn Hleaf Hmiss. split.
  { intros entering. now apply (renderFenced_miss src n s fb). }
  rewrite walkHelper_S. unfold bind at 1.
  rewrite (dispatch_pfBlock r src n s fb true Hn).
  rewrite (renderFenced_miss src n s fb true Hn Hmiss).
  cbn [stops descends fst]. unfold bind at 1. unfold bind at 1, link at 1.
  rewrite Hn. cbn [base]. rewrite Hleaf, walkChildren_S.
  unfold ret at 1. cbn [stops]. unfold bind at 1.
  rewrite (dispatch_pfBlock r src n s fb false Hn).
  now rewrite (renderFenced_miss src n s fb false Hn Hmiss).
Qed.

(** The bytes handed to the registered function are the values of
    the block's content lines, concatenated in order with nothing in
    between: the hook's call is recorded with exactly that argument. *)
Lemma transformer_input_is_concatenated_lines
    (src : bytes) (n : ref) (s : world) (fb : FencedCodeBlock) (f : PipeFunc) :
  nodes s !! n = Some (pfBlock fb) ->
  PipeFuncs s !! Language fb src = Some f ->
  RawContent fb src = concatBytes (map (fun line => Value line src) (lines fb))
  /\ exists r s',
       renderFenced src n true s = Some (r, s')
       /\ calls s' = calls s ++
            [(Language fb src,
              concatBytes (map (fun line => Value line src) (lines fb)))].
Proof.
  intros Hn Hf. split; [apply RawContent_spec|].
  rewrite (renderFenced_hit_enter src n s fb f Hn Hf).
  fold (spec_RawContent fb src). rewrite <- RawContent_spec.
  destruct (f (RawContent fb src)); eauto.
Qed.


(** ** Walks *)

(** A walk relates its first and last state by any reflexive, transitive
    relation that each call of the walker respects. *)
Lemma walk_rel {St} (heap : St -> list node) (walker : Walker St)
    (R : St -> St -> Prop) :
  Reflexive R -> Transitive R ->
  (forall n e s r s', walker n e s = Some (r, s') -> R s s') ->
  forall fuel,
    (forall n s r s', walkHelper heap walker fuel n s = Some (r, s') -> R s s')
    /\ (forall c s r s', walkChildren heap walker fuel c s = Some (r, s') -> R s s').
Proof.
  intros Hrefl Htrans Hw.
  induction fuel as [|fuel [IHn IHc]]; (split; [intros n|intros c]);
    intros s r s' Hrun; try discriminate.
  - rewrite walkHelper_S in Hrun. inv_bind Hrun.
    apply Hw in Hrun0.
    destruct (stops a).
    { inv_ret Hrun. assumption. }
    inv_bind Hrun.
    assert (R s0 s1).
    { destruct (descends a).
      - inv_bind Hrun1. apply link_inv in Hrun2 as [-> _]. eauto.
      - inv_ret Hrun1. reflexivity. }
    destruct (stops a0).
    { inv_ret Hrun. etransitivity; eassumption. }
    inv_bind Hrun. apply Hw in Hrun2.
    assert (R s s2) by (etransitivity; [|eassumption]; etransitivity; eassumption).
    destruct (stops a1); inv_ret Hrun; assumption.
  - rewrite walkChildren_S in Hrun. destruct c as [c|].
    2:{ inv_ret Hrun. reflexivity. }
    inv_bind Hrun. apply IHn in Hrun0.
    destruct (stops a).
    { inv_ret Hrun. assumption. }
    inv_bind Hrun. apply link_inv in Hrun1 as [-> _].
    apply IHc in Hrun. etransitivity; eassumption.
Qed.

(** A walker that never stops and never skips makes a walk that does
    not stop. *)
Lemma walk_continues {St} (heap : St -> list node) (walker : Walker St) :
  (forall n e s r s', walker n e s = Some (r, s') -> r = (WalkContinue, None)) ->
  forall fuel,
    (forall n s r s', walkHelper heap walker fuel n s = Some (r, s') ->
       r = (WalkContinue, None))
    /\ (forall c s r s', walkChildren heap walker fuel c s = Some (r, s') ->
       r = (WalkContinue, None)).
Proof.
  intros Hw.
  induction fuel as [|fuel [IHn IHc]]; (split; [intros n|intros c]);
    intros s r s' Hrun; try discriminate.
  - rewrite walkHelper_S in Hrun. bind_inv Hrun as r1 s1 H1.
    apply Hw in H1 as ->. cbn [stops descends fst] in Hrun.
    bind_inv Hrun as r2 s2 H2. bind_inv H2 as c s3 Hl.
    apply IHc in H2 as ->. cbn [stops] in Hrun.
    bind_inv Hrun as r3 s4 H3. apply Hw in H3 as ->. cbn [stops] in Hrun.
    now inv_ret Hrun.
  - rewrite walkChildren_S in Hrun. destruct c as [c|]. 2:{ now inv_ret Hrun. }
    bind_inv Hrun as r1 s1 H1. apply IHn in H1 as ->. cbn [stops] in Hrun.
    bind_inv Hrun as nx s2 Hl. now apply IHc in Hrun.
Qed.

(** Two walkers that agree on every state of an invariant set which the
    second one keeps walk alike. *)
Lemma walk_ext {St} (heap : St -> list node) (w1 w2 : Walker St)
    (I : St -> Prop) :
  (forall n e s, I s -> w1 n e s = w2 n e s) ->
  (forall n e s r s', I s -> w2 n e s = Some (r, s') -> I s') ->
  forall fuel,
    (forall n s, I s ->
       walkHelper heap w1 fuel n s = walkHelper heap w2 fuel n s
       /\ forall r s', walkHelper heap w2 fuel n s = Some (r, s') -> I s')
    /\ (forall c s, I s ->
       walkChildren heap w1 fuel c s = walkChildren heap w2 fuel c s
       /\ forall r s', walkChildren heap w2 fuel c s = Some (r, s') -> I s').
Proof.
  intros Heq Hinv.
  induction fuel as [|fuel [IHn IHc]]; (split; [intros n|intros c]);
    intros s Hs; (split; [|intros r s' Hrun]); try reflexivity; try discriminate.
  - rewrite !walkHelper_S. apply bind_ext; [now apply Heq|].
    intros r s1 E1. pose proof (Hinv _ _ _ _ _ Hs E1) as Hs1.
    destruct (stops r); [reflexivity|].
    apply bind_ext.
    { destruct (descends r); [|reflexivity].
      apply bind_ext; [reflexivity|]. intros c s2 Hl.
      apply link_inv in Hl as [-> _]. apply (IHc _ _ Hs1). }
    intros r' s2 E2.
    assert (I s2) as Hs2.
    { destruct (descends r).
      - inv_bind E2. apply link_inv in Hrun as [-> _].
        exact (proj2 (IHc _ _ Hs1) _ _ E2).
      - now inv_ret E2. }
    destruct (stops r'); [reflexivity|].
    apply bind_ext; [now apply Heq|]. reflexivity.
  - rewrite walkHelper_S in Hrun. inv_bind Hrun.
    pose proof (Hinv _ _ _ _ _ Hs Hrun0) as Hs1.
    destruct (stops a). { now inv_ret Hrun. }
    inv_bind Hrun.
    assert (I s1) as Hs2.
    { destruct (descends a).
      - inv_bind Hrun1. apply link_inv in Hrun2 as [-> _].
        exact (proj2 (IHc _ _ Hs1) _ _ Hrun1).
      - now inv_ret Hrun1. }
    destruct (stops a0). { now inv_ret Hrun. }
    inv_bind Hrun. pose proof (Hinv _ _ _ _ _ Hs2 Hrun2).
    destruct (stops a1); now inv_ret Hrun.
  - rewrite !walkChildren_S. destruct c as [c|]; [|reflexivity].
    apply bind_ext; [apply (IHn c s Hs)|].
    intros r s1 E1. pose proof (proj2 (IHn c s Hs) _ _ E1) as Hs1.
    destruct (stops r); [reflexivity|].
    apply bind_ext; [reflexivity|]. intros nx s2 Hl.
    apply link_inv in Hl as [-> _]. apply (IHc _ _ Hs1).
  - rewrite walkChildren_S in Hrun. destruct c as [c|]. 2:{ now inv_ret Hrun. }
    inv_bind Hrun. pose proof (proj2 (IHn c s Hs) _ _ Hrun0) as Hs1.
    destruct (stops a). { now inv_ret Hrun. }
    inv_bind Hrun. apply link_inv in Hrun1 as [-> _].
    exact (proj2 (IHc _ _ Hs1) _ _ Hrun).
Qed.

(** ** The walk of [Transform] *)

Abbreviation walkFenced := (walkHelper (St := list ref * world)
                          (fun st => nodes (snd st)) collect).
Abbreviation walkFencedChildren := (walkChildren (St := list ref * world)
                                  (fun st => nodes (snd st)) collect).

Lemma collect_run node enter acc s :
  collect node enter (acc, s) =
    match nodes s !! node with
    | Some _ => Some ((WalkContinue, None), (acc ++ mark (nodes s) node, s))
    | None => None
    end.
Proof.
  unfold collect, bind, lift, load, mark.
  destruct (nodes s !! node) as [[]|]; cbn; rewrite ?app_nil_r; reflexivity.
Qed.

(** The walk of one node, given the walk of its children. *)
Lemma collect_node fuel r n acc s (L : list ref) :
  nodes s !! r = Some n ->
  (forall acc', walkFencedChildren fuel (firstChild (base n)) (acc', s)
                = Some ((WalkContinue, None), (acc' ++ L, s))) ->
  walkFenced (S fuel) r (acc, s)
  = Some ((WalkContinue, None),
          (acc ++ mark (nodes s) r ++ L ++ mark (nodes s) r, s)).
Proof.
  intros Hr HL. rewrite walkHelper_S. unfold bind at 1.
  rewrite collect_run, Hr. cbn [stops descends fst].
  unfold bind at 1. unfold bind at 1, link at 1. cbn [snd]. rewrite Hr, HL.
  cbn [stops]. unfold bind at 1. rewrite collect_run, Hr. cbn [stops].
  unfold ret. now rewrite <- !app_assoc.
Qed.

Lemma collect_chain f :
  forall fuel c acc s,
    shape (nodes s) c f = true -> sizeF f <= fuel ->
    walkFencedChildren fuel c (acc, s)
    = Some ((WalkContinue, None), (acc ++ fencedEvents (nodes s) f, s)).
Proof.
  induction f as [|r ch IHch sib IHsib]; intros fuel c acc s Hsh Hfuel;
    cbn [shape sizeF fencedEvents] in *.
  - destruct c; [discriminate|]. destruct fuel; [lia|].
    rewrite walkChildren_S, app_nil_r. reflexivity.
  - destruct c as [r'|]; [|discriminate].
    apply andb_prop in Hsh as [Hr Hsh]. apply bool_decide_eq_true in Hr. subst r'.
    destruct (nodes s !! r) as [n|] eqn:En; [|discriminate].
    apply andb_prop in Hsh as [Hch Hsib].
    destruct fuel as [|[|fuel]]; [lia|lia|].
    rewrite walkChildren_S. unfold bind at 1.
    rewrite (collect_node fuel r n acc s (fencedEvents (nodes s) ch) En).
    2:{ intros acc'. apply IHch; [assumption|lia]. }
    cbn [stops]. unfold bind at 1, link at 1. cbn [snd]. rewrite En.
    rewrite (IHsib (S fuel) _ _ s Hsib) by lia.
    now rewrite <- !app_assoc.
Qed.

(** On a well-formed tree and with fuel for its size, the walk of
    [Transform] returns, without error and without changing the world. *)
Lemma collectFenced_shape fuel doc s b f :
  nodes s !! doc = Some (Document b) ->
  shape (nodes s) (firstChild b) f = true ->
  sizeF f < fuel ->
  collectFenced fuel doc s = Some ((None, fencedEvents (nodes s) f), s).
Proof.
  intros Hdoc Hsh Hfuel. destruct fuel; [lia|].
  unfold collectFenced, Walk, bind.
  rewrite (collect_node fuel doc (Document b) [] s (fencedEvents (nodes s) f) Hdoc).
  2:{ intros acc'. apply collect_chain; [assumption|lia]. }
  unfold mark. rewrite Hdoc. cbn. now rewrite app_nil_r.
Qed.

Lemma mark_Fenced heap r x :
  x ∈ mark heap r -> exists fb, heap !! x = Some (Fenced fb).
Proof.
  unfold mark. destruct (heap !! r) as [[]|] eqn:E;
    try (intros Hx; now apply elem_of_nil in Hx).
  intros Hx. apply list_elem_of_singleton in Hx. subst. eauto.
Qed.

Lemma fencedEvents_Fenced heap f x :
  x ∈ fencedEvents heap f -> exists fb, heap !! x = Some (Fenced fb).
Proof.
  induction f as [|r ch IHch sib IHsib]; cbn [fencedEvents].
  - intros Hx. now apply elem_of_nil in Hx.
  - rewrite !elem_of_app. intros [Hx|[Hx|[Hx|Hx]]]; eauto using mark_Fenced.
Qed.

(** ** The replacement loop on blocks without a registered tag *)

Lemma unmatched_miss s r fb :
  unmatched s = true -> nodes s !! r = Some (Fenced fb) ->
  PipeFuncs s !! Language fb (source s) = None.
Proof.
  unfold unmatched. rewrite forallb_forall. intros Hall Hr.
  assert (Hin : In (Fenced fb) (nodes s)).
  { apply list_elem_of_In, list_elem_of_lookup. eauto. }
  specialize (Hall (Fenced fb) Hin).
  change (negb (registered s (Language fb (source s))) = true) in Hall.
  unfold registered in Hall.
  destruct (PipeFuncs s !! Language fb (source s)); [discriminate|reflexivity].
Qed.

Lemma replaceOne_miss doc fb s f :
  nodes s !! fb = Some (Fenced f) ->
  PipeFuncs s !! Language f (source s) = None ->
  replaceOne doc fb s = Some (tt, s).
Proof.
  intros Hfb Hmiss. unfold replaceOne, bind, gets, load.
  now rewrite Hfb, Hmiss.
Qed.

Lemma replaceAll_miss doc fbs s :
  unmatched s = true ->
  (forall x, x ∈ fbs -> exists fb, nodes s !! x = Some (Fenced fb)) ->
  replaceAll doc fbs s = Some (tt, s).
Proof.
  intros Hun. induction fbs as [|x fbs IH]; intros Hall; [reflexivity|].
  cbn [replaceAll]. unfold bind.
  destruct (Hall x) as [fb Hx]; [left|].
  rewrite (replaceOne_miss doc x s fb Hx (unmatched_miss s x fb Hun Hx)).
  apply IH. intros y Hy. apply Hall. now right.
Qed.

(** ** Rendering a tree without tagged nodes *)

Lemma untagged_lookup heap r n :
  untagged heap = true -> heap !! r = Some n -> Kind n <> pfKind.
Proof.
  unfold untagged. rewrite forallb_forall. intros Hall Hr.
  assert (Hin : In n heap) by (apply list_elem_of_In, list_elem_of_lookup; eauto).
  specialize (Hall n Hin). destruct n; (discriminate || (intros [=])).
Qed.

Lemma dispatch_untagged (r : registry) src n e s :
  untagged (nodes s) = true ->
  dispatch (RegisterFuncs r) src n e s = dispatch r src n e s.
Proof.
  intros Hun. unfold dispatch. apply bind_ext; [reflexivity|].
  intros nd s1 Hl. apply load_inv in Hl as [Hl ->].
  unfold RegisterFuncs, Register.
  destruct (decide (Kind nd = pfKind)) as [E|_]; [|reflexivity].
  now apply (untagged_lookup _ _ _ Hun) in Hl.
Qed.

Lemma hostFunc_nodes (f : HostRenderer) src n e s r s' :
  hostFunc f src n e s = Some (r, s') -> nodes s' = nodes s.
Proof.
  unfold hostFunc. intros Hrun. inv_bind Hrun.
  apply load_inv in Hrun0 as [_ ->].
  destruct (f src a e) as [r0 out]. inv_bind Hrun.
  unfold modify in Hrun0. injection Hrun0 as _ <-. now inv_ret Hrun.
Qed.

Lemma dispatch_host_nodes host src n e s r s' :
  dispatch (hostRegistry host) src n e s = Some (r, s') -> nodes s' = nodes s.
Proof.
  unfold dispatch. intros Hrun. inv_bind Hrun.
  apply load_inv in Hrun0 as [_ ->]. unfold hostRegistry in Hrun.
  destruct (decide (Kind a = pfKind)). { now inv_ret Hrun. }
  destruct (host (Kind a)) as [f|]; cbn in Hrun.
  - eapply hostFunc_nodes; eassumption.
  - now inv_ret Hrun.
Qed.

Lemma Render_untagged host fuel doc s :
  untagged (nodes s) = true ->
  Render (RegisterFuncs (hostRegistry host)) fuel doc s
  = Render (hostRegistry host) fuel doc s.
Proof.
  intros Hun. unfold Render, bind, gets, Walk, bind.
  destruct (walk_ext nodes
              (dispatch (RegisterFuncs (hostRegistry host)) (source s))
              (dispatch (hostRegistry host) (source s))
              (fun s => untagged (nodes s) = true)) with (fuel := fuel)
    as [Hn _].
  - intros. now apply dispatch_untagged.
  - intros n e s0 r s' Hs0 Hrun.
    now rewrite (dispatch_host_nodes _ _ _ _ _ _ _ Hrun).
  - now rewrite (proj1 (Hn doc s Hun)).
Qed.

(** C7: on a well-formed tree in which no fenced block has a registered
    tag (and which holds no tagged node, as the parser leaves it),
    [Transform] returns and leaves the world, tree included, as it was,
    and converting with the extension registered gives what the host's
    own render functions give. *)
Theorem C7_no_match_is_default_rendering
    (host : NodeKind -> option HostRenderer) (fuel : nat) (doc : ref)
    (s : world) (b : BaseNode) (f : forest) :
  nodes s !! doc = Some (Document b) ->
  shape (nodes s) (firstChild b) f = true ->
  sizeF f < fuel ->
  unmatched s = true ->
  untagged (nodes s) = true ->
  Transform fuel doc s = Some (tt, s)
  /\ Convert (RegisterFuncs (hostRegistry host)) fuel doc s
     = Render (hostRegistry host) fuel doc s.
Proof.
  intros Hdoc Hsh Hfuel Hun Htag.
  assert (HT : Transform fuel doc s = Some (tt, s)).
  { unfold Transform, bind.
    rewrite (collectFenced_shape fuel doc s b f Hdoc Hsh Hfuel). cbn [fst snd].
    apply replaceAll_miss; [assumption|]. apply fencedEvents_Fenced. }
  split; [assumption|].
  unfold Convert, bind. rewrite HT. now apply Render_untagged.
Qed.

(** ** Link assignments keep everything but links *)

Lemma frame_refl s : frame s s.
Proof. repeat split. Qed.

Lemma frame_trans s1 s2 s3 : frame s1 s2 -> frame s2 s3 -> frame s1 s3.
Proof.
  intros (A1 & B1 & C1 & D1) (A2 & B2 & C2 & D2).
  repeat split; congruence.
Qed.

#[local] Instance relinked_refl : Reflexive relinked.
Proof. intros s. repeat split; eauto. Qed.

#[local] Instance relinked_trans : Transitive relinked.
Proof.
  intros s1 s2 s3 (F1 & L1 & P1) (F2 & L2 & P2).
  split; [eauto using frame_trans|]. split; [congruence|].
  intros r n Hr. destruct (P1 _ _ Hr) as (n2 & Hr2 & E2).
  destruct (P2 _ _ Hr2) as (n3 & Hr3 & E3). exists n3. split; congruence.
Qed.

#[local] Instance extends_refl : Reflexive extends.
Proof. intros s. repeat split; eauto. Qed.

#[local] Instance extends_trans : Transitive extends.
Proof.
  intros s1 s2 s3 (F1 & L1 & P1) (F2 & L2 & P2).
  split; [eauto using frame_trans|]. split; [lia|].
  intros r n Hr. destruct (P1 _ _ Hr) as (n2 & Hr2 & E2).
  destruct (P2 _ _ Hr2) as (n3 & Hr3 & E3). exists n3. split; congruence.
Qed.

Lemma relinked_extends s s' : relinked s s' -> extends s s'.
Proof. intros (F & L & P). split; [assumption|]. split; [lia|assumption]. Qed.

Lemma erase_set_base b n : erase (set_base b n) = erase n.
Proof. now destruct n. Qed.

Lemma update_inv r g s u s' :
  update r g s = Some (u, s') ->
  exists n, nodes s !! r = Some n
            /\ s' = with_nodes (fun l => <[r := set_base (g (base n)) n]> l) s.
Proof.
  unfold update. intros Hrun. inv_bind Hrun.
  apply load_inv in Hrun0 as [Hr ->]. unfold modify in Hrun.
  injection Hrun as _ <-. eauto.
Qed.

Lemma field_inv {A} (f : BaseNode -> A) r s a s' :
  field f r s = Some (a, s') ->
  s' = s /\ exists n, nodes s !! r = Some n /\ a = f (base n).
Proof.
  unfold field. intros Hrun. inv_bind Hrun.
  apply load_inv in Hrun0 as [Hr ->]. inv_ret Hrun. eauto.
Qed.

Lemma relinks_ret {A} (a : A) : relinks (ret a).
Proof. intros s b s' Hrun. inv_ret Hrun. reflexivity. Qed.

Lemma relinks_crash {A} : relinks (@crash world A).
Proof. intros s b s' Hrun. discriminate. Qed.

Lemma relinks_bind {A B} (m : M world A) (k : A -> M world B) :
  relinks m -> (forall a, relinks (k a)) -> relinks (x <~ m ;; k x).
Proof.
  intros Hm Hk s b s' Hrun. inv_bind Hrun.
  etransitivity; [eapply Hm|eapply Hk]; eassumption.
Qed.

Lemma relinks_field {A} (f : BaseNode -> A) r : relinks (field f r).
Proof. intros s a s' Hrun. apply field_inv in Hrun as [-> _]. reflexivity. Qed.

Lemma relinks_update r g : relinks (update r g).
Proof.
  intros s u s' Hrun. apply update_inv in Hrun as (n & Hr & ->).
  split; [repeat split|]. cbn. split; [apply length_insert|].
  intros r' n' Hr'. destruct (decide (r' = r)) as [->|Hne].
  - exists (set_base (g (base n)) n). split.
    + apply list_lookup_insert_eq. now apply lookup_lt_Some in Hr.
    + rewrite erase_set_base. congruence.
  - exists n'. split; [|reflexivity]. now rewrite list_lookup_insert_ne.
Qed.

Ltac relinks :=
  unfold Parent, PreviousSibling, NextSibling, FirstChild,
         SetParent, SetPreviousSibling, SetNextSibling;
  repeat first
    [ apply relinks_ret
    | apply relinks_crash
    | apply relinks_field
    | apply relinks_update
    | assumption
    | apply relinks_bind; [|intros ?]
    | match goal with
      | |- relinks (match ?x with _ => _ end) => destruct x
      end ].

Lemma RemoveChild_relinks n self v : relinks (RemoveChild n self v).
Proof. unfold RemoveChild. relinks. Qed.

Lemma ensureIsolated_relinks v : relinks (ensureIsolated v).
Proof.
  unfold ensureIsolated. pose proof RemoveChild_relinks. relinks.
Qed.

Lemma AppendChild_relinks n self v : relinks (AppendChild n self v).
Proof.
  unfold AppendChild. pose proof (ensureIsolated_relinks v). relinks.
Qed.

Lemma InsertBefore_relinks n self v1 insertee :
  relinks (InsertBefore n self v1 insertee).
Proof.
  unfold InsertBefore.
  pose proof (ensureIsolated_relinks insertee).
  pose proof (AppendChild_relinks n self insertee). relinks.
Qed.

Lemma ReplaceChild_relinks n self v1 insertee :
  relinks (ReplaceChild n self v1 insertee).
Proof.
  unfold ReplaceChild.
  pose proof (InsertBefore_relinks n self (Some v1) insertee).
  pose proof (RemoveChild_relinks n self v1). relinks.
Qed.

(** ** The replacement loop *)

Lemma alloc_inv n s r s' :
  alloc n s = Some (r, s') ->
  r = length (nodes s) /\ s' = with_nodes (fun l => l ++ [n]) s.
Proof. unfold alloc. intros [= <- <-]. auto. Qed.

Lemma alloc_extends n s : extends s (with_nodes (fun l => l ++ [n]) s).
Proof.
  split; [repeat split|]. cbn. split; [rewrite length_app; lia|].
  intros r n' Hr. exists n'. split; [|reflexivity]. now apply lookup_app_l_Some.
Qed.

Lemma erase_Fenced_inv n f :
  erase n = erase (Fenced f) ->
  exists f', n = Fenced f' /\ Info f' = Info f /\ lines f' = lines f.
Proof. destruct n; cbn; intros [= ? ?]; eauto. Qed.

Lemma erase_pfBlock_inv n f :
  erase n = erase (pfBlock f) ->
  exists f', n = pfBlock f' /\ Info f' = Info f /\ lines f' = lines f.
Proof. destruct n; cbn; intros [= ? ?]; eauto. Qed.

Lemma erase_Kind n n' : erase n' = erase n -> Kind n' = Kind n.
Proof. destruct n, n'; cbn; intros [=]; congruence. Qed.

Lemma Language_Info f f' src : Info f = Info f' -> Language f src = Language f' src.
Proof. unfold Language. now intros ->. Qed.

(** One iteration, inverted: the block is a fenced block; on a miss
    nothing happens; on a hit a tagged copy of the block as it is now is
    allocated and handed to [ReplaceChild] with the document as
    receiver. *)
Lemma replaceOne_inv doc fb s u s' :
  replaceOne doc fb s = Some (u, s') ->
  exists f, nodes s !! fb = Some (Fenced f)
    /\ ((PipeFuncs s !! Language f (source s) = None /\ s' = s)
        \/ (is_Some (PipeFuncs s !! Language f (source s))
            /\ ReplaceChild doc (parent (BaseBlock f)) fb (length (nodes s))
                 (with_nodes (fun l => l ++ [pfBlock f]) s) = Some (u, s'))).
Proof.
  unfold replaceOne. intros Hrun. bind_inv Hrun as src s1 Hsrc.
  unfold gets in Hsrc. injection Hsrc as <- <-.
  bind_inv Hrun as n s1 Hload. apply load_inv in Hload as [Hfb ->].
  destruct n as [|f| |]; try discriminate. exists f. split; [assumption|].
  bind_inv Hrun as funcs s1 Hfuncs. unfold gets in Hfuncs.
  injection Hfuncs as <- <-.
  destruct (PipeFuncs s !! Language f (source s)) as [pf|] eqn:E.
  2:{ inv_ret Hrun. auto. }
  right. split; [eauto|].
  bind_inv Hrun as p s1 Hp. apply field_inv in Hp as [-> (n & Hn & ->)].
  rewrite Hfb in Hn. injection Hn as <-.
  bind_inv Hrun as new s1 Hnew. apply alloc_inv in Hnew as [-> ->]. exact Hrun.
Qed.

Lemma replaceOne_extends doc fb s u s' :
  replaceOne doc fb s = Some (u, s') -> extends s s'.
Proof.
  intros Hrun. apply replaceOne_inv in Hrun as (f & Hfb & [[_ ->]|[_ Hrun]]).
  - reflexivity.
  - etransitivity; [apply alloc_extends|].
    apply relinked_extends. eapply ReplaceChild_relinks. eassumption.
Qed.

Lemma replaceAll_extends doc fbs :
  forall s u s', replaceAll doc fbs s = Some (u, s') -> extends s s'.
Proof.
  induction fbs as [|fb fbs IH]; intros s u s' Hrun; cbn [replaceAll] in Hrun.
  - inv_ret Hrun. reflexivity.
  - inv_bind Hrun. etransitivity; [eapply replaceOne_extends|eapply IH]; eassumption.
Qed.

Lemma created_refl s : created s s.
Proof. intros r n Hr Hn. apply lookup_lt_Some in Hn. lia. Qed.

Lemma replaceOne_created doc fb s0 s u s' :
  extends s0 s -> created s0 s ->
  replaceOne doc fb s = Some (u, s') -> created s0 s'.
Proof.
  intros Hext Hcr Hrun.
  pose proof (replaceOne_extends _ _ _ _ _ Hrun) as Hstep.
  apply replaceOne_inv in Hrun as (f & Hfb & [[_ ->]|[Hhit Hrun]]);
    [assumption|].
  apply ReplaceChild_relinks in Hrun as (_ & Hlen & Hpay).
  cbn in Hlen, Hpay. rewrite length_app in Hlen. cbn in Hlen.
  (* the block being replaced is a fenced block of the first store *)
  assert (exists f0, nodes s0 !! fb = Some (Fenced f0)
                     /\ Info f = Info f0 /\ lines f = lines f0) as (f0 & Hf0 & HI & HL).
  { destruct (decide (fb < length (nodes s0))) as [Hlt|Hge].
    - apply lookup_lt_is_Some in Hlt as [n0 Hn0].
      destruct Hext as (_ & _ & Hp). destruct (Hp _ _ Hn0) as (n1 & Hn1 & E).
      rewrite Hfb in Hn1. injection Hn1 as <-. symmetry in E.
      apply erase_Fenced_inv in E as (f0 & -> & ? & ?). eauto.
    - destruct (Hcr fb (Fenced f)) as (? & ? & ? & [=] & _); [lia|assumption]. }
  destruct Hext as ((Esrc & Efun & _) & Hlen0 & _).
  intros r n Hr Hn.
  destruct (decide (r < length (nodes s))) as [Hlt|Hge].
  - (* allocated by an earlier iteration *)
    apply lookup_lt_is_Some in Hlt as [n1 Hn1].
    destruct (Hcr r n1 Hr Hn1) as (fb1 & orig & f1 & -> & Hreg & Horig & HI1 & HL1).
    destruct (Hpay r (pfBlock fb1)) as (n' & Hn' & E).
    { now apply lookup_app_l_Some. }
    rewrite Hn in Hn'. injection Hn' as <-.
    apply erase_pfBlock_inv in E as (fb2 & -> & HI2 & HL2).
    exists fb2, orig, f1. repeat split; try congruence.
    now rewrite (Language_Info fb2 fb1 _ HI2).
  - (* allocated by this iteration *)
    assert (r = length (nodes s)) as ->.
    { apply lookup_lt_Some in Hn. lia. }
    destruct (Hpay (length (nodes s)) (pfBlock f)) as (n' & Hn' & E).
    { apply list_lookup_middle. reflexivity. }
    rewrite Hn in Hn'. injection Hn' as <-.
    apply erase_pfBlock_inv in E as (fb2 & -> & HI2 & HL2).
    exists fb2, fb, f0. repeat split; try congruence.
    rewrite <- Esrc, <- Efun.
    now rewrite (Language_Info fb2 f _ HI2).
Qed.

Lemma replaceAll_created doc fbs :
  forall s0 s u s',
    extends s0 s -> created s0 s ->
    replaceAll doc fbs s = Some (u, s') -> created s0 s'.
Proof.
  induction fbs as [|fb fbs IH]; intros s0 s u s' Hext Hcr Hrun;
    cbn [replaceAll] in Hrun.
  - now inv_ret Hrun.
  - inv_bind Hrun. eapply IH; [| |eassumption].
    + etransitivity; [eassumption|]. eapply replaceOne_extends; eassumption.
    + eapply replaceOne_created; eassumption.
Qed.

(** The walk of [Transform] leaves the world as it is and returns no
    error. *)
Lemma collect_inv n e st r st' :
  collect n e st = Some (r, st') -> r = (WalkContinue, None) /\ snd st' = snd st.
Proof.
  destruct st as [acc s]. rewrite collect_run.
  destruct (nodes s !! n); [|discriminate]. now intros [= <- <-].
Qed.

Lemma collectFenced_inv fuel doc s r s' :
  collectFenced fuel doc s = Some (r, s') -> s' = s /\ fst r = None.
Proof.
  unfold collectFenced, Walk. intros Hrun.
  destruct (bind _ _ _) as [[err [fbs s1]]|] eqn:E; [|discriminate].
  injection Hrun as <- <-. bind_inv E as r0 st Hwalk. inv_ret E. cbn [fst].
  split.
  - destruct (walk_rel (St := list ref * world) (fun st => nodes (snd st)) collect
                (fun st st' => snd st' = snd st)) with (fuel := fuel) as [Hn _].
    + intros x. reflexivity.
    + intros x y z. congruence.
    + intros n e x r1 x' Hc. now apply collect_inv in Hc.
    + exact (Hn _ _ _ _ Hwalk).
  - destruct (walk_continues (St := list ref * world) (fun st => nodes (snd st))
                collect) with (fuel := fuel) as [Hn _].
    + intros n e x r1 x' Hc. now apply collect_inv in Hc.
    + now rewrite (Hn _ _ _ _ Hwalk).
Qed.

Lemma Transform_inv fuel doc s u s' :
  Transform fuel doc s = Some (u, s') ->
  exists fbs, collectFenced fuel doc s = Some ((None, fbs), s)
              /\ replaceAll doc fbs s = Some (u, s').
Proof.
  unfold Transform. intros Hrun. bind_inv Hrun as r s1 Hc.
  destruct (collectFenced_inv _ _ _ _ _ Hc) as [-> Herr].
  destruct r as [err fbs]. cbn [fst snd] in *. subst err. eauto.
Qed.

(** C9: every object that [Transform] allocates is a tagged block whose
    language tag is a key of the registry and whose info string, language
    tag and content lines are those of a fenced block of the tree it was
    given; and no object of that tree changes its kind, so a tagged block
    comes into being in the branch after a successful lookup only. *)
Theorem C9_tagged_nodes_come_from_registry_hits
    (fuel : nat) (doc : ref) (s s' : world) (u : unit) :
  Transform fuel doc s = Some (u, s') ->
  (forall r n, length (nodes s) <= r -> nodes s' !! r = Some n ->
     exists fb orig f0,
       n = pfBlock fb
       /\ is_Some (PipeFuncs s !! Language fb (source s))
       /\ nodes s !! orig = Some (Fenced f0)
       /\ Info fb = Info f0 /\ lines fb = lines f0
       /\ Language fb (source s) = Language f0 (source s))
  /\ (forall r n, nodes s !! r = Some n ->
        exists n', nodes s' !! r = Some n' /\ Kind n' = Kind n).
Proof.
  intros Hrun. apply Transform_inv in Hrun as (fbs & _ & Hrun). split.
  - intros r n Hr Hn.
    destruct (replaceAll_created doc fbs s s u s' (reflexivity _)
                (created_refl s) Hrun r n Hr Hn)
      as (fb & orig & f0 & -> & Hreg & Horig & HI & HL).
    exists fb, orig, f0. repeat split; try assumption.
    now apply Language_Info.
  - intros r n Hr.
    destruct (replaceAll_extends _ _ _ _ _ Hrun) as (_ & _ & Hp).
    destruct (Hp _ _ Hr) as (n' & Hn' & E). exists n'. split; [assumption|].
    now apply erase_Kind.
Qed.

(** ** Neither pass writes the source or the registry *)

Lemma renderFenced_reads_only src n e s r s' :
  renderFenced src n e s = Some (r, s') -> reads_only s s'.
Proof.
  unfold renderFenced. intros Hrun. bind_inv Hrun as nd s1 Hl.
  apply load_inv in Hl as [_ ->]. destruct nd as [|?|fb|]; try discriminate.
  bind_inv Hrun as funcs s1 Hg. unfold gets in Hg. injection Hg as <- <-.
  destruct (PipeFuncs s !! Language fb src) as [f|].
  2:{ inv_ret Hrun. now split. }
  destruct e; cbn [negb] in Hrun. 2:{ inv_ret Hrun. now split. }
  bind_inv Hrun as u s1 Hm. unfold modify in Hm. injection Hm as _ <-.
  destruct (f (RawContent fb src)).
  - bind_inv Hrun as u' s2 Hm. unfold modify in Hm. injection Hm as _ <-.
    inv_ret Hrun. now split.
  - inv_ret Hrun. now split.
Qed.

Lemma hostFunc_reads_only (f : HostRenderer) src n e s r s' :
  hostFunc f src n e s = Some (r, s') -> reads_only s s'.
Proof.
  unfold hostFunc. intros Hrun. bind_inv Hrun as nd s1 Hl.
  apply load_inv in Hl as [_ ->].
  destruct (f src nd e) as [r0 out]. bind_inv Hrun as u s1 Hm.
  unfold modify in Hm. injection Hm as _ <-. inv_ret Hrun. now split.
Qed.

Lemma dispatch_reads_only host src n e s r s' :
  dispatch (RegisterFuncs (hostRegistry host)) src n e s = Some (r, s') ->
  reads_only s s'.
Proof.
  unfold dispatch. intros Hrun. bind_inv Hrun as nd s1 Hl.
  apply load_inv in Hl as [_ ->]. unfold RegisterFuncs, Register in Hrun.
  destruct (decide (Kind nd = pfKind)).
  { eapply renderFenced_reads_only; eassumption. }
  unfold hostRegistry in Hrun.
  destruct (decide (Kind nd = pfKind)); [contradiction|].
  destruct (host (Kind nd)) as [f|]; cbn in Hrun.
  - eapply hostFunc_reads_only; eassumption.
  - inv_ret Hrun. now split.
Qed.

(** A run of [Transform] and a run of the render pass (the host's
    walk with its own render functions and [renderFenced]) each end with
    the source buffer and the registry they started with. *)
Lemma passes_leave_source_and_registry
    (host : NodeKind -> option HostRenderer) (fuel : nat) (doc : ref)
    (s s' t t' : world) (u : unit) (e : option error) :
  Transform fuel doc s = Some (u, s') ->
  Render (RegisterFuncs (hostRegistry host)) fuel doc t = Some (e, t') ->
  (source s' = source s /\ PipeFuncs s' = PipeFuncs s)
  /\ (source t' = source t /\ PipeFuncs t' = PipeFuncs t).
Proof.
  intros HT HR. split.
  - apply Transform_inv in HT as (fbs & _ & HT).
    apply replaceAll_extends in HT as ((? & ? & _) & _). now split.
  - unfold Render in HR. bind_inv HR as src s1 Hg.
    unfold gets in Hg. injection Hg as <- <-.
    unfold Walk in HR. bind_inv HR as r s1 Hw. inv_ret HR.
    destruct (walk_rel nodes (dispatch (RegisterFuncs (hostRegistry host)) (source t))
                reads_only) with (fuel := fuel) as [Hn _].
    + intros x. now split.
    + intros x y z [? ?] [? ?]. split; congruence.
    + intros n e0 x r0 x'. apply dispatch_reads_only.
    + exact (Hn _ _ _ _ Hw).
Qed.

(** ** A second run of [Transform] *)

Lemma unmatchedAt_miss s l x fb :
  unmatchedAt s l = true -> x ∈ l -> nodes s !! x = Some (Fenced fb) ->
  PipeFuncs s !! Language fb (source s) = None.
Proof.
  unfold unmatchedAt. rewrite forallb_forall. intros Hall Hx Hfb.
  apply list_elem_of_In in Hx. specialize (Hall x Hx). cbv beta in Hall.
  rewrite Hfb in Hall. unfold registered in Hall.
  destruct (PipeFuncs s !! Language fb (source s)); [discriminate|reflexivity].
Qed.

Lemma replaceAll_unmatchedAt doc fbs s :
  unmatchedAt s fbs = true ->
  (forall x, x ∈ fbs -> exists fb, nodes s !! x = Some (Fenced fb)) ->
  replaceAll doc fbs s = Some (tt, s).
Proof.
  induction fbs as [|x fbs IH]; intros Hun Hall; [reflexivity|].
  cbn [replaceAll]. unfold bind.
  destruct (Hall x) as [fb Hx]; [left|].
  rewrite (replaceOne_miss doc x s fb Hx
             (unmatchedAt_miss s (x :: fbs) x fb Hun (list_elem_of_here _ _) Hx)).
  apply IH.
  - cbn in Hun. now apply andb_prop in Hun as [_ Hun].
  - intros y Hy. apply Hall. now right.
Qed.

(** On a tree in which the fenced blocks with a registered tag have
    given way to tagged blocks (the tree may hold tagged blocks, and the
    fenced blocks still in it have no registered tag), the walk of
    [Transform] returns, collects fenced blocks only, never a tagged
    block, and [Transform] returns the world as it found it. *)
Lemma Transform_on_tagged_tree
    (fuel : nat) (doc : ref) (s : world) (b : BaseNode) (f : forest) :
  nodes s !! doc = Some (Document b) ->
  shape (nodes s) (firstChild b) f = true ->
  sizeF f < fuel ->
  unmatchedAt s (fencedEvents (nodes s) f) = true ->
  exists fbs,
    collectFenced fuel doc s = Some ((None, fbs), s)
    /\ (forall x, x ∈ fbs ->
          exists fb, nodes s !! x = Some (Fenced fb)
                     /\ Kind (Fenced fb) <> pfKind)
    /\ Transform fuel doc s = Some (tt, s).
Proof.
  intros Hdoc Hsh Hfuel Hun.
  pose proof (collectFenced_shape fuel doc s b f Hdoc Hsh Hfuel) as Hc.
  exists (fencedEvents (nodes s) f). split; [assumption|]. split.
  - intros x Hx. destruct (fencedEvents_Fenced _ _ _ Hx) as [fb Hfb].
    exists fb. split; [assumption|discriminate].
  - unfold Transform, bind. rewrite Hc. cbn [fst snd].
    apply replaceAll_unmatchedAt; [assumption|]. apply fencedEvents_Fenced.
Qed.

(** ** Link assignments keep the links well formed *)

Lemma hoare_bind {St A B} (P : St -> Prop) (Q : A -> St -> Prop)
    (R : B -> St -> Prop) (m : M St A) (k : A -> M St B) :
  hoare P m Q -> (forall a, hoare (Q a) (k a) R) -> hoare P (x <~ m ;; k x) R.
Proof.
  intros Hm Hk s b s' HP Hrun. bind_inv Hrun as a s1 H1.
  eapply Hk; [eapply Hm|]; eassumption.
Qed.

Lemma hoare_ret {St A} (P : St -> Prop) (a : A) : hoare P (ret a) (fun _ => P).
Proof. intros s b s' HP Hrun. now inv_ret Hrun. Qed.

Lemma hoare_crash {St A} (P : St -> Prop) (Q : A -> St -> Prop) :
  hoare P crash Q.
Proof. intros s b s' HP Hrun. discriminate. Qed.

Lemma wfLinks_lookup heap r n :
  wfLinks heap = true -> heap !! r = Some n -> wfNode heap n = true.
Proof.
  unfold wfLinks. rewrite forallb_forall. intros Hall Hr. apply Hall.
  apply list_elem_of_In, list_elem_of_lookup. eauto.
Qed.

Lemma wfLinks_intro heap :
  (forall r n, heap !! r = Some n -> wfNode heap n = true) ->
  wfLinks heap = true.
Proof.
  intros Hall. unfold wfLinks. rewrite forallb_forall. intros n Hin.
  apply list_elem_of_In, list_elem_of_lookup in Hin as [r Hr]. eauto.
Qed.

Lemma container_set_base b n : container (set_base b n) = container n.
Proof. now destruct n. Qed.

Lemma base_set_base b n : base (set_base b n) = b.
Proof. now destruct n. Qed.

Lemma isCont_insert heap r n n' x :
  heap !! r = Some n -> container n' = container n ->
  isCont (<[r := n']> heap) x = isCont heap x.
Proof.
  intros Hr Hc. unfold isCont. destruct (decide (x = r)) as [->|Hne].
  - rewrite list_lookup_insert_eq by now apply lookup_lt_Some in Hr.
    now rewrite Hr.
  - now rewrite list_lookup_insert_ne.
Qed.

Lemma okParent_insert heap r n n' o :
  heap !! r = Some n -> container n' = container n ->
  okParent (<[r := n']> heap) o = okParent heap o.
Proof. intros Hr Hc. destruct o; cbn; eauto using isCont_insert. Qed.

Lemma wfNode_insert heap r n n' m :
  heap !! r = Some n -> container n' = container n ->
  wfNode (<[r := n']> heap) m = wfNode heap m.
Proof.
  intros Hr Hc. unfold wfNode. now rewrite (okParent_insert heap r n n').
Qed.

(** The assignment of new links [b'] to the object at [r]. *)
Lemma Inv_insert C s r n b' :
  Inv C s -> nodes s !! r = Some n ->
  okParent (nodes s) (parent b') = true ->
  (container n = true \/ firstChild b' = None) ->
  Inv C (with_nodes (fun l => <[r := set_base b' n]> l) s).
Proof.
  intros [Hwf HC] Hr Hpar Hfirst. split; cbn.
  - apply wfLinks_intro. intros x m Hx.
    rewrite (wfNode_insert _ _ n) by (assumption || apply container_set_base).
    destruct (decide (x = r)) as [->|Hne].
    + rewrite list_lookup_insert_eq in Hx by now apply lookup_lt_Some in Hr.
      injection Hx as <-. unfold wfNode.
      rewrite base_set_base, container_set_base, Hpar. cbn.
      destruct Hfirst as [->| ->]; [reflexivity|].
      rewrite bool_decide_eq_true_2 by reflexivity. apply orb_true_r.
    + rewrite list_lookup_insert_ne in Hx by congruence.
      eapply wfLinks_lookup; eassumption.
  - eapply Forall_impl; [exact HC|]. intros x Hx. cbv beta.
    now rewrite (isCont_insert _ _ n) by (assumption || apply container_set_base).
Qed.

Lemma hoare_update_link C r g :
  (forall b, parent (g b) = parent b /\ firstChild (g b) = firstChild b) ->
  hoare (Inv C) (update r g) (fun _ => Inv C).
Proof.
  intros Hg s u s' HI Hrun. apply update_inv in Hrun as (n & Hr & ->).
  pose proof (wfLinks_lookup _ _ _ (proj1 HI) Hr) as Hn.
  unfold wfNode in Hn. apply andb_prop in Hn as [Hp Hf].
  destruct (Hg (base n)) as [Ep Ef].
  apply Inv_insert; [assumption|assumption|now rewrite Ep|].
  rewrite Ef. apply orb_prop in Hf as [Hf|Hf]; [now left|right].
  now apply bool_decide_eq_true in Hf.
Qed.

Lemma hoare_update_firstChild C r v :
  r ∈ C -> hoare (Inv C) (update r (with_firstChild v)) (fun _ => Inv C).
Proof.
  intros HrC s u s' HI Hrun. apply update_inv in Hrun as (n & Hr & ->).
  pose proof (wfLinks_lookup _ _ _ (proj1 HI) Hr) as Hn.
  unfold wfNode in Hn. apply andb_prop in Hn as [Hp _].
  apply Inv_insert; [assumption|assumption|exact Hp|left].
  destruct HI as [_ HC]. rewrite Forall_forall in HC.
  specialize (HC r HrC). unfold isCont in HC. now rewrite Hr in HC.
Qed.

Lemma hoare_update_parent C r o :
  (forall p, o = Some p -> p ∈ C) ->
  hoare (Inv C) (update r (with_parent o)) (fun _ => Inv C).
Proof.
  intros Ho s u s' HI Hrun. apply update_inv in Hrun as (n & Hr & ->).
  pose proof (wfLinks_lookup _ _ _ (proj1 HI) Hr) as Hn.
  unfold wfNode in Hn. apply andb_prop in Hn as [_ Hf].
  apply Inv_insert; [assumption|assumption| |].
  - destruct o as [p|]; [|reflexivity]. cbn.
    destruct HI as [_ HC]. rewrite Forall_forall in HC. apply HC. now apply Ho.
  - cbn. apply orb_prop in Hf as [Hf|Hf]; [now left|right].
    now apply bool_decide_eq_true in Hf.
Qed.

Lemma hoare_field C {A} (f : BaseNode -> A) r :
  hoare (Inv C) (field f r) (fun _ => Inv C).
Proof. intros s a s' HI Hrun. now apply field_inv in Hrun as [-> _]. Qed.

(** Reading a parent pointer finds a container. *)
Lemma hoare_Parent C v :
  hoare (Inv C) (Parent v)
        (fun o => Inv (match o with Some p => p :: C | None => C end)).
Proof.
  intros s o s' HI Hrun. apply field_inv in Hrun as [-> (n & Hv & ->)].
  destruct (parent (base n)) as [p|] eqn:Ep; [|assumption].
  destruct HI as [Hwf HC]. split; [assumption|]. constructor; [|assumption].
  pose proof (wfLinks_lookup _ _ _ Hwf Hv) as Hn. unfold wfNode in Hn.
  apply andb_prop in Hn as [Hp _]. now rewrite Ep in Hp.
Qed.

Lemma Inv_tail p C s : Inv (p :: C) s -> Inv C s.
Proof. intros [Hwf HC]. split; [assumption|]. now inversion HC. Qed.

Ltac link_only := intros ?; split; reflexivity.

Ltac keeps C :=
  unfold PreviousSibling, NextSibling, FirstChild,
         SetParent, SetPreviousSibling, SetNextSibling;
  repeat first
    [ apply hoare_ret
    | apply hoare_crash
    | apply hoare_field
    | apply hoare_update_link; link_only
    | apply hoare_update_firstChild; set_solver
    | apply hoare_update_parent; intros ? [=]; subst; set_solver
    | assumption
    | apply (hoare_bind (Inv C) (fun _ => Inv C)); [|intros ?]
    | match goal with
      | |- hoare _ (match ?x with _ => _ end) _ => destruct x
      end ].

Lemma RemoveChild_keeps C n self v :
  n ∈ C -> hoare (Inv C) (RemoveChild n self v) (fun _ => Inv C).
Proof.
  intros Hn. unfold RemoveChild.
  apply (hoare_bind (Inv C) (fun _ => Inv C)); [apply hoare_field|intros p].
  keeps C.
Qed.

Lemma ensureIsolated_keeps C v :
  hoare (Inv C) (ensureIsolated v) (fun _ => Inv C).
Proof.
  unfold ensureIsolated. eapply hoare_bind; [apply hoare_Parent|].
  intros [p|]; [|apply hoare_ret].
  intros s u s' HI Hrun. apply (Inv_tail p).
  eapply (RemoveChild_keeps (p :: C)); [|exact HI|exact Hrun]. set_solver.
Qed.

Lemma InsertBefore_keeps C n self c insertee :
  n ∈ C -> (forall p, self = Some p -> p ∈ C) ->
  hoare (Inv C) (InsertBefore n self (Some c) insertee) (fun _ => Inv C).
Proof.
  intros Hn Hself. unfold InsertBefore.
  pose proof (ensureIsolated_keeps C insertee).
  apply (hoare_bind (Inv C) (fun _ => Inv C));
    [apply hoare_update_link; link_only|intros _].
  apply (hoare_bind (Inv C) (fun _ => Inv C)); [assumption|intros _].
  apply (hoare_bind (Inv C) (fun _ => Inv C)); [apply hoare_field|intros p].
  destruct (decide (p = self)); [|apply hoare_ret].
  apply (hoare_bind (Inv C) (fun _ => Inv C)); [apply hoare_field|intros prv].
  apply (hoare_bind (Inv C) (fun _ => Inv C)); [keeps C|intros _].
  apply (hoare_bind (Inv C) (fun _ => Inv C));
    [apply hoare_update_link; link_only|intros _].
  apply (hoare_bind (Inv C) (fun _ => Inv C));
    [apply hoare_update_parent; assumption|intros _].
  apply hoare_update_link; link_only.
Qed.

Lemma ReplaceChild_keeps C n self v1 insertee :
  n ∈ C -> (forall p, self = Some p -> p ∈ C) ->
  hoare (Inv C) (ReplaceChild n self v1 insertee) (fun _ => Inv C).
Proof.
  intros Hn Hself. unfold ReplaceChild.
  apply (hoare_bind (Inv C) (fun _ => Inv C)); [|intros _].
  - now apply InsertBefore_keeps.
  - now apply RemoveChild_keeps.
Qed.

(** ** What [ReplaceChild] does to the node it replaces *)

Lemma update_at r g s u s' :
  update r g s = Some (u, s') ->
  forall x n, nodes s !! x = Some n ->
    nodes s' !! x = Some (if decide (x = r) then set_base (g (base n)) n else n).
Proof.
  intros Hrun x n Hx. apply update_inv in Hrun as (m & Hr & ->). cbn.
  destruct (decide (x = r)) as [->|Hne].
  - rewrite Hr in Hx. injection Hx as ->.
    apply list_lookup_insert_eq. now apply lookup_lt_Some in Hr.
  - now rewrite list_lookup_insert_ne by congruence.
Qed.

Lemma hoare_field_any {A} (P : world -> Prop) (f : BaseNode -> A) r :
  hoare P (field f r) (fun _ => P).
Proof. intros s a s' HP Hrun. now apply field_inv in Hrun as [-> _]. Qed.

Lemma hoare_update_parentIs_link v o r g :
  (forall b, parent (g b) = parent b) ->
  hoare (parentIs v o) (update r g) (fun _ => parentIs v o).
Proof.
  intros Hg s u s' (n & Hv & Hp) Hrun.
  pose proof (update_at _ _ _ _ _ Hrun v n Hv) as Hv'.
  eexists. split; [exact Hv'|].
  destruct (decide (v = r)); [|assumption].
  now rewrite base_set_base, Hg.
Qed.

Lemma hoare_update_parentIs_ne v o r g :
  r <> v -> hoare (parentIs v o) (update r g) (fun _ => parentIs v o).
Proof.
  intros Hne s u s' (n & Hv & Hp) Hrun.
  pose proof (update_at _ _ _ _ _ Hrun v n Hv) as Hv'.
  eexists. split; [exact Hv'|].
  destruct (decide (v = r)); [congruence|assumption].
Qed.

Ltac keeps_parent v o :=
  unfold Parent, PreviousSibling, NextSibling, FirstChild,
         SetParent, SetPreviousSibling, SetNextSibling;
  repeat first
    [ apply hoare_ret
    | apply hoare_crash
    | apply hoare_field_any
    | apply hoare_update_parentIs_link; intros ?; reflexivity
    | apply hoare_update_parentIs_ne; assumption
    | assumption
    | apply (hoare_bind (parentIs v o) (fun _ => parentIs v o)); [|intros ?]
    | match goal with
      | |- hoare _ (match ?x with _ => _ end) _ => destruct x
      end ].

(** Removing [x] leaves the parent pointer of another node alone. *)
Lemma RemoveChild_parentIs v o n self x :
  x <> v -> hoare (parentIs v o) (RemoveChild n self x) (fun _ => parentIs v o).
Proof. intros Hne. unfold RemoveChild. keeps_parent v o. Qed.

Lemma InsertBefore_parentIs v o n self c insertee :
  insertee <> v ->
  hoare (parentIs v o) (InsertBefore n self (Some c) insertee)
        (fun _ => parentIs v o).
Proof.
  intros Hne. unfold InsertBefore, ensureIsolated.
  pose proof (fun n self => RemoveChild_parentIs v o n self insertee Hne).
  keeps_parent v o.
Qed.

(** [RemoveChild], when the node's parent is [self], ends by detaching
    the node. *)
Lemma RemoveChild_detaches n self v s u s' :
  parentIs v self s ->
  RemoveChild n self v s = Some (u, s') -> detached v s'.
Proof.
  intros (nv & Hv & Hp) Hrun. unfold RemoveChild in Hrun.
  bind_inv Hrun as p s1 H1. apply field_inv in H1 as [-> (n1 & Hn1 & ->)].
  rewrite Hv in Hn1. injection Hn1 as <-.
  destruct (decide _) as [_|Hne]; [|congruence].
  bind_inv Hrun as u1 s1 H1. bind_inv Hrun as prv s2 H2.
  bind_inv Hrun as nxt s3 H3. bind_inv Hrun as u4 s4 H4.
  bind_inv Hrun as u5 s5 H5. bind_inv Hrun as u6 s6 H6.
  bind_inv Hrun as u7 s7 H7.
  unfold SetParent, SetPreviousSibling, SetNextSibling in *.
  apply update_inv in H6 as (n6 & Hn6 & ->).
  pose proof (update_at _ _ _ _ _ H7 v _
                (list_lookup_insert_eq _ _ _ (lookup_lt_Some _ _ _ Hn6))) as Hv7.
  pose proof (update_at _ _ _ _ _ Hrun v _ Hv7) as Hv8.
  destruct (decide (v = v)); [|congruence].
  eexists. split; [exact Hv8|]. rewrite !base_set_base. now cbn.
Qed.

(** [ReplaceChild] keeps the links well formed and detaches the node it
    replaces, when called as [Transform] calls it: with the node's parent
    as [self] and a fresh object as the node to insert. *)
Lemma ReplaceChild_detaches n v insertee s u s' o :
  insertee <> v -> parentIs v o s ->
  ReplaceChild n o v insertee s = Some (u, s') -> detached v s'.
Proof.
  intros Hne Hp Hrun. unfold ReplaceChild in Hrun.
  bind_inv Hrun as u1 s1 H1.
  eapply RemoveChild_detaches; [|exact Hrun].
  eapply InsertBefore_parentIs; eassumption.
Qed.

(** Allocating a copy of a fenced block keeps the links well formed. *)
Lemma isCont_app heap x r : isCont heap r = true -> isCont (heap ++ [x]) r = true.
Proof.
  unfold isCont. destruct (heap !! r) as [n|] eqn:E; [|discriminate].
  now rewrite (lookup_app_l_Some _ _ _ _ E).
Qed.

Lemma wfNode_app heap x n : wfNode heap n = true -> wfNode (heap ++ [x]) n = true.
Proof.
  unfold wfNode. intros Hn. apply andb_prop in Hn as [Hp ->].
  rewrite andb_true_r. destruct (parent (base n)); [|reflexivity].
  now apply isCont_app.
Qed.

Lemma Inv_alloc C s fb f :
  Inv C s -> nodes s !! fb = Some (Fenced f) ->
  Inv C (with_nodes (fun l => l ++ [pfBlock f]) s).
Proof.
  intros [Hwf HC] Hfb. split; cbn.
  - apply wfLinks_intro. intros r n Hr. apply wfNode_app.
    apply lookup_app_Some in Hr as [Hr|[_ Hr]].
    + eapply wfLinks_lookup; eassumption.
    + destruct (r - length (nodes s)) as [|k]; [|discriminate Hr].
      cbn in Hr. injection Hr as <-.
      exact (wfLinks_lookup _ _ _ Hwf Hfb).
  - eapply Forall_impl; [exact HC|]. intros x Hx. cbv beta.
    now apply isCont_app.
Qed.

Lemma replaceOne_keeps doc fb :
  hoare (Inv [doc]) (replaceOne doc fb) (fun _ => Inv [doc]).
Proof.
  intros s u s' HI Hrun.
  apply replaceOne_inv in Hrun as (f & Hfb & [[_ ->]|[_ Hrun]]); [assumption|].
  pose proof (Inv_alloc _ _ _ _ HI Hfb) as HI1.
  pose proof (hoare_Parent [doc] fb s (parent (BaseBlock f)) s HI) as HP.
  unfold Parent, field, bind, load, ret in HP. rewrite Hfb in HP.
  specialize (HP eq_refl).
  destruct (parent (BaseBlock f)) as [p|] eqn:Ep.
  - apply (Inv_tail p).
    eapply (ReplaceChild_keeps (p :: [doc])); [| | |exact Hrun].
    + set_solver.
    + intros q [= <-]. set_solver.
    + destruct HP as [_ HC]. destruct HI1 as [Hwf1 HC1]. split; [assumption|].
      inversion HC as [|? ? Hpc _]. constructor; [|assumption].
      now apply isCont_app.
  - eapply (ReplaceChild_keeps [doc]); [| |exact HI1|exact Hrun].
    + set_solver.
    + intros q [=].
Qed.

(** ** Replacing a detached node

    The second time a block goes through the loop it is detached; the
    call is [doc.ReplaceChild(nil, fb, copy)].  The assignments are
    followed one by one on the three objects they touch. *)

Lemma update_at_eq r g s u s' n :
  update r g s = Some (u, s') -> nodes s !! r = Some n ->
  nodes s' !! r = Some (set_base (g (base n)) n).
Proof.
  intros Hrun Hr. rewrite (update_at _ _ _ _ _ Hrun r n Hr).
  now destruct (decide (r = r)).
Qed.

Lemma update_at_ne r g s u s' x n :
  update r g s = Some (u, s') -> x <> r -> nodes s !! x = Some n ->
  nodes s' !! x = Some n.
Proof.
  intros Hrun Hne Hx. rewrite (update_at _ _ _ _ _ Hrun x n Hx).
  now destruct (decide (x = r)).
Qed.

Ltac track H Hx :=
  first [ apply (update_at_eq _ _ _ _ _ _ H) in Hx
        | eapply (update_at_ne _ _ _ _ _ _ _ H) in Hx; [|congruence] ];
  cbn in Hx.

Ltac upd H HD HF HY :=
  track H HD; track H HF; track H HY; clear H.

Ltac read H Hx :=
  let n := fresh "n" in
  let Hn := fresh "Hn" in
  apply field_inv in H as [-> (n & Hn & ->)];
  rewrite Hx in Hn; injection Hn as <-.

Lemma ReplaceChild_of_detached doc F Y s u s' bd fF fY :
  doc <> F -> Y <> doc -> Y <> F ->
  nodes s !! doc = Some (Document bd) ->
  nodes s !! F = Some (Fenced fF) ->
  parent (BaseBlock fF) = None -> prev (BaseBlock fF) = None ->
  next (BaseBlock fF) = None ->
  nodes s !! Y = Some (pfBlock fY) -> parent (BaseBlock fY) = None ->
  ReplaceChild doc None F Y s = Some (u, s') ->
  exists bd' fY',
    nodes s' !! doc = Some (Document bd') /\ firstChild bd' = Some Y
    /\ nodes s' !! Y = Some (pfBlock fY') /\ next (BaseBlock fY') = None.
Proof.
  intros HdF HYd HYF HD HF HFp HFv HFn HY HYp Hrun.
  unfold ReplaceChild, InsertBefore, RemoveChild, ensureIsolated,
    Parent, PreviousSibling, NextSibling, SetParent, SetPreviousSibling,
    SetNextSibling in Hrun.
  bind_inv Hrun as u0 s0 H0.
  (* InsertBefore *)
  bind_inv H0 as u1 s1 H1. upd H1 HD HF HY.
  bind_inv H0 as u2 s2 H2. bind_inv H2 as p s3 H3.
  read H3 HY. cbn in H2. rewrite HYp in H2. inv_ret H2.
  bind_inv H0 as p s3 H3. read H3 HF. cbn in H0. rewrite HFp in H0.
  destruct (decide (None = None)) as [_|]; [|congruence].
  bind_inv H0 as prv s3 H3. read H3 HF. cbn in H0. rewrite HFv in H0.
  bind_inv H0 as u4 s4 H4. bind_inv H4 as u5 s5 H5. upd H5 HD HF HY.
  upd H4 HD HF HY.
  bind_inv H0 as u6 s6 H6. upd H6 HD HF HY.
  bind_inv H0 as u7 s7 H7. upd H7 HD HF HY.
  upd H0 HD HF HY.
  (* RemoveChild *)
  bind_inv Hrun as p s3 H3. read H3 HF. cbn in Hrun. rewrite HFp in Hrun.
  destruct (decide (None = None)) as [_|]; [|congruence].
  bind_inv Hrun as u8 s8 H8. upd H8 HD HF HY.
  bind_inv Hrun as prv s3 H3. read H3 HF. cbn in Hrun.
  bind_inv Hrun as nxt s3 H3. read H3 HF. cbn in Hrun. rewrite HFn in Hrun.
  bind_inv Hrun as u9 s9 H9. upd H9 HD HF HY.
  bind_inv Hrun as u10 s10 H10. upd H10 HD HF HY.
  bind_inv Hrun as u11 s11 H11. upd H11 HD HF HY.
  bind_inv Hrun as u12 s12 H12. upd H12 HD HF HY.
  upd Hrun HD HF HY.
  do 2 eexists. split; [exact HD|]. split; [reflexivity|].
  split; [exact HY|reflexivity].
Qed.

(** ** A block that goes through the loop twice *)

Lemma erase_Document_inv n b : erase n = erase (Document b) -> exists b', n = Document b'.
Proof. destruct n; cbn; intros [=]; eauto. Qed.

Lemma extends_Fenced s s' x f :
  extends s s' -> nodes s !! x = Some (Fenced f) ->
  exists f', nodes s' !! x = Some (Fenced f')
             /\ Info f' = Info f /\ lines f' = lines f.
Proof.
  intros (_ & _ & Hp) Hx. destruct (Hp _ _ Hx) as (n' & Hn' & E).
  apply erase_Fenced_inv in E as (f' & -> & ? & ?). eauto.
Qed.

Lemma extends_Document s s' doc b :
  extends s s' -> nodes s !! doc = Some (Document b) ->
  exists b', nodes s' !! doc = Some (Document b').
Proof.
  intros (_ & _ & Hp) Hx. destruct (Hp _ _ Hx) as (n' & Hn' & E).
  apply erase_Document_inv in E as (b' & ->). eauto.
Qed.

Lemma extends_lookup_hit s s' f f' :
  extends s s' -> Info f' = Info f ->
  PipeFuncs s' !! Language f' (source s') = PipeFuncs s !! Language f (source s).
Proof.
  intros ((Es & Ef & _) & _) HI. now rewrite Es, Ef, (Language_Info f' f _ HI).
Qed.

Lemma twice_hit doc x s bd f u1 s1 u2 s2 :
  Inv [doc] s ->
  nodes s !! doc = Some (Document bd) ->
  nodes s !! x = Some (Fenced f) ->
  is_Some (PipeFuncs s !! Language f (source s)) ->
  replaceOne doc x s = Some (u1, s1) ->
  replaceOne doc x s1 = Some (u2, s2) ->
  soleTagged doc s2.
Proof.
  intros HI HD Hx Hhit H1 H2.
  pose proof (replaceOne_keeps doc x s u1 s1 HI H1) as HI1.
  pose proof (replaceOne_keeps doc x s1 u2 s2 HI1 H2) as HI2.
  pose proof (replaceOne_extends _ _ _ _ _ H1) as Hext.
  (* first time: the block is detached *)
  apply replaceOne_inv in H1 as (f0 & Hx0 & [[Hmiss _]|[_ H1]]).
  { rewrite Hx in Hx0. injection Hx0 as <-. rewrite Hmiss in Hhit.
    now destruct Hhit. }
  rewrite Hx in Hx0. injection Hx0 as <-.
  assert (Hlt : x < length (nodes s)) by now apply lookup_lt_Some in Hx.
  assert (Hdet : detached x s1).
  { eapply ReplaceChild_detaches; [| |exact H1]; [lia|].
    exists (Fenced f). split; [|reflexivity]. cbn. now apply lookup_app_l_Some. }
  destruct Hdet as (n1 & Hx1 & Hp1 & Hv1 & Hn1).
  destruct (extends_Fenced _ _ _ _ Hext Hx) as (f1 & Hx1' & HI1' & _).
  rewrite Hx1 in Hx1'. injection Hx1' as ->. cbn in Hp1, Hv1, Hn1.
  destruct (extends_Document _ _ _ _ Hext HD) as (bd1 & HD1).
  (* second time *)
  apply replaceOne_inv in H2 as (f2 & Hx2 & [[Hmiss _]|[_ H2]]).
  { rewrite Hx1 in Hx2. injection Hx2 as <-.
    rewrite (extends_lookup_hit _ _ f f1 Hext HI1') in Hmiss.
    rewrite Hmiss in Hhit. now destruct Hhit. }
  rewrite Hx1 in Hx2. injection Hx2 as <-. rewrite Hp1 in H2.
  assert (Hlt1 : x < length (nodes s1)) by now apply lookup_lt_Some in Hx1.
  assert (Hltd : doc < length (nodes s1)) by now apply lookup_lt_Some in HD1.
  assert (Hfin : exists bd' fY',
            nodes s2 !! doc = Some (Document bd') /\ firstChild bd' = Some (length (nodes s1))
            /\ nodes s2 !! length (nodes s1) = Some (pfBlock fY')
            /\ next (BaseBlock fY') = None).
  { eapply (ReplaceChild_of_detached doc x (length (nodes s1)) _ u2 s2 bd1 f1 f1);
      [ | | | | | | | | | |exact H2]; try assumption; try lia; cbn.
    - intros ->. rewrite HD1 in Hx1. discriminate.
    - now apply lookup_app_l_Some.
    - now apply lookup_app_l_Some.
    - now apply list_lookup_middle. }
  destruct Hfin as (bd2 & fy & HD2 & Hfirst & HY2 & Hnext).
  exists bd2, (length (nodes s1)), fy. repeat split; try assumption.
  pose proof (wfLinks_lookup _ _ _ (proj1 HI2) HY2) as Hwf.
  unfold wfNode in Hwf. apply andb_prop in Hwf as [_ Hwf]. cbn in Hwf.
  now apply bool_decide_eq_true in Hwf.
Qed.

Lemma twice_miss doc x s f :
  nodes s !! x = Some (Fenced f) ->
  PipeFuncs s !! Language f (source s) = None ->
  replaceAll doc (twice x) s = Some (tt, s).
Proof.
  intros Hx Hmiss. cbn [twice replaceAll]. unfold bind.
  now rewrite !(replaceOne_miss doc x s f Hx Hmiss).
Qed.

(** The loop over blocks that each appear twice in a row: either none
    has a registered tag and nothing changes, or the document ends with
    a tagged block as only child. *)
Lemma replaceAll_twice doc L :
  forall s bd u s',
    Inv [doc] s ->
    nodes s !! doc = Some (Document bd) ->
    (forall x, x ∈ L -> exists f, nodes s !! x = Some (Fenced f)) ->
    replaceAll doc (flat_map twice L) s = Some (u, s') ->
    (s' = s /\ unmatchedAt s (flat_map twice L) = true) \/ soleTagged doc s'.
Proof.
  induction L as [|x L IH]; intros s bd u s' HI HD HL Hrun.
  { cbn in Hrun. inv_ret Hrun. now left. }
  cbn [flat_map twice app replaceAll] in Hrun.
  bind_inv Hrun as u1 s1 H1. bind_inv Hrun as u2 s2 H2.
  destruct (HL x) as [f Hx]; [left|].
  pose proof (replaceOne_keeps doc x s u1 s1 HI H1) as HI1.
  pose proof (replaceOne_keeps doc x s1 u2 s2 HI1 H2) as HI2.
  assert (Hext : extends s s2).
  { etransitivity; eapply replaceOne_extends; eassumption. }
  destruct (extends_Document _ _ _ _ Hext HD) as (bd2 & HD2).
  assert (HL2 : forall y, y ∈ L -> exists g, nodes s2 !! y = Some (Fenced g)).
  { intros y Hy. destruct (HL y) as [g Hg]; [now right|].
    destruct (extends_Fenced _ _ _ _ Hext Hg) as (g' & ? & _). eauto. }
  destruct (IH s2 bd2 u s' HI2 HD2 HL2 Hrun) as [[-> Hun]|Hsole]; [|now right].
  destruct (PipeFuncs s !! Language f (source s)) as [pf|] eqn:E.
  - right. eapply twice_hit; eauto.
  - left.
    rewrite (replaceOne_miss doc x s f Hx E) in H1. injection H1 as _ <-.
    rewrite (replaceOne_miss doc x s f Hx E) in H2. injection H2 as _ <-.
    split; [reflexivity|]. cbn [flat_map twice app unmatchedAt forallb].
    rewrite Hx. unfold registered. rewrite E. exact Hun.
Qed.

(** ** [Transform] twice *)

Lemma sizeF_pos f : 1 <= sizeF f.
Proof. destruct f; cbn; lia. Qed.

Lemma shape_None heap f : shape heap None f = true -> f = Fnil.
Proof. now destruct f. Qed.

Lemma flat_map_twice_app (L1 L2 : list ref) :
  flat_map twice (L1 ++ L2) = flat_map twice L1 ++ flat_map twice L2.
Proof. induction L1 as [|x L1 IH]; cbn; [reflexivity|]. now rewrite IH. Qed.

(** On well-formed links a fenced block has no children, so the walk
    appends it twice in a row. *)
Lemma fencedEvents_twice heap :
  wfLinks heap = true ->
  forall f c, shape heap c f = true ->
    exists L, fencedEvents heap f = flat_map twice L
              /\ forall x, x ∈ L -> exists fb, heap !! x = Some (Fenced fb).
Proof.
  intros Hwf. induction f as [|r ch IHch sib IHsib]; intros c Hsh.
  { exists []. split; [reflexivity|]. intros x Hx. now apply elem_of_nil in Hx. }
  cbn [shape] in Hsh. destruct c as [r'|]; [|discriminate].
  apply andb_prop in Hsh as [_ Hsh].
  destruct (heap !! r) as [n|] eqn:En; [|discriminate].
  apply andb_prop in Hsh as [Hch Hsib].
  destruct (IHsib _ Hsib) as (Ls & Es & HLs).
  cbn [fencedEvents]. unfold mark. rewrite En.
  destruct n as [b|fb|fb|k b];
    try (destruct (IHch _ Hch) as (Lc & Ec & HLc);
         exists (Lc ++ Ls); rewrite flat_map_twice_app, Ec, Es;
         split; [reflexivity|];
         intros x Hx; apply elem_of_app in Hx as [Hx|Hx]; eauto).
  pose proof (wfLinks_lookup _ _ _ Hwf En) as Hn. unfold wfNode in Hn.
  apply andb_prop in Hn as [_ Hn]. cbn in Hn, Hch.
  apply bool_decide_eq_true in Hn. rewrite Hn in Hch.
  apply shape_None in Hch as ->. cbn [fencedEvents].
  exists (r :: Ls). rewrite Es. split; [reflexivity|].
  intros x Hx. apply elem_of_cons in Hx as [->|Hx]; eauto.
Qed.

(** What the defect of the loop does in general: on a well-formed tree
    with at least one fenced block of a registered tag, [Transform] leaves
    the document with a tagged block as first child that has no next
    sibling, whatever else the tree held. *)
Lemma Transform_hit_leaves_sole_tagged
    (fuel : nat) (doc : ref) (s s' : world) (b : BaseNode) (f : forest)
    (u : unit) (x : ref) (fb : FencedCodeBlock) :
  nodes s !! doc = Some (Document b) ->
  shape (nodes s) (firstChild b) f = true ->
  sizeF f < fuel ->
  wfLinks (nodes s) = true ->
  x ∈ fencedEvents (nodes s) f ->
  nodes s !! x = Some (Fenced fb) ->
  is_Some (PipeFuncs s !! Language fb (source s)) ->
  Transform fuel doc s = Some (u, s') ->
  soleTagged doc s'.
Proof.
  intros Hdoc Hsh Hfuel Hwf Hx Hfb Hhit Hrun.
  apply Transform_inv in Hrun as (fbs & Hc & Hrun).
  rewrite (collectFenced_shape fuel doc s b f Hdoc Hsh Hfuel) in Hc.
  injection Hc as <-.
  destruct (fencedEvents_twice _ Hwf f _ Hsh) as (L & EL & HL).
  rewrite EL in Hrun, Hx.
  assert (HI : Inv [doc] s).
  { split; [assumption|]. constructor; [|constructor].
    unfold isCont. now rewrite Hdoc. }
  destruct (replaceAll_twice doc L s b u s' HI Hdoc HL Hrun)
    as [[_ Hun]|Hsole]; [|assumption].
  rewrite (unmatchedAt_miss _ _ _ _ Hun Hx Hfb) in Hhit. now destruct Hhit.
Qed.

(** C8: let [Transform] run on a well-formed tree and return.  Run on
    what it left, it returns again and leaves everything as it is: its
    walk collects fenced blocks only, never a tagged block, and the loop
    replaces nothing. *)
Theorem C8_Transform_is_idempotent
    (fuel : nat) (doc : ref) (s s' : world) (b : BaseNode) (f : forest)
    (u : unit) :
  nodes s !! doc = Some (Document b) ->
  shape (nodes s) (firstChild b) f = true ->
  sizeF f < fuel ->
  wfLinks (nodes s) = true ->
  Transform fuel doc s = Some (u, s') ->
  exists fbs,
    collectFenced fuel doc s' = Some ((None, fbs), s')
    /\ (forall x, x ∈ fbs ->
          exists fb, nodes s' !! x = Some (Fenced fb)
                     /\ Kind (Fenced fb) <> pfKind)
    /\ Transform fuel doc s' = Some (tt, s').
Proof.
  intros Hdoc Hsh Hfuel Hwf Hrun.
  apply Transform_inv in Hrun as (fbs & Hc & Hrun).
  rewrite (collectFenced_shape fuel doc s b f Hdoc Hsh Hfuel) in Hc.
  injection Hc as <-.
  destruct (fencedEvents_twice _ Hwf f _ Hsh) as (L & EL & HL).
  rewrite EL in Hrun.
  assert (HI : Inv [doc] s).
  { split; [assumption|]. constructor; [|constructor].
    unfold isCont. now rewrite Hdoc. }
  destruct (replaceAll_twice doc L s b u s' HI Hdoc HL Hrun)
    as [[-> Hun]|(bd & Y & fy & HD & Hfirst & HY & HYc & HYn)].
  - rewrite <- EL in Hun.
    exact (Transform_on_tagged_tree fuel doc s b f Hdoc Hsh Hfuel Hun).
  - destruct f as [|r ch sib].
    + cbn in EL. destruct L; [|discriminate]. cbn in Hrun. inv_ret Hrun.
      now apply (Transform_on_tagged_tree fuel doc s b Fnil).
    + apply (Transform_on_tagged_tree fuel doc s' bd (Fcons Y Fnil Fnil) HD).
      * rewrite Hfirst. cbn [shape]. rewrite HY. cbn [base].
        rewrite HYc, HYn. now rewrite bool_decide_eq_true_2.
      * pose proof (sizeF_pos ch). pose proof (sizeF_pos sib).
        cbn [sizeF] in *. lia.
      * cbn [fencedEvents]. unfold mark. now rewrite HY.
Qed.

(** * Further properties of the two passes *)

(** ** The walk of [Transform] *)

(** X1: the walk of [Transform] cannot fail: whenever it returns, the error
    is nil (the [log.Fatalf] branch is never taken), the world is as it
    was, and every collected reference is a fenced block of the store,
    never another node. *)
Theorem Transform_walk_never_fails
    (fuel : nat) (doc : ref) (s s' : world) (err : option error)
    (fencedBlocks : list ref) :
  collectFenced fuel doc s = Some ((err, fencedBlocks), s') ->
  err = None /\ s' = s
  /\ forall x, x ∈ fencedBlocks -> exists fb, nodes s !! x = Some (Fenced fb).
Proof.
  intros Hrun.
  destruct (collectFenced_inv _ _ _ _ _ Hrun) as [-> Herr]. cbn in Herr.
  split; [assumption|]. split; [reflexivity|].
  unfold collectFenced, Walk in Hrun.
  destruct (bind _ _ _) as [[e [fbs s1]]|] eqn:E; [|discriminate].
  injection Hrun as -> -> ->. bind_inv E as r0 st Hwalk. inv_ret E.
  destruct (walk_rel (St := list ref * world) (fun st => nodes (snd st)) collect
              (fun st st' =>
                 snd st' = snd st
                 /\ forall x, x ∈ fst st' ->
                      x ∈ fst st \/ exists fb, nodes (snd st) !! x = Some (Fenced fb)))
    with (fuel := fuel) as [Hn _].
  - intros x. split; [reflexivity|]. intros y Hy. now left.
  - intros x y z [E1 H1] [E2 H2]. split; [congruence|].
    intros a Ha. destruct (H2 a Ha) as [Hy|Hy]; [now apply H1|].
    right. now rewrite <- E1.
  - intros n e [acc s0] r1 x' Hc. rewrite collect_run in Hc.
    destruct (nodes s0 !! n) as [nd|] eqn:En; [|discriminate].
    injection Hc as _ <-. split; [reflexivity|]. cbn [fst snd].
    intros x Hx. apply elem_of_app in Hx as [Hx|Hx]; [now left|right].
    eapply mark_Fenced; eassumption.
  - destruct (Hn _ _ _ _ Hwalk) as [_ Hall]. cbn [fst snd] in Hall.
    intros x Hx. destruct (Hall x Hx) as [Hnil|Hf]; [|assumption].
    now apply elem_of_nil in Hnil.
Qed.

Lemma fencedEvents_fencedOf heap :
  wfLinks heap = true ->
  forall f c, shape heap c f = true ->
    fencedEvents heap f = flat_map twice (fencedOf heap f).
Proof.
  intros Hwf. induction f as [|r ch IHch sib IHsib]; intros c Hsh;
    [reflexivity|].
  cbn [shape] in Hsh. destruct c as [r'|]; [|discriminate].
  apply andb_prop in Hsh as [_ Hsh].
  destruct (heap !! r) as [n|] eqn:En; [|discriminate].
  apply andb_prop in Hsh as [Hch Hsib].
  cbn [fencedEvents fencedOf]. rewrite (IHsib _ Hsib).
  unfold mark. rewrite En.
  destruct n as [b|fb|fb|k b];
    try (rewrite (IHch _ Hch); cbn [app]; now rewrite flat_map_twice_app).
  pose proof (wfLinks_lookup _ _ _ Hwf En) as Hn. unfold wfNode in Hn.
  apply andb_prop in Hn as [_ Hn]. cbn in Hn, Hch.
  apply bool_decide_eq_true in Hn. rewrite Hn in Hch.
  apply shape_None in Hch as ->. reflexivity.
Qed.

(** X2: on a well-formed tree the walk of [Transform] returns every fenced
    block of the document twice in a row, once for entering and once for
    leaving, in document order: the callback does not look at [enter]. *)
Theorem Transform_walk_collects_each_block_twice
    (fuel : nat) (doc : ref) (s : world) (b : BaseNode) (f : forest) :
  nodes s !! doc = Some (Document b) ->
  shape (nodes s) (firstChild b) f = true ->
  sizeF f < fuel ->
  wfLinks (nodes s) = true ->
  collectFenced fuel doc s
  = Some ((None, flat_map twice (fencedOf (nodes s) f)), s).
Proof.
  intros Hdoc Hsh Hfuel Hwf.
  rewrite (collectFenced_shape fuel doc s b f Hdoc Hsh Hfuel).
  now rewrite (fencedEvents_fencedOf _ Hwf f _ Hsh).
Qed.

(** ** The render hook *)

(** X9: the type assertion of the hook is unchecked: on a node that is not a
    tagged block the hook does not return.  The host's dispatch never
    gets there: with the hook registered next to the host's functions,
    the dispatch returns for every node of the store. *)
Theorem renderFenced_assertion_is_safe_under_dispatch
    (host : NodeKind -> option HostRenderer) (src : bytes) (n : ref)
    (entering : bool) (s : world) (nd : node) :
  nodes s !! n = Some nd ->
  (Kind nd <> pfKind -> renderFenced src n entering s = None)
  /\ is_Some (dispatch (RegisterFuncs (hostRegistry host)) src n entering s).
Proof.
  intros Hn. split.
  - intros Hk. unfold renderFenced, bind, load. rewrite Hn.
    destruct nd; try reflexivity. now destruct Hk.
  - destruct (decide (Kind nd = pfKind)) as [Hk|Hk].
    + destruct nd as [b|fb0|fb|k b]; try discriminate.
      rewrite (dispatch_pfBlock _ src n s fb entering Hn).
      destruct (PipeFuncs s !! Language fb src) as [f|] eqn:E.
      * destruct entering.
        -- rewrite (renderFenced_hit_enter src n s fb f Hn E).
           destruct (f (RawContent fb src)); eauto.
        -- rewrite (renderFenced_hit_leave src n s fb f Hn E). eauto.
      * rewrite (renderFenced_miss src n s fb entering Hn E). eauto.
    + unfold dispatch, RegisterFuncs, Register, hostRegistry, bind, load.
      rewrite Hn. destruct (decide (Kind nd = pfKind)); [contradiction|].
      destruct (host (Kind nd)) as [f|]; cbn [fmap option_fmap option_map];
        [|unfold ret; eauto].
      unfold hostFunc, bind, load. rewrite Hn.
      destruct (f src nd entering). cbn. eauto.
Qed.

(** ** The render pass over tagged blocks *)

(** The host's walk of one tagged block whose function succeeds. *)
Lemma walk_tagged_success (r : registry) src fuel n s lang arg out :
  piped s src n = Some (lang, arg, inl out) ->
  walkHelper nodes (dispatch (RegisterFuncs r) src) (S fuel) n s
  = Some ((WalkContinue, None), written out (called lang arg s)).
Proof.
  unfold piped. intros Hp.
  destruct (nodes s !! n) as [[| |fb|]|] eqn:Hn; try discriminate.
  destruct (PipeFuncs s !! Language fb src) as [f|] eqn:Hf; [|discriminate].
  injection Hp as <- <- Hout.
  rewrite walkHelper_S. unfold bind at 1.
  rewrite (dispatch_pfBlock r src n s fb true Hn).
  rewrite (renderFenced_hit_enter src n s fb f Hn Hf), Hout.
  cbn [stops descends fst]. unfold bind at 1, ret at 1. cbn [stops].
  unfold bind at 1.
  rewrite (dispatch_pfBlock r src n _ fb false) by exact Hn.
  rewrite (renderFenced_hit_leave src n _ fb f) by assumption.
  reflexivity.
Qed.

(** The host's walk of one tagged block whose function fails. *)
Lemma walk_tagged_failure (r : registry) src fuel n s lang arg cause :
  piped s src n = Some (lang, arg, inr cause) ->
  walkHelper nodes (dispatch (RegisterFuncs r) src) (S fuel) n s
  = Some ((WalkStop, Some (Errorf lang cause)), called lang arg s).
Proof.
  unfold piped. intros Hp.
  destruct (nodes s !! n) as [[| |fb|]|] eqn:Hn; try discriminate.
  destruct (PipeFuncs s !! Language fb src) as [f|] eqn:Hf; [|discriminate].
  injection Hp as <- <- Hout.
  rewrite walkHelper_S. unfold bind at 1.
  rewrite (dispatch_pfBlock r src n s fb true Hn).
  rewrite (renderFenced_hit_enter src n s fb f Hn Hf), Hout.
  reflexivity.
Qed.

Lemma piped_ext s s' src n :
  nodes s' = nodes s -> PipeFuncs s' = PipeFuncs s ->
  piped s' src n = piped s src n.
Proof. unfold piped. now intros -> ->. Qed.

Lemma outputsOf_ext s s' src L :
  nodes s' = nodes s -> PipeFuncs s' = PipeFuncs s ->
  outputsOf s' src L = outputsOf s src L.
Proof.
  intros Hn Hp. induction L as [|r L IH]; [reflexivity|].
  cbn [outputsOf]. now rewrite IH, (piped_ext s s' src r Hn Hp).
Qed.

Lemma after_nil s : after [] s = s.
Proof.
  destruct s. unfold after. cbn. now rewrite append_nil_r, app_nil_r.
Qed.

Lemma after_cons lang arg out tr s :
  after tr (written out (called lang arg s)) = after ((lang, arg, out) :: tr) s.
Proof.
  unfold after, written, called. cbn.
  now rewrite append_assoc, <- app_assoc.
Qed.

(** X10: the sibling loop of the render pass over tagged blocks whose
    functions all succeed calls each function once, in the order of the
    chain, and appends the outputs to the sink in that order; the tree,
    the source and the registry stay as they are. *)
Theorem Render_tagged_chain_in_order
    (r : registry) (src : bytes) (L : list ref) :
  forall (fuel : nat) (c : option ref) (s : world)
         (tr : list (string * bytes * bytes)),
    follow (nodes s) c L = Some None ->
    length L < fuel ->
    outputsOf s src L = Some tr ->
    walkChildren nodes (dispatch (RegisterFuncs r) src) fuel c s
    = Some ((WalkContinue, None), after tr s).
Proof.
  induction L as [|n L IH]; intros fuel c s tr Hf Hfuel Hout.
  - cbn in Hf, Hout. injection Hf as ->. injection Hout as <-.
    destruct fuel; [lia|]. rewrite walkChildren_S, after_nil. reflexivity.
  - cbn [follow outputsOf length] in *.
    destruct c as [n'|]; [|discriminate].
    destruct (nodes s !! n) as [nd|] eqn:Hn; [|discriminate].
    destruct (decide (n' = n)) as [->|]; [|discriminate].
    destruct (piped s src n) as [[[lang arg] [out|e]]|] eqn:Hp; try discriminate.
    destruct (outputsOf s src L) as [tr'|] eqn:Htr; [|discriminate].
    injection Hout as <-.
    destruct fuel as [|[|fuel]]; [lia|lia|].
    rewrite walkChildren_S. unfold bind at 1.
    rewrite (walk_tagged_success r src fuel n s lang arg out Hp).
    cbn [stops]. unfold bind at 1, link at 1.
    change (nodes (written out (called lang arg s))) with (nodes s).
    rewrite Hn. rewrite <- after_cons.
    apply IH; [exact Hf|lia|].
    now rewrite (outputsOf_ext s (written out (called lang arg s)) src L
                   eq_refl eq_refl).
Qed.

(** X11: when the function of a tagged block fails after the blocks before it
    succeeded, the sibling loop returns [WalkStop] with the error of that
    block; the outputs of the earlier blocks stay in the sink, the failing
    block adds a call and no byte, and no later sibling is visited. *)
Theorem Render_failure_keeps_earlier_output
    (r : registry) (src : bytes) (L : list ref) :
  forall (fuel : nat) (c : option ref) (s : world) (n : ref)
         (tr : list (string * bytes * bytes))
         (lang : string) (arg : bytes) (cause : error),
    is_Some (follow (nodes s) c (L ++ [n])) ->
    length L + 1 < fuel ->
    outputsOf s src L = Some tr ->
    piped s src n = Some (lang, arg, inr cause) ->
    walkChildren nodes (dispatch (RegisterFuncs r) src) fuel c s
    = Some ((WalkStop, Some (Errorf lang cause)), called lang arg (after tr s)).
Proof.
  induction L as [|m L IH]; intros fuel c s n tr lang arg cause Hf Hfuel Hout Hp.
  - cbn in Hout. injection Hout as <-. rewrite after_nil.
    cbn [app follow] in Hf. destruct c as [n'|]; [|now destruct Hf].
    destruct (nodes s !! n) as [nd|]; [|now destruct Hf].
    destruct (decide (n' = n)) as [->|]; [|now destruct Hf].
    destruct fuel as [|[|fuel]]; [cbn in Hfuel; lia|cbn in Hfuel; lia|].
    rewrite walkChildren_S. unfold bind at 1.
    rewrite (walk_tagged_failure r src fuel n s lang arg cause Hp).
    reflexivity.
  - cbn [app follow outputsOf length] in *.
    destruct c as [m'|]; [|now destruct Hf].
    destruct (nodes s !! m) as [nd|] eqn:Hn; [|now destruct Hf].
    destruct (decide (m' = m)) as [->|]; [|now destruct Hf].
    destruct (piped s src m) as [[[lang0 arg0] [out|e]]|] eqn:Hp0; try discriminate.
    destruct (outputsOf s src L) as [tr'|] eqn:Htr; [|discriminate].
    injection Hout as <-.
    destruct fuel as [|[|fuel]]; [lia|lia|].
    rewrite walkChildren_S. unfold bind at 1.
    rewrite (walk_tagged_success r src fuel m s lang0 arg0 out Hp0).
    cbn [stops]. unfold bind at 1, link at 1.
    change (nodes (written out (called lang0 arg0 s))) with (nodes s).
    rewrite Hn. rewrite <- after_cons.
    apply (IH _ _ _ n); [exact Hf|lia| |].
    + now rewrite (outputsOf_ext s (written out (called lang0 arg0 s)) src L
                     eq_refl eq_refl).
    + now rewrite (piped_ext s (written out (called lang0 arg0 s)) src n
                     eq_refl eq_refl).
Qed.

(** X12: a render pass with the hook registered next to the host's functions
    leaves the tree as it is and only appends: the sink and the record of
    calls each keep what they held. *)
Theorem Render_only_appends
    (host : NodeKind -> option HostRenderer) (fuel : nat) (doc : ref)
    (s s' : world) (e : option error) :
  Render (RegisterFuncs (hostRegistry host)) fuel doc s = Some (e, s') ->
  nodes s' = nodes s
  /\ (exists out, w s' = w s +:+ out)
  /\ (exists more, calls s' = calls s ++ more).
Proof.
  intros HR. unfold Render in HR. bind_inv HR as src s1 Hg.
  unfold gets in Hg. injection Hg as <- <-.
  unfold Walk in HR. bind_inv HR as r s1 Hw. inv_ret HR.
  destruct (walk_rel nodes (dispatch (RegisterFuncs (hostRegistry host)) (source s))
              (fun s s' => nodes s' = nodes s
                           /\ (exists out, w s' = w s +:+ out)
                           /\ (exists more, calls s' = calls s ++ more)))
    with (fuel := fuel) as [Hn _].
  - intros x. split; [reflexivity|]. split.
    + exists EmptyString. now rewrite append_nil_r.
    + exists []. now rewrite app_nil_r.
  - intros x y z (N1 & [o1 W1] & [c1 C1]) (N2 & [o2 W2] & [c2 C2]).
    split; [congruence|]. split.
    + exists (o1 +:+ o2). now rewrite W2, W1, append_assoc.
    + exists (c1 ++ c2). now rewrite C2, C1, app_assoc.
  - intros n e0 x r0 x' Hd. unfold dispatch in Hd. bind_inv Hd as nd x1 Hl.
    apply load_inv in Hl as [Hl ->]. unfold RegisterFuncs, Register in Hd.
    destruct (decide (Kind nd = pfKind)) as [Hk|Hk].
    + destruct nd as [| |fb|]; try discriminate.
      destruct (PipeFuncs x !! Language fb (source s)) as [f|] eqn:E.
      * destruct e0.
        -- rewrite (renderFenced_hit_enter _ n x fb f Hl E) in Hd.
           destruct (f (RawContent fb (source s))); injection Hd as _ <-.
           ++ split; [reflexivity|]. split; cbn; eauto.
           ++ split; [reflexivity|]. split; cbn; [|eauto].
              exists EmptyString. now rewrite append_nil_r.
        -- rewrite (renderFenced_hit_leave _ n x fb f Hl E) in Hd.
           injection Hd as _ <-. split; [reflexivity|]. split.
           ++ exists EmptyString. now rewrite append_nil_r.
           ++ exists []. now rewrite app_nil_r.
      * rewrite (renderFenced_miss _ n x fb e0 Hl E) in Hd.
        injection Hd as _ <-. split; [reflexivity|]. split.
        ++ exists EmptyString. now rewrite append_nil_r.
        ++ exists []. now rewrite app_nil_r.
    + unfold hostRegistry in Hd.
      destruct (decide (Kind nd = pfKind)); [contradiction|].
      destruct (host (Kind nd)) as [f|]; cbn [fmap option_fmap option_map] in Hd.
      * unfold hostFunc in Hd. bind_inv Hd as nd' x1 Hl'.
        apply load_inv in Hl' as [_ ->].
        destruct (f (source s) nd' e0) as [r1 out]. bind_inv Hd as u x1 Hm.
        unfold modify in Hm. injection Hm as _ <-. inv_ret Hd.
        split; [reflexivity|]. split; cbn; [eauto|].
        exists []. now rewrite app_nil_r.
      * inv_ret Hd. split; [reflexivity|]. split.
        -- exists EmptyString. now rewrite append_nil_r.
        -- exists []. now rewrite app_nil_r.
  - exact (Hn _ _ _ _ Hw).
Qed.

(** ** [RawContent] and [Language] *)

Lemma concatBytes_app (l1 l2 : list bytes) :
  concatBytes (l1 ++ l2) = concatBytes l1 +:+ concatBytes l2.
Proof.
  unfold concatBytes. induction l1 as [|a l1 IH]; cbn; [reflexivity|].
  now rewrite IH, append_assoc.
Qed.

(** X13: [RawContent] reads the lines of a block and nothing else, and it
    goes over them piece by piece: a block without lines has empty
    content, and the content of lines put one after the other is the
    content of the first followed by the content of the second. *)
Theorem RawContent_of_appended_lines
    (b b1 b2 : BaseNode) (i i1 i2 : option Segment) (l1 l2 : list Segment)
    (src : bytes) :
  RawContent (mkFencedCodeBlock b i []) src = EmptyString
  /\ RawContent (mkFencedCodeBlock b i (l1 ++ l2)) src
     = RawContent (mkFencedCodeBlock b1 i1 l1) src
       +:+ RawContent (mkFencedCodeBlock b2 i2 l2) src.
Proof.
  split; [reflexivity|].
  rewrite !RawContent_spec. unfold spec_RawContent. cbn [lines].
  now rewrite map_app, concatBytes_app.
Qed.

Lemma firstToken_no_space info : hasSpace (firstToken info) = false.
Proof.
  induction info as [|c info IH]; [reflexivity|]. cbn [firstToken].
  destruct (decide (c = Ascii.Space)) as [->|Hne]; [reflexivity|].
  cbn [hasSpace]. now rewrite bool_decide_eq_false_2, IH.
Qed.

Lemma firstToken_prefix info :
  exists rest, info = firstToken info +:+ rest
               /\ (rest = EmptyString \/ exists rest', rest = String Ascii.Space rest').
Proof.
  induction info as [|c info (rest & E & Hrest)].
  - exists EmptyString. split; [reflexivity|now left].
  - cbn [firstToken]. destruct (decide (c = Ascii.Space)) as [->|Hne].
    + exists (String Ascii.Space info). split; [reflexivity|right; eauto].
    + exists rest. split; [|assumption]. rewrite append_cons. now rewrite <- E.
Qed.

(** X14: the language tag of a fenced block is its info string up to the
    first space: it holds no space, the info string is the tag followed
    by nothing or by a space and more, and a block without info string
    has the empty tag.  A registry key that holds a space is therefore
    never the tag of a block. *)
Theorem Language_is_info_up_to_first_space (fb : FencedCodeBlock) (src : bytes) :
  hasSpace (Language fb src) = false
  /\ (forall seg, Info fb = Some seg ->
        exists rest, Value seg src = Language fb src +:+ rest
                     /\ (rest = EmptyString
                         \/ exists rest', rest = String Ascii.Space rest'))
  /\ (Info fb = None -> Language fb src = EmptyString)
  /\ (forall key, hasSpace key = true -> Language fb src <> key).
Proof.
  assert (Hns : hasSpace (Language fb src) = false).
  { unfold Language. destruct (Info fb); [apply firstToken_no_space|reflexivity]. }
  split; [assumption|]. split; [|split].
  - intros seg Hseg. unfold Language. rewrite Hseg. apply firstToken_prefix.
  - intros Hnone. unfold Language. now rewrite Hnone.
  - intros key Hkey E. rewrite E in Hns. congruence.
Qed.

(** ** [Transform] returns

    No step of the loop dereferences nil or a reference outside the
    store: the host's methods test every link they follow. *)

Lemma total_bind {St A B} (P : St -> Prop) (Q : A -> St -> Prop)
    (R : B -> St -> Prop) (m : M St A) (k : A -> M St B) :
  total P m Q -> (forall a, total (Q a) (k a) R) -> total P (x <~ m ;; k x) R.
Proof.
  intros Hm Hk s HP. destruct (Hm s HP) as (a & s1 & E1 & HQ).
  destruct (Hk a s1 HQ) as (b & s2 & E2 & HR).
  exists b, s2. split; [|assumption]. unfold bind. now rewrite E1.
Qed.

Lemma total_ret {St A} (P : St -> Prop) (a : A) : total P (ret a) (fun _ => P).
Proof. intros s HP. now exists a, s. Qed.

Lemma total_assume {St A} (P : St -> Prop) (phi : Prop) (m : M St A)
    (Q : A -> St -> Prop) :
  (phi -> total P m Q) -> total (fun s => P s /\ phi) m Q.
Proof. intros Hm s [HP Hphi]. exact (Hm Hphi s HP). Qed.

Lemma closed_lookup heap r n :
  closed heap = true -> heap !! r = Some n ->
  linksIn (length heap) (base n) = true.
Proof.
  unfold closed. rewrite forallb_forall. intros Hall Hr. apply Hall.
  apply list_elem_of_In, list_elem_of_lookup. eauto.
Qed.

Lemma closed_intro heap :
  (forall r n, heap !! r = Some n -> linksIn (length heap) (base n) = true) ->
  closed heap = true.
Proof.
  intros Hall. unfold closed. rewrite forallb_forall. intros n Hin.
  apply list_elem_of_In, list_elem_of_lookup in Hin as [r Hr]. eauto.
Qed.

Lemma inStore_mono N o : inStore N o = true -> inStore (S N) o = true.
Proof.
  destruct o as [r|]; [|reflexivity]. cbn. intros Hr.
  apply bool_decide_eq_true in Hr. apply bool_decide_eq_true. lia.
Qed.

Lemma linksIn_fields N b :
  linksIn N b = true <->
  inStore N (firstChild b) = true /\ inStore N (lastChild b) = true
  /\ inStore N (parent b) = true /\ inStore N (next b) = true
  /\ inStore N (prev b) = true.
Proof. unfold linksIn. rewrite !andb_true_iff. tauto. Qed.

Lemma linksIn_mono N b : linksIn N b = true -> linksIn (S N) b = true.
Proof.
  rewrite !linksIn_fields. intros (?&?&?&?&?). auto 10 using inStore_mono.
Qed.

Lemma inStore_Some N r : inStore N (Some r) = true -> r < N.
Proof. cbn. now intros Hr%bool_decide_eq_true. Qed.

Lemma inStore_lt N r : r < N -> inStore N (Some r) = true.
Proof. intros Hr. cbn. now apply bool_decide_eq_true. Qed.

Lemma total_field N {A} (f : BaseNode -> A) (r : ref) (good : A -> Prop) :
  r < N -> (forall b, linksIn N b = true -> good (f b)) ->
  total (closedAt N) (field f r) (fun a s => closedAt N s /\ good a).
Proof.
  intros Hr Hgood s [Hlen Hcl].
  destruct (lookup_lt_is_Some_2 (nodes s) r) as [n Hn]; [lia|].
  exists (f (base n)), s. unfold field, bind, load, ret. rewrite Hn.
  split; [reflexivity|]. split; [now split|]. apply Hgood.
  rewrite <- Hlen. eapply closed_lookup; eassumption.
Qed.

Lemma total_update N (r : ref) (g : BaseNode -> BaseNode) :
  r < N -> (forall b, linksIn N b = true -> linksIn N (g b) = true) ->
  total (closedAt N) (update r g) (fun _ => closedAt N).
Proof.
  intros Hr Hg s [Hlen Hcl].
  destruct (lookup_lt_is_Some_2 (nodes s) r) as [n Hn]; [lia|].
  exists tt, (with_nodes (fun l => <[r := set_base (g (base n)) n]> l) s).
  unfold update, bind, load, modify. rewrite Hn.
  split; [reflexivity|]. split; cbn; [now rewrite length_insert|].
  apply closed_intro. intros x m Hx. rewrite length_insert, Hlen.
  destruct (decide (x = r)) as [->|Hne].
  - rewrite list_lookup_insert_eq in Hx by lia. injection Hx as <-.
    rewrite base_set_base. apply Hg. rewrite <- Hlen.
    eapply closed_lookup; eassumption.
  - rewrite list_lookup_insert_ne in Hx by congruence.
    rewrite <- Hlen. eapply closed_lookup; eassumption.
Qed.

(** The assignments of the host's methods keep links inside the store. *)
Ltac links :=
  intros ?b; rewrite !linksIn_fields; cbn;
  intuition (try (apply bool_decide_eq_true; lia); auto).

Ltac reads :=
  cbv beta;
  lazymatch goal with
  | |- total (closedAt ?N) _ _ =>
      eapply total_bind;
      [apply (total_field N) with (good := fun o => inStore N o = true);
       [assumption|links]
      |intros ?o; apply total_assume; intros ?Ho]
  end.

Ltac writes :=
  cbv beta;
  first [apply total_update; [assumption|links]
        |eapply total_bind;
         [apply total_update; [assumption|links]|intros ?u; cbv beta]].

Lemma RemoveChild_total N n self v :
  n < N -> v < N ->
  total (closedAt N) (RemoveChild n self v) (fun _ => closedAt N).
Proof.
  intros Hn Hv.
  unfold RemoveChild, Parent, PreviousSibling, NextSibling, SetParent,
    SetPreviousSibling, SetNextSibling.
  reads. destruct (decide (o = self)); [|apply total_ret].
  writes. reads. reads.
  eapply total_bind; [|intros ?u; cbv beta].
  { destruct o0 as [pr|]; [apply inStore_Some in Ho0|]; writes. }
  eapply total_bind; [|intros ?u; cbv beta].
  { destruct o1 as [nx|]; [apply inStore_Some in Ho1|]; writes. }
  writes. writes. writes.
Qed.

Lemma ensureIsolated_total N v :
  v < N -> total (closedAt N) (ensureIsolated v) (fun _ => closedAt N).
Proof.
  intros Hv. unfold ensureIsolated, Parent. reads.
  destruct o as [p|]; [|apply total_ret].
  apply inStore_Some in Ho. now apply RemoveChild_total.
Qed.

Lemma InsertBefore_total N n self c insertee :
  n < N -> c < N -> insertee < N -> inStore N self = true ->
  total (closedAt N) (InsertBefore n self (Some c) insertee)
        (fun _ => closedAt N).
Proof.
  intros Hn Hc Hi Hself.
  unfold InsertBefore, Parent, PreviousSibling, SetParent,
    SetPreviousSibling, SetNextSibling.
  writes.
  eapply total_bind; [now apply ensureIsolated_total|intros ?u; cbv beta].
  reads. destruct (decide (o = self)); [|apply total_ret].
  reads.
  eapply total_bind; [|intros ?u; cbv beta].
  { destruct o0 as [pr|]; [apply inStore_Some in Ho0|]; writes; writes. }
  writes. writes. writes.
Qed.

Lemma ReplaceChild_total N n self v1 insertee :
  n < N -> v1 < N -> insertee < N -> inStore N self = true ->
  total (closedAt N) (ReplaceChild n self v1 insertee) (fun _ => closedAt N).
Proof.
  intros Hn Hv Hi Hself. unfold ReplaceChild.
  eapply total_bind; [now apply InsertBefore_total|intros ?u; cbv beta].
  now apply RemoveChild_total.
Qed.

Lemma closed_alloc heap n :
  closed heap = true -> linksIn (length heap) (base n) = true ->
  closed (heap ++ [n]) = true.
Proof.
  intros Hcl Hn. apply closed_intro. intros r m Hr.
  rewrite length_app, Nat.add_1_r. apply linksIn_mono.
  apply lookup_app_Some in Hr as [Hr|[_ Hr]].
  - eapply closed_lookup; eassumption.
  - destruct (r - length heap) as [|k]; [|discriminate Hr].
    cbn in Hr. now injection Hr as <-.
Qed.

(** One iteration of the loop on a fenced block returns. *)
Lemma replaceOne_returns doc fb s f :
  closed (nodes s) = true -> doc < length (nodes s) ->
  nodes s !! fb = Some (Fenced f) ->
  exists s', replaceOne doc fb s = Some (tt, s') /\ closed (nodes s') = true.
Proof.
  intros Hcl Hdoc Hfb. unfold replaceOne, bind at 1, gets at 1.
  unfold bind at 1. rewrite (load_Some _ _ _ Hfb).
  unfold bind at 1, gets at 1.
  destruct (PipeFuncs s !! Language f (source s) : option PipeFunc) as [pf|];
    [|now exists s].
  unfold Parent, field, bind at 1. unfold bind at 1.
  rewrite (load_Some _ _ _ Hfb). unfold ret at 1. unfold bind at 1, alloc.
  pose proof (closed_lookup _ _ _ Hcl Hfb) as Hl. cbn [base] in Hl.
  assert (Hfb' : fb < length (nodes s)) by now apply lookup_lt_Some in Hfb.
  destruct (ReplaceChild_total (S (length (nodes s))) doc
              (parent (BaseBlock f)) fb (length (nodes s)))
    with (s := with_nodes (fun l => l ++ [pfBlock f]) s)
    as ([] & s' & E & _ & Hcl'); try lia.
  - apply inStore_mono. now apply linksIn_fields in Hl as (_ & _ & ? & _).
  - split; cbn; [rewrite length_app; cbn; lia|]. now apply closed_alloc.
  - exists s'. split; assumption.
Qed.

Lemma replaceAll_returns doc L :
  forall s,
    closed (nodes s) = true -> doc < length (nodes s) ->
    (forall x, x ∈ L -> exists f, nodes s !! x = Some (Fenced f)) ->
    exists s', replaceAll doc L s = Some (tt, s') /\ closed (nodes s') = true.
Proof.
  induction L as [|x L IH]; intros s Hcl Hdoc HL.
  - now exists s.
  - destruct (HL x) as [f Hx]; [left|].
    destruct (replaceOne_returns doc x s f Hcl Hdoc Hx) as (s1 & E1 & Hcl1).
    pose proof (replaceOne_extends _ _ _ _ _ E1) as Hext.
    destruct (IH s1 Hcl1) as (s' & E & Hcl').
    + destruct Hext as (_ & Hlen & _). lia.
    + intros y Hy. destruct (HL y) as [g Hg]; [now right|].
      destruct (extends_Fenced _ _ _ _ Hext Hg) as (g' & ? & _). eauto.
    + exists s'. split; [|assumption]. cbn [replaceAll]. unfold bind.
      now rewrite E1.
Qed.

Lemma Transform_returns fuel doc s b f :
  nodes s !! doc = Some (Document b) ->
  shape (nodes s) (firstChild b) f = true ->
  sizeF f < fuel ->
  closed (nodes s) = true ->
  exists s', Transform fuel doc s = Some (tt, s') /\ closed (nodes s') = true.
Proof.
  intros Hdoc Hsh Hfuel Hcl. unfold Transform, bind.
  rewrite (collectFenced_shape fuel doc s b f Hdoc Hsh Hfuel). cbn [fst snd].
  apply replaceAll_returns; [assumption|now apply lookup_lt_Some in Hdoc|].
  intros x Hx. eapply fencedEvents_Fenced; eassumption.
Qed.

(** X3: on a document whose tree is finite and whose links lead into the
    store, [Transform] returns: it does not stop at [log.Fatalf] and no
    step dereferences nil, whatever the registry holds.  The links of the
    store it leaves lead into the store again. *)
Theorem Transform_never_panics
    (fuel : nat) (doc : ref) (s : world) (b : BaseNode) (f : forest) :
  nodes s !! doc = Some (Document b) ->
  shape (nodes s) (firstChild b) f = true ->
  sizeF f < fuel ->
  closed (nodes s) = true ->
  exists s', Transform fuel doc s = Some (tt, s')
             /\ closed (nodes s') = true
             /\ extends s s'.
Proof.
  intros Hdoc Hsh Hfuel Hcl.
  destruct (Transform_returns fuel doc s b f Hdoc Hsh Hfuel Hcl)
    as (s' & E & Hcl').
  exists s'. split; [assumption|]. split; [assumption|].
  apply Transform_inv in E as (fbs & _ & E).
  eapply replaceAll_extends; eassumption.
Qed.

(** ** How many copies [Transform] makes *)

Lemma isHit_extends s s' x f :
  extends s s' -> nodes s !! x = Some (Fenced f) -> isHit s' x = isHit s x.
Proof.
  intros Hext Hx. destruct (extends_Fenced _ _ _ _ Hext Hx) as (f' & Hx' & HI & _).
  unfold isHit, registered. rewrite Hx, Hx'.
  now rewrite (extends_lookup_hit s s' f f' Hext HI).
Qed.

Lemma countHits_extends s s' L :
  extends s s' ->
  (forall x, x ∈ L -> exists f, nodes s !! x = Some (Fenced f)) ->
  countHits s' L = countHits s L.
Proof.
  intros Hext. induction L as [|x L IH]; intros HL; [reflexivity|].
  cbn [countHits]. destruct (HL x) as [f Hx]; [left|].
  rewrite (isHit_extends s s' x f Hext Hx), IH; [reflexivity|].
  intros y Hy. apply HL. now right.
Qed.

Lemma replaceOne_length doc fb s u s' :
  replaceOne doc fb s = Some (u, s') ->
  length (nodes s') = length (nodes s) + (if isHit s fb then 1 else 0).
Proof.
  intros Hrun.
  apply replaceOne_inv in Hrun as (f & Hfb & [[Hmiss ->]|[Hhit Hrun]]);
    unfold isHit, registered; rewrite Hfb.
  - rewrite Hmiss. lia.
  - destruct Hhit as [pf ->].
    apply ReplaceChild_relinks in Hrun as (_ & -> & _). cbn.
    now rewrite length_app.
Qed.

Lemma replaceAll_length doc L :
  forall s u s',
    (forall x, x ∈ L -> exists f, nodes s !! x = Some (Fenced f)) ->
    replaceAll doc L s = Some (u, s') ->
    length (nodes s') = length (nodes s) + countHits s L.
Proof.
  induction L as [|x L IH]; intros s u s' HL Hrun; cbn [replaceAll] in Hrun.
  - inv_ret Hrun. cbn. lia.
  - bind_inv Hrun as u1 s1 H1.
    pose proof (replaceOne_extends _ _ _ _ _ H1) as Hext.
    assert (HL1 : forall y, y ∈ L -> exists g, nodes s1 !! y = Some (Fenced g)).
    { intros y Hy. destruct (HL y) as [g Hg]; [now right|].
      destruct (extends_Fenced _ _ _ _ Hext Hg) as (g' & ? & _). eauto. }
    rewrite (IH s1 u s' HL1 Hrun), (replaceOne_length _ _ _ _ _ H1).
    cbn [countHits]. rewrite (countHits_extends s s1 L Hext); [lia|].
    intros y Hy. apply HL. now right.
Qed.

Lemma countHits_twice s L :
  countHits s (flat_map twice L) = 2 * countHits s L.
Proof.
  induction L as [|x L IH]; [reflexivity|].
  cbn [flat_map twice app countHits]. rewrite IH. lia.
Qed.

Lemma fencedOf_Fenced heap f x :
  x ∈ fencedOf heap f -> exists fb, heap !! x = Some (Fenced fb).
Proof.
  induction f as [|r ch IHch sib IHsib]; cbn [fencedOf].
  - intros Hx. now apply elem_of_nil in Hx.
  - rewrite !elem_of_app. intros [Hx|[Hx|Hx]]; eauto using mark_Fenced.
Qed.

(** X4: on a well-formed tree [Transform] returns with two new objects in
    the store for every fenced block of the document whose tag is
    registered, and none for the others: each such block is copied once
    for the entering and once for the leaving entry of [fencedBlocks]. *)
Theorem Transform_copies_each_matched_block_twice
    (fuel : nat) (doc : ref) (s : world) (b : BaseNode) (f : forest) :
  nodes s !! doc = Some (Document b) ->
  shape (nodes s) (firstChild b) f = true ->
  sizeF f < fuel ->
  wfLinks (nodes s) = true ->
  closed (nodes s) = true ->
  exists s', Transform fuel doc s = Some (tt, s')
             /\ length (nodes s')
                = length (nodes s) + 2 * countHits s (fencedOf (nodes s) f).
Proof.
  intros Hdoc Hsh Hfuel Hwf Hcl.
  destruct (Transform_returns fuel doc s b f Hdoc Hsh Hfuel Hcl)
    as (s' & E & _).
  exists s'. split; [assumption|].
  apply Transform_inv in E as (fbs & Hc & E).
  rewrite (collectFenced_shape fuel doc s b f Hdoc Hsh Hfuel) in Hc.
  injection Hc as <-.
  rewrite (fencedEvents_fencedOf _ Hwf f _ Hsh) in E.
  rewrite <- countHits_twice. eapply replaceAll_length; [|exact E].
  intros x Hx. apply list_elem_of_In, in_flat_map in Hx as (y & Hy & Hx).
  apply list_elem_of_In in Hy. destruct Hx as [<-|[<-|[]]];
    eapply fencedOf_Fenced; eassumption.
Qed.

(** ** Which block is left after [Transform] *)

Lemma twice_hit_copy doc x s bd f u1 s1 u2 s2 :
  Inv [doc] s ->
  nodes s !! doc = Some (Document bd) ->
  nodes s !! x = Some (Fenced f) ->
  is_Some (PipeFuncs s !! Language f (source s)) ->
  replaceOne doc x s = Some (u1, s1) ->
  replaceOne doc x s1 = Some (u2, s2) ->
  soleCopy doc f s2.
Proof.
  intros HI HD Hx Hhit H1 H2.
  pose proof (replaceOne_keeps doc x s u1 s1 HI H1) as HI1.
  pose proof (replaceOne_keeps doc x s1 u2 s2 HI1 H2) as HI2.
  pose proof (replaceOne_extends _ _ _ _ _ H1) as Hext.
  apply replaceOne_inv in H1 as (f0 & Hx0 & [[Hmiss _]|[_ H1]]).
  { rewrite Hx in Hx0. injection Hx0 as <-. rewrite Hmiss in Hhit.
    now destruct Hhit. }
  rewrite Hx in Hx0. injection Hx0 as <-.
  assert (Hlt : x < length (nodes s)) by now apply lookup_lt_Some in Hx.
  assert (Hdet : detached x s1).
  { eapply ReplaceChild_detaches; [| |exact H1]; [lia|].
    exists (Fenced f). split; [|reflexivity]. cbn. now apply lookup_app_l_Some. }
  destruct Hdet as (n1 & Hx1 & Hp1 & Hv1 & Hn1).
  destruct (extends_Fenced _ _ _ _ Hext Hx) as (f1 & Hx1' & HI1' & HL1').
  rewrite Hx1 in Hx1'. injection Hx1' as ->. cbn in Hp1, Hv1, Hn1.
  destruct (extends_Document _ _ _ _ Hext HD) as (bd1 & HD1).
  apply replaceOne_inv in H2 as (f2 & Hx2 & [[Hmiss _]|[_ H2]]).
  { rewrite Hx1 in Hx2. injection Hx2 as <-.
    rewrite (extends_lookup_hit _ _ f f1 Hext HI1') in Hmiss.
    rewrite Hmiss in Hhit. now destruct Hhit. }
  rewrite Hx1 in Hx2. injection Hx2 as <-. rewrite Hp1 in H2.
  assert (Hlt1 : x < length (nodes s1)) by now apply lookup_lt_Some in Hx1.
  assert (Hltd : doc < length (nodes s1)) by now apply lookup_lt_Some in HD1.
  assert (Hfin : exists bd' fY',
            nodes s2 !! doc = Some (Document bd') /\ firstChild bd' = Some (length (nodes s1))
            /\ nodes s2 !! length (nodes s1) = Some (pfBlock fY')
            /\ next (BaseBlock fY') = None).
  { eapply (ReplaceChild_of_detached doc x (length (nodes s1)) _ u2 s2 bd1 f1 f1);
      [ | | | | | | | | | |exact H2]; try assumption; try lia; cbn.
    - intros ->. rewrite HD1 in Hx1. discriminate.
    - now apply lookup_app_l_Some.
    - now apply lookup_app_l_Some.
    - now apply list_lookup_middle. }
  destruct Hfin as (bd2 & fy & HD2 & Hfirst & HY2 & Hnext).
  exists bd2, (length (nodes s1)), fy.
  do 3 (split; [assumption|]). split; [|split; [assumption|]].
  - pose proof (wfLinks_lookup _ _ _ (proj1 HI2) HY2) as Hwf.
    unfold wfNode in Hwf. apply andb_prop in Hwf as [_ Hwf]. cbn in Hwf.
    now apply bool_decide_eq_true in Hwf.
  - apply ReplaceChild_relinks in H2 as (_ & _ & Hkeep).
    destruct (Hkeep (length (nodes s1)) (pfBlock f1)) as (n' & Hn' & E).
    { cbn. now apply list_lookup_middle. }
    rewrite HY2 in Hn'. injection Hn' as <-.
    apply erase_pfBlock_inv in E as (f' & [= <-] & ? & ?).
    split; congruence.
Qed.

Lemma lastHit_extends s s' L :
  extends s s' ->
  (forall x, x ∈ L -> exists f, nodes s !! x = Some (Fenced f)) ->
  lastHit s' L = lastHit s L.
Proof.
  intros Hext. induction L as [|x L IH]; intros HL; [reflexivity|].
  cbn [lastHit]. destruct (HL x) as [f Hx]; [left|].
  rewrite (isHit_extends s s' x f Hext Hx), IH; [reflexivity|].
  intros y Hy. apply HL. now right.
Qed.

(** The loop over blocks that each appear twice in a row leaves a copy of
    the last block with a registered tag as the document's only child. *)
Lemma replaceAll_twice_last doc L :
  forall s bd u s',
    Inv [doc] s ->
    nodes s !! doc = Some (Document bd) ->
    (forall x, x ∈ L -> exists f, nodes s !! x = Some (Fenced f)) ->
    replaceAll doc (flat_map twice L) s = Some (u, s') ->
    match lastHit s L with
    | None => s' = s
    | Some x => exists f, nodes s !! x = Some (Fenced f) /\ soleCopy doc f s'
    end.
Proof.
  induction L as [|x L IH]; intros s bd u s' HI HD HL Hrun.
  { cbn in Hrun. now inv_ret Hrun. }
  cbn [flat_map twice app replaceAll] in Hrun.
  bind_inv Hrun as u1 s1 H1. bind_inv Hrun as u2 s2 H2.
  destruct (HL x) as [f Hx]; [left|].
  pose proof (replaceOne_keeps doc x s u1 s1 HI H1) as HI1.
  pose proof (replaceOne_keeps doc x s1 u2 s2 HI1 H2) as HI2.
  assert (Hext : extends s s2).
  { etransitivity; eapply replaceOne_extends; eassumption. }
  destruct (extends_Document _ _ _ _ Hext HD) as (bd2 & HD2).
  assert (HL' : forall y, y ∈ L -> exists g, nodes s !! y = Some (Fenced g)).
  { intros y Hy. apply HL. now right. }
  assert (HL2 : forall y, y ∈ L -> exists g, nodes s2 !! y = Some (Fenced g)).
  { intros y Hy. destruct (HL' y Hy) as [g Hg].
    destruct (extends_Fenced _ _ _ _ Hext Hg) as (g' & ? & _). eauto. }
  pose proof (IH s2 bd2 u s' HI2 HD2 HL2 Hrun) as Hrest.
  rewrite (lastHit_extends s s2 L Hext HL') in Hrest.
  cbn [lastHit]. destruct (lastHit s L) as [y|] eqn:Ey.
  - destruct Hrest as (g2 & Hy2 & bd' & Y & fy & ? & ? & ? & ? & ? & HI' & HL'').
    assert (Hy : exists g, nodes s !! y = Some (Fenced g) /\ Info g2 = Info g
                           /\ lines g2 = lines g).
    { clear -Ey Hext Hy2 HL'. assert (Hin : y ∈ L).
      { revert Ey. clear. induction L as [|z L IH]; cbn [lastHit]; [discriminate|].
        destruct (lastHit s L); [intros [= ->]; right; now apply IH|].
        destruct (isHit s z); [intros [= ->]; now left|discriminate]. }
      destruct (HL' y Hin) as [g Hg].
      destruct (extends_Fenced _ _ _ _ Hext Hg) as (g' & Hg' & ? & ?).
      rewrite Hy2 in Hg'. injection Hg' as <-. eauto. }
    destruct Hy as (g & Hg & EI & EL). exists g. split; [assumption|].
    exists bd', Y, fy. repeat split; try assumption; congruence.
  - subst s'. unfold isHit, registered. rewrite Hx.
    destruct (PipeFuncs s !! Language f (source s)) as [pf|] eqn:E.
    + exists f. split; [assumption|]. eapply twice_hit_copy; eauto.
    + rewrite (replaceOne_miss doc x s f Hx E) in H1. injection H1 as _ <-.
      rewrite (replaceOne_miss doc x s f Hx E) in H2. now injection H2 as _ <-.
Qed.

Lemma Transform_last_hit fuel doc s b f x :
  nodes s !! doc = Some (Document b) ->
  shape (nodes s) (firstChild b) f = true ->
  sizeF f < fuel ->
  wfLinks (nodes s) = true ->
  closed (nodes s) = true ->
  lastHit s (fencedOf (nodes s) f) = Some x ->
  exists s' fb,
    Transform fuel doc s = Some (tt, s')
    /\ nodes s !! x = Some (Fenced fb)
    /\ frame s s'
    /\ soleCopy doc fb s'.
Proof.
  intros Hdoc Hsh Hfuel Hwf Hcl Hlast.
  destruct (Transform_returns fuel doc s b f Hdoc Hsh Hfuel Hcl)
    as (s' & E & _).
  pose proof E as E'.
  apply Transform_inv in E' as (fbs & Hc & E').
  rewrite (collectFenced_shape fuel doc s b f Hdoc Hsh Hfuel) in Hc.
  injection Hc as <-.
  rewrite (fencedEvents_fencedOf _ Hwf f _ Hsh) in E'.
  assert (HI : Inv [doc] s).
  { split; [assumption|]. constructor; [|constructor].
    unfold isCont. now rewrite Hdoc. }
  pose proof (replaceAll_twice_last doc _ s b tt s' HI Hdoc
                (fencedOf_Fenced (nodes s) f) E') as Hl.
  rewrite Hlast in Hl. destruct Hl as (fb & Hx & Hsole).
  exists s', fb. split; [assumption|]. split; [assumption|].
  split; [|assumption].
  now apply replaceAll_extends in E' as (? & _).
Qed.

(** X7: on a well-formed tree in which some fenced block has a registered
    tag, [Transform] returns and leaves the document with a single child:
    a tagged block with the info string and lines of the last such block
    in document order.  The other children, matched or not, are no
    longer reached from the document. *)
Theorem Transform_keeps_a_copy_of_the_last_hit_only
    (fuel : nat) (doc : ref) (s : world) (b : BaseNode) (f : forest)
    (x : ref) :
  nodes s !! doc = Some (Document b) ->
  shape (nodes s) (firstChild b) f = true ->
  sizeF f < fuel ->
  wfLinks (nodes s) = true ->
  closed (nodes s) = true ->
  lastHit s (fencedOf (nodes s) f) = Some x ->
  exists s' fb,
    Transform fuel doc s = Some (tt, s')
    /\ nodes s !! x = Some (Fenced fb)
    /\ soleCopy doc fb s'.
Proof.
  intros Hdoc Hsh Hfuel Hwf Hcl Hlast.
  destruct (Transform_last_hit fuel doc s b f x Hdoc Hsh Hfuel Hwf Hcl Hlast)
    as (s' & fb & E & Hx & _ & Hsole).
  eauto.
Qed.

Lemma RawContent_lines f g src : lines f = lines g -> RawContent f src = RawContent g src.
Proof. intros E. rewrite !RawContent_spec. unfold spec_RawContent. now rewrite E. Qed.

Lemma dispatch_Document (r : registry) src doc e t bd :
  nodes t !! doc = Some (Document bd) ->
  (forall g, r KindDocument = Some g ->
     forall e t, g src doc e t = Some ((WalkContinue, None), t)) ->
  dispatch (RegisterFuncs r) src doc e t = Some ((WalkContinue, None), t).
Proof.
  intros Hd Hg. unfold dispatch, bind. rewrite (load_Some _ _ _ Hd).
  cbn [Kind]. unfold RegisterFuncs, Register.
  destruct (decide (KindDocument = pfKind)); [discriminate|].
  destruct (r KindDocument) as [g|] eqn:E; [now apply Hg|reflexivity].
Qed.

(** X8: both passes together: take a well-formed tree in which some fenced
    block has a registered tag, a function of the last such block that
    succeeds, and a host whose render function for the document node, if
    it has one, writes nothing and continues.  Then [Convert] returns
    without error; the render pass calls that one function once, on the
    content of that block, and the sink receives its output and nothing
    else.  No function is called for an earlier block. *)
Theorem Convert_renders_the_last_hit_only
    (r : registry) (fuel : nat) (doc : ref) (s : world) (b : BaseNode)
    (f : forest) (x : ref) (fb : FencedCodeBlock) (pf : PipeFunc)
    (out : bytes) :
  nodes s !! doc = Some (Document b) ->
  shape (nodes s) (firstChild b) f = true ->
  sizeF f < fuel ->
  wfLinks (nodes s) = true ->
  closed (nodes s) = true ->
  lastHit s (fencedOf (nodes s) f) = Some x ->
  nodes s !! x = Some (Fenced fb) ->
  PipeFuncs s !! Language fb (source s) = Some pf ->
  pf (RawContent fb (source s)) = inl out ->
  (forall g, r KindDocument = Some g ->
     forall e t, g (source s) doc e t = Some ((WalkContinue, None), t)) ->
  exists s',
    Transform fuel doc s = Some (tt, s')
    /\ Convert (RegisterFuncs r) fuel doc s
       = Some (None,
               written out (called (Language fb (source s))
                                   (RawContent fb (source s)) s')).
Proof.
  intros Hdoc Hsh Hfuel Hwf Hcl Hlast Hx Hhit Hout Hhost.
  destruct (Transform_last_hit fuel doc s b f x Hdoc Hsh Hfuel Hwf Hcl Hlast)
    as (s' & fb' & E & Hx' & (Es & Ef & _) & bd' & Y & fy & HD' & Hfirst & HY
        & _ & Hnext & EI & EL).
  rewrite Hx in Hx'. injection Hx' as <-.
  exists s'. split; [assumption|].
  assert (Hp : piped s' (source s) Y
               = Some (Language fb (source s), RawContent fb (source s), inl out)).
  { unfold piped. rewrite HY.
    rewrite (Language_Info fy fb _ EI), (RawContent_lines fy fb _ EL).
    rewrite Ef, Hhit. now rewrite Hout. }
  assert (4 <= sizeF f).
  { destruct f as [|r0 ch sib]; [discriminate Hlast|].
    pose proof (sizeF_pos ch). pose proof (sizeF_pos sib). cbn [sizeF]. lia. }
  destruct fuel as [|[|[|[|fuel]]]]; try lia.
  unfold Convert, bind at 1. rewrite E.
  unfold Render, bind at 1, gets at 1. rewrite Es.
  unfold Walk, bind at 1. rewrite walkHelper_S. unfold bind at 1.
  rewrite (dispatch_Document r (source s) doc true s' bd' HD' Hhost).
  cbn [stops descends fst]. unfold bind at 1, bind at 1, link at 1.
  rewrite HD'. cbn [base]. rewrite Hfirst, walkChildren_S. unfold bind at 1.
  rewrite (walk_tagged_success r (source s) (S fuel) Y s' _ _ out Hp).
  cbn [stops]. unfold bind at 1, link at 1.
  change (nodes (written out (called (Language fb (source s))
                                     (RawContent fb (source s)) s')))
    with (nodes s').
  rewrite HY. cbn [base]. rewrite Hnext.
  rewrite walkChildren_S. unfold ret at 1. cbn [stops fst]. unfold bind at 1.
  rewrite (dispatch_Document r (source s) doc false _ bd'); [reflexivity| |exact Hhost].
  exact HD'.
Qed.

(** ** The first replacement of a child of the document

    The assignments of [doc.ReplaceChild(doc, fb, copy)] are followed on
    the objects they touch: the document, the block, its copy and the
    two neighbours. *)

Lemma keptOn_update (C : ref -> Prop) s0 s t g u s1 :
  keptOn C s0 s -> update t g s = Some (u, s1) ->
  (forall r, C r -> r <> t) -> keptOn C s0 s1.
Proof.
  intros Hk Hrun Hne r n HC Hr.
  eapply update_at_ne; [exact Hrun|auto|auto].
Qed.

Ltac track_all H :=
  lazymatch type of H with
  | update _ _ ?s = Some (_, _) =>
      repeat match goal with
             | Hx : nodes s !! _ = Some _ |- _ => track H Hx
             | Ho : keptOn _ _ s |- _ =>
                 eapply keptOn_update in Ho;
                 [|exact H
                  |let K := fresh "K" in
                   intros ?r K; cbv beta in K; decompose [and] K;
                   congruence]
             end
  end; clear H.

Ltac exec H :=
  lazymatch type of H with
  | ret _ _ = Some _ => inv_ret H
  | update _ _ _ = Some _ => track_all H
  | field _ ?r ?s = Some _ =>
      match goal with Hx : nodes s !! r = Some _ |- _ => read H Hx end
  | bind _ _ _ = Some _ =>
      let a := fresh "a" in
      let s1 := fresh "s" in
      let H1 := fresh "H" in
      apply bind_Some in H as (a & s1 & H1 & H);
      exec H1; cbn in H; exec H
  | context [@decide ?P ?d] =>
      destruct (@decide P d) as [_|?]; [|congruence]; exec H
  end.

(** X5: the first time a fenced block with a registered tag goes through the
    loop, as a child of the document between its neighbours, the call
    returns and the copy stands where the block stood: it has the
    block's parent, previous and next sibling, info string and lines;
    the neighbours, or the document's first and last child where there
    is no neighbour, lead to the copy; the block is detached; no other
    object changes.  The document's child count ends one lower than it
    was. *)
Theorem replaceOne_puts_the_copy_in_place
    (doc x : ref) (s : world) (bd : BaseNode) (f : FencedCodeBlock)
    (pf : PipeFunc) :
  closed (nodes s) = true ->
  nodes s !! doc = Some (Document bd) ->
  nodes s !! x = Some (Fenced f) ->
  parent (BaseBlock f) = Some doc ->
  PipeFuncs s !! Language f (source s) = Some pf ->
  prev (BaseBlock f) <> Some x -> next (BaseBlock f) <> Some x ->
  prev (BaseBlock f) <> Some doc -> next (BaseBlock f) <> Some doc ->
  (prev (BaseBlock f) = next (BaseBlock f) -> prev (BaseBlock f) = None) ->
  exists s' bd' fy,
    replaceOne doc x s = Some (tt, s')
    /\ nodes s' !! length (nodes s) = Some (pfBlock fy)
    /\ Info fy = Info f /\ lines fy = lines f
    /\ parent (BaseBlock fy) = Some doc
    /\ prev (BaseBlock fy) = prev (BaseBlock f)
    /\ next (BaseBlock fy) = next (BaseBlock f)
    /\ detached x s'
    /\ nodes s' !! doc = Some (Document bd')
    /\ firstChild bd' = match prev (BaseBlock f) with
                        | None => Some (length (nodes s))
                        | Some _ => firstChild bd
                        end
    /\ lastChild bd' = match next (BaseBlock f) with
                       | None => Some (length (nodes s))
                       | Some _ => lastChild bd
                       end
    /\ childCount bd' = (childCount bd - 1)%Z
    /\ (forall p n, prev (BaseBlock f) = Some p -> nodes s !! p = Some n ->
          nodes s' !! p
          = Some (set_base (with_next (Some (length (nodes s))) (base n)) n))
    /\ (forall q n, next (BaseBlock f) = Some q -> nodes s !! q = Some n ->
          nodes s' !! q
          = Some (set_base (with_prev (Some (length (nodes s))) (base n)) n))
    /\ (forall r n, r <> doc -> r <> x ->
          prev (BaseBlock f) <> Some r -> next (BaseBlock f) <> Some r ->
          nodes s !! r = Some n -> nodes s' !! r = Some n).
Proof.
  intros Hcl HD HX Hpar Hhit Hpx Hnx Hpd Hnd Hpn.
  assert (Hdl : doc < length (nodes s)) by now apply lookup_lt_Some in HD.
  assert (Hxl : x < length (nodes s)) by now apply lookup_lt_Some in HX.
  assert (Hdx : doc <> x) by (intros ->; congruence).
  destruct (replaceOne_returns doc x s f Hcl Hdl HX) as (s' & Hrun & _).
  pose proof Hrun as Hrun'.
  apply replaceOne_inv in Hrun' as (f0 & HX0 & [[Hmiss _]|[_ Hrun']]);
    rewrite HX in HX0; injection HX0 as <-; [congruence|].
  pose proof (closed_lookup _ _ _ Hcl HX) as Hl. cbn [base] in Hl.
  apply linksIn_fields in Hl as (_ & _ & _ & Hln & Hlp).
  assert (Ho : keptOn (fun r => r <> doc /\ r <> x /\ r <> length (nodes s)
                                /\ prev (BaseBlock f) <> Some r
                                /\ next (BaseBlock f) <> Some r)
                      s (with_nodes (fun l => l ++ [pfBlock f]) s)).
  { intros r n _ Hr. cbn. now apply lookup_app_l_Some. }
  assert (HY : nodes (with_nodes (fun l => l ++ [pfBlock f]) s)
               !! length (nodes s) = Some (pfBlock f)).
  { cbn. rewrite lookup_app_r by lia. now rewrite Nat.sub_diag. }
  assert (HD0 : nodes (with_nodes (fun l => l ++ [pfBlock f]) s) !! doc
                = Some (Document bd)) by (cbn; now apply lookup_app_l_Some).
  assert (HX1 : nodes (with_nodes (fun l => l ++ [pfBlock f]) s) !! x
                = Some (Fenced f)) by (cbn; now apply lookup_app_l_Some).
  assert (Hlift : forall r n, nodes s !! r = Some n ->
            nodes (with_nodes (fun l => l ++ [pfBlock f]) s) !! r = Some n)
    by (intros r n Hr; cbn; now apply lookup_app_l_Some).
  remember (with_nodes (fun l => l ++ [pfBlock f]) s) as s0 eqn:Es0.
  remember (length (nodes s)) as Y eqn:EY.
  assert (HYd : Y <> doc) by lia. assert (HYx : Y <> x) by lia.
  clear Es0.
  destruct f as [[fc lc par nx pv cc] info lns]. cbn in *. subst par.
  unfold ReplaceChild, InsertBefore, ensureIsolated, RemoveChild,
    Parent, PreviousSibling, NextSibling, SetParent, SetPreviousSibling,
    SetNextSibling in Hrun'.
  destruct pv as [p|], nx as [q|].
  - (* between two neighbours *)
    apply inStore_Some in Hlp, Hln.
    destruct (lookup_lt_is_Some_2 (nodes s) p) as [np HP]; [lia|].
    destruct (lookup_lt_is_Some_2 (nodes s) q) as [nq HQ]; [lia|].
    pose proof (Hlift _ _ HP) as HP0. pose proof (Hlift _ _ HQ) as HQ0.
    assert (p <> q) by (intros ->; now specialize (Hpn eq_refl)).
    assert (Y <> p) by lia. assert (Y <> q) by lia.
    exec Hrun'.
    exists s'. do 2 eexists. split; [exact Hrun|]. split; [exact HY|].
    do 5 (split; [reflexivity|]).
    split; [eexists; split; [exact HX1|now cbn]|].
    split; [exact HD0|]. do 2 (split; [reflexivity|]).
    split; [cbn; lia|]. split; [|split].
    + intros p' n [= <-] Hn. rewrite HP in Hn. injection Hn as <-.
      rewrite HP0. now destruct np.
    + intros q' n [= <-] Hn. rewrite HQ in Hn. injection Hn as <-.
      rewrite HQ0. now destruct nq.
    + intros r n ? ? ? ? Hr. apply (Ho r n); [|assumption].
      apply lookup_lt_Some in Hr. repeat split; (congruence || lia).
  - (* last child *)
    apply inStore_Some in Hlp.
    destruct (lookup_lt_is_Some_2 (nodes s) p) as [np HP]; [lia|].
    pose proof (Hlift _ _ HP) as HP0.
    assert (Y <> p) by lia.
    exec Hrun'.
    exists s'. do 2 eexists. split; [exact Hrun|]. split; [exact HY|].
    do 5 (split; [reflexivity|]).
    split; [eexists; split; [exact HX1|now cbn]|].
    split; [exact HD0|]. do 2 (split; [reflexivity|]).
    split; [cbn; lia|]. split; [|split].
    + intros p' n [= <-] Hn. rewrite HP in Hn. injection Hn as <-.
      rewrite HP0. now destruct np.
    + intros q' n [=].
    + intros r n ? ? ? ? Hr. apply (Ho r n); [|assumption].
      apply lookup_lt_Some in Hr. repeat split; (congruence || lia).
  - (* first child *)
    apply inStore_Some in Hln.
    destruct (lookup_lt_is_Some_2 (nodes s) q) as [nq HQ]; [lia|].
    pose proof (Hlift _ _ HQ) as HQ0.
    assert (Y <> q) by lia.
    exec Hrun'.
    exists s'. do 2 eexists. split; [exact Hrun|]. split; [exact HY|].
    do 5 (split; [reflexivity|]).
    split; [eexists; split; [exact HX1|now cbn]|].
    split; [exact HD0|]. do 2 (split; [reflexivity|]).
    split; [cbn; lia|]. split; [|split].
    + intros p' n [=].
    + intros q' n [= <-] Hn. rewrite HQ in Hn. injection Hn as <-.
      rewrite HQ0. now destruct nq.
    + intros r n ? ? ? ? Hr. apply (Ho r n); [|assumption].
      apply lookup_lt_Some in Hr. repeat split; (congruence || lia).
  - (* only child *)
    exec Hrun'.
    exists s'. do 2 eexists. split; [exact Hrun|]. split; [exact HY|].
    do 5 (split; [reflexivity|]).
    split; [eexists; split; [exact HX1|now cbn]|].
    split; [exact HD0|]. do 2 (split; [reflexivity|]).
    split; [cbn; lia|]. split; [|split].
    + intros p' n [=].
    + intros q' n [=].
    + intros r n ? ? ? ? Hr. apply (Ho r n); [|assumption].
      apply lookup_lt_Some in Hr. repeat split; (congruence || lia).
Qed.

(** X6: the receiver of the call is always the document, also when the
    block's parent is another node.  The first time a fenced block with
    a registered tag goes through the loop as a child of a container
    other than the document, the call returns; the copy gets the block's
    parent and siblings, but the first-child and last-child assignments
    of the insertion and of the removal land on the document: where the
    block was the first or the last child, the container loses it (its
    first child becomes the block's next sibling, its last child the
    block's previous one) and the document's first or last child becomes
    the copy. *)
Theorem replaceOne_under_another_parent_relinks_the_document
    (doc c x : ref) (s : world) (bd : BaseNode) (nc : node)
    (f : FencedCodeBlock) (pf : PipeFunc) :
  closed (nodes s) = true ->
  nodes s !! doc = Some (Document bd) ->
  nodes s !! c = Some nc ->
  nodes s !! x = Some (Fenced f) ->
  parent (BaseBlock f) = Some c ->
  c <> doc -> c <> x ->
  PipeFuncs s !! Language f (source s) = Some pf ->
  prev (BaseBlock f) <> Some x -> next (BaseBlock f) <> Some x ->
  prev (BaseBlock f) <> Some doc -> next (BaseBlock f) <> Some doc ->
  prev (BaseBlock f) <> Some c -> next (BaseBlock f) <> Some c ->
  (prev (BaseBlock f) = next (BaseBlock f) -> prev (BaseBlock f) = None) ->
  exists s' bd' nc' fy,
    replaceOne doc x s = Some (tt, s')
    /\ nodes s' !! length (nodes s) = Some (pfBlock fy)
    /\ Info fy = Info f /\ lines fy = lines f
    /\ parent (BaseBlock fy) = Some c
    /\ prev (BaseBlock fy) = prev (BaseBlock f)
    /\ next (BaseBlock fy) = next (BaseBlock f)
    /\ detached x s'
    /\ nodes s' !! doc = Some (Document bd')
    /\ firstChild bd' = match prev (BaseBlock f) with
                        | None => Some (length (nodes s))
                        | Some _ => firstChild bd
                        end
    /\ lastChild bd' = match next (BaseBlock f) with
                       | None => Some (length (nodes s))
                       | Some _ => lastChild bd
                       end
    /\ childCount bd' = childCount bd
    /\ nodes s' !! c = Some nc'
    /\ firstChild (base nc') = match prev (BaseBlock f) with
                               | None => next (BaseBlock f)
                               | Some _ => firstChild (base nc)
                               end
    /\ lastChild (base nc') = match next (BaseBlock f) with
                              | None => prev (BaseBlock f)
                              | Some _ => lastChild (base nc)
                              end
    /\ childCount (base nc') = (childCount (base nc) - 1)%Z
    /\ (forall p n, prev (BaseBlock f) = Some p -> nodes s !! p = Some n ->
          nodes s' !! p
          = Some (set_base (with_next (Some (length (nodes s))) (base n)) n))
    /\ (forall q n, next (BaseBlock f) = Some q -> nodes s !! q = Some n ->
          nodes s' !! q
          = Some (set_base (with_prev (Some (length (nodes s))) (base n)) n))
    /\ (forall r n, r <> doc -> r <> c -> r <> x ->
          prev (BaseBlock f) <> Some r -> next (BaseBlock f) <> Some r ->
          nodes s !! r = Some n -> nodes s' !! r = Some n).
Proof.
  intros Hcl HD HC HX Hpar Hcd Hcx Hhit Hpx Hnx Hpd Hnd Hpc Hnc Hpn.
  assert (Hdl : doc < length (nodes s)) by now apply lookup_lt_Some in HD.
  assert (Hxl : x < length (nodes s)) by now apply lookup_lt_Some in HX.
  assert (Hcl' : c < length (nodes s)) by now apply lookup_lt_Some in HC.
  assert (Hdx : doc <> x) by (intros ->; congruence).
  destruct (replaceOne_returns doc x s f Hcl Hdl HX) as (s' & Hrun & _).
  pose proof Hrun as Hrun'.
  apply replaceOne_inv in Hrun' as (f0 & HX0 & [[Hmiss _]|[_ Hrun']]);
    rewrite HX in HX0; injection HX0 as <-; [congruence|].
  pose proof (closed_lookup _ _ _ Hcl HX) as Hl. cbn [base] in Hl.
  apply linksIn_fields in Hl as (_ & _ & _ & Hln & Hlp).
  assert (Ho : keptOn (fun r => r <> doc /\ r <> c /\ r <> x
                                /\ r <> length (nodes s)
                                /\ prev (BaseBlock f) <> Some r
                                /\ next (BaseBlock f) <> Some r)
                      s (with_nodes (fun l => l ++ [pfBlock f]) s)).
  { intros r n _ Hr. cbn. now apply lookup_app_l_Some. }
  assert (HY : nodes (with_nodes (fun l => l ++ [pfBlock f]) s)
               !! length (nodes s) = Some (pfBlock f)).
  { cbn. rewrite lookup_app_r by lia. now rewrite Nat.sub_diag. }
  assert (Hlift : forall r n, nodes s !! r = Some n ->
            nodes (with_nodes (fun l => l ++ [pfBlock f]) s) !! r = Some n)
    by (intros r n Hr; cbn; now apply lookup_app_l_Some).
  pose proof (Hlift _ _ HD) as HD0. pose proof (Hlift _ _ HX) as HX1.
  pose proof (Hlift _ _ HC) as HC0.
  remember (with_nodes (fun l => l ++ [pfBlock f]) s) as s0 eqn:Es0.
  remember (length (nodes s)) as Y eqn:EY.
  assert (HYd : Y <> doc) by lia. assert (HYx : Y <> x) by lia.
  assert (HYc : Y <> c) by lia.
  clear Es0.
  destruct f as [[fc lc par nx pv cc] info lns]. cbn in *. subst par.
  unfold ReplaceChild, InsertBefore, ensureIsolated, RemoveChild,
    Parent, PreviousSibling, NextSibling, SetParent, SetPreviousSibling,
    SetNextSibling in Hrun'.
  destruct pv as [p|], nx as [q|].
  - apply inStore_Some in Hlp, Hln.
    destruct (lookup_lt_is_Some_2 (nodes s) p) as [np HP]; [lia|].
    destruct (lookup_lt_is_Some_2 (nodes s) q) as [nq HQ]; [lia|].
    pose proof (Hlift _ _ HP) as HP0. pose proof (Hlift _ _ HQ) as HQ0.
    assert (p <> q) by (intros ->; now specialize (Hpn eq_refl)).
    assert (Y <> p) by lia. assert (Y <> q) by lia.
    exec Hrun'.
    exists s'. do 3 eexists. split; [exact Hrun|]. split; [exact HY|].
    do 5 (split; [reflexivity|]).
    split; [eexists; split; [exact HX1|now cbn]|].
    split; [exact HD0|]. do 2 (split; [reflexivity|]).
    split; [cbn; lia|]. split; [exact HC0|].
    do 2 (split; [now destruct nc|]). split; [destruct nc; cbn; lia|].
    split; [|split].
    + intros p' n [= <-] Hn. rewrite HP in Hn. injection Hn as <-.
      rewrite HP0. now destruct np.
    + intros q' n [= <-] Hn. rewrite HQ in Hn. injection Hn as <-.
      rewrite HQ0. now destruct nq.
    + intros r n ? ? ? ? ? Hr. apply (Ho r n); [|assumption].
      apply lookup_lt_Some in Hr. repeat split; (congruence || lia).
  - apply inStore_Some in Hlp.
    destruct (lookup_lt_is_Some_2 (nodes s) p) as [np HP]; [lia|].
    pose proof (Hlift _ _ HP) as HP0.
    assert (Y <> p) by lia.
    exec Hrun'.
    exists s'. do 3 eexists. split; [exact Hrun|]. split; [exact HY|].
    do 5 (split; [reflexivity|]).
    split; [eexists; split; [exact HX1|now cbn]|].
    split; [exact HD0|]. do 2 (split; [reflexivity|]).
    split; [cbn; lia|]. split; [exact HC0|].
    do 2 (split; [now destruct nc|]). split; [destruct nc; cbn; lia|].
    split; [|split].
    + intros p' n [= <-] Hn. rewrite HP in Hn. injection Hn as <-.
      rewrite HP0. now destruct np.
    + intros q' n [=].
    + intros r n ? ? ? ? ? Hr. apply (Ho r n); [|assumption].
      apply lookup_lt_Some in Hr. repeat split; (congruence || lia).
  - apply inStore_Some in Hln.
    destruct (lookup_lt_is_Some_2 (nodes s) q) as [nq HQ]; [lia|].
    pose proof (Hlift _ _ HQ) as HQ0.
    assert (Y <> q) by lia.
    exec Hrun'.
    exists s'. do 3 eexists. split; [exact Hrun|]. split; [exact HY|].
    do 5 (split; [reflexivity|]).
    split; [eexists; split; [exact HX1|now cbn]|].
    split; [exact HD0|]. do 2 (split; [reflexivity|]).
    split; [cbn; lia|]. split; [exact HC0|].
    do 2 (split; [now destruct nc|]). split; [destruct nc; cbn; lia|].
    split; [|split].
    + intros p' n [=].
    + intros q' n [= <-] Hn. rewrite HQ in Hn. injection Hn as <-.
      rewrite HQ0. now destruct nq.
    + intros r n ? ? ? ? ? Hr. apply (Ho r n); [|assumption].
      apply lookup_lt_Some in Hr. repeat split; (congruence || lia).
  - exec Hrun'.
    exists s'. do 3 eexists. split; [exact Hrun|]. split; [exact HY|].
    do 5 (split; [reflexivity|]).
    split; [eexists; split; [exact HX1|now cbn]|].
    split; [exact HD0|]. do 2 (split; [reflexivity|]).
    split; [cbn; lia|]. split; [exact HC0|].
    do 2 (split; [now destruct nc|]). split; [destruct nc; cbn; lia|].
    split; [|split].
    + intros p' n [=].
    + intros q' n [=].
    + intros r n ? ? ? ? ? Hr. apply (Ho r n); [|assumption].
      apply lookup_lt_Some in Hr. repeat split; (congruence || lia).
Qed.

(** * Slices: what [RawContent] returns and what it leaves alone *)

Lemma substring_full (a : bytes) : String.substring 0 (String.length a) a = a.
Proof. induction a as [|c a IH]; cbn; [reflexivity|now rewrite IH]. Qed.

Lemma substring_0_0 (a : bytes) : String.substring 0 0 a = EmptyString.
Proof. now destruct a. Qed.

Lemma substring_add (n k1 k2 : nat) (a : bytes) :
  String.substring n (k1 + k2) a
  = String.substring n k1 a +:+ String.substring (n + k1) k2 a.
Proof.
  revert n k1. induction a as [|c a IH]; intros n k1.
  - destruct n, k1; cbn; try reflexivity; now destruct k2.
  - destruct n as [|n]; cbn [Nat.add].
    + destruct k1 as [|k1]; cbn [Nat.add].
      * now rewrite substring_0_0.
      * cbn [String.substring]. rewrite append_cons. f_equal.
        exact (IH 0 k1).
    + cbn [String.substring]. apply IH.
Qed.

Lemma substring_prefix (a k L : nat) (s : bytes) :
  a + k <= L ->
  String.substring a k (String.substring 0 L s) = String.substring a k s.
Proof.
  revert a k L. induction s as [|c s IH]; intros a k L Hle.
  - now destruct L.
  - destruct L as [|L].
    + assert (a = 0) by lia. assert (k = 0) by lia. subst. reflexivity.
    + cbn [String.substring]. destruct a as [|a].
      * destruct k as [|k]; [reflexivity|]. cbn [String.substring]. f_equal.
        apply (IH 0 k L). lia.
      * cbn [String.substring]. apply IH. lia.
Qed.

Lemma substring_substring (a k from L : nat) (s : bytes) :
  a + k <= L ->
  String.substring a k (String.substring from L s)
  = String.substring (from + a) k s.
Proof.
  revert from. induction s as [|c s IH]; intros from Hle.
  - destruct from, L, a, k; reflexivity.
  - destruct from as [|from].
    + now rewrite substring_prefix.
    + cbn [String.substring Nat.add]. now apply IH.
Qed.

Lemma bytesOf_insert_ne (m : memory) (id : nat) (x : bytes) (p : slice) :
  arr p <> id -> bytesOf (<[id := x]> m) p = bytesOf m p.
Proof. intros Hne. unfold bytesOf. now rewrite list_lookup_insert_ne. Qed.

Lemma bytesOf_app (m : memory) (x : bytes) (p : slice) :
  arr p < length m -> bytesOf (m ++ [x]) p = bytesOf m p.
Proof. intros Hlt. unfold bytesOf. now rewrite lookup_app_l. Qed.

Section BufferProofs.
Variable ValueM : Segment -> slice -> M memory slice.

(** The loop writes the values of the lines to the buffer and to nothing
    else. *)
Lemma writeLines_inv (buf : nat) (src : slice) (ls : list Segment) :
  (forall line, line ∈ ls -> readsOnly ValueM line) ->
  forall rest pre m u m' acc,
    ls = pre ++ rest ->
    arr src < buf -> buf < length m -> m !! buf = Some acc ->
    writeLines ValueM buf ls src (seq (length pre) (length rest)) m
    = Some (u, m') ->
    length m <= length m'
    /\ m' !! buf
       = Some (acc +:+ concatBytes (map (fun l => Value l (bytesOf m src)) rest))
    /\ bytesOf m' src = bytesOf m src
    /\ (forall id, id < length m -> id <> arr src -> id <> buf ->
          m' !! id = m !! id).
Proof.
  intros Hro. induction rest as [|line rest IH];
    intros pre m u m' acc Els Hsb Hbm Hacc Hrun.
  - cbn in Hrun. inv_ret Hrun. cbn. rewrite append_nil_r. auto.
  - cbn [length seq writeLines] in Hrun.
    rewrite Els, (list_lookup_middle pre rest line (length pre) eq_refl) in Hrun.
    rewrite <- Els in Hrun.
    bind_inv Hrun as v m1 Hv. bind_inv Hrun as u1 m2 Hw.
    assert (Hin : line ∈ ls) by (rewrite Els; apply elem_of_app; right; now left).
    destruct (Hro line Hin src m v m1 Hv) as (Hlen1 & Hoth1 & Hsrc1 & Hval1).
    unfold Buffer_Write in Hw. rewrite (Hoth1 buf) in Hw by lia.
    rewrite Hacc in Hw. injection Hw as _ <-.
    destruct (IH (pre ++ [line]) (<[buf := acc +:+ bytesOf m1 v]> m1) u m'
                (acc +:+ bytesOf m1 v)) as (Hlen & Hbuf & Hsrc & Hoth).
    + now rewrite <- app_assoc.
    + assumption.
    + rewrite length_insert. lia.
    + apply list_lookup_insert_eq. lia.
    + rewrite length_app, Nat.add_1_r. exact Hrun.
    + rewrite bytesOf_insert_ne in Hbuf, Hsrc by lia.
      rewrite Hsrc1 in Hbuf, Hsrc. rewrite length_insert in Hlen, Hoth.
      split; [lia|]. split; [|split; [assumption|]].
      * rewrite Hbuf, Hval1. cbn [map concatBytes foldr].
        now rewrite append_assoc.
      * intros id Hid Hns Hnb. rewrite Hoth by (lia || assumption).
        rewrite list_lookup_insert_ne by congruence. now apply Hoth1.
Qed.

(** [RawContent] returns a slice on the buffer it allocated, holding the
    content of the block; the source and every array that existed are as
    they were. *)
Lemma RawContentM_fresh (fb : FencedCodeBlock) (src content : slice)
    (m m1 : memory) :
  (forall line, line ∈ lines fb -> readsOnly ValueM line) ->
  arr src < length m ->
  RawContentM ValueM fb src m = Some (content, m1) ->
  arr content = length m
  /\ length m < length m1
  /\ bytesOf m1 content = RawContent fb (bytesOf m src)
  /\ bytesOf m1 src = bytesOf m src
  /\ (forall id, id < length m -> id <> arr src -> m1 !! id = m !! id).
Proof.
  intros Hro Hsrc Hrun. unfold RawContentM in Hrun.
  bind_inv Hrun as buf m0 Hb. unfold newBuffer in Hb. injection Hb as <- <-.
  bind_inv Hrun as u m2 Hw.
  destruct (writeLines_inv (length m) src (lines fb) Hro (lines fb) []
              (m ++ [EmptyString]) u m2 EmptyString eq_refl Hsrc)
    as (Hlen & Hbuf & Hs & Hoth).
  - rewrite length_app. cbn. lia.
  - now apply list_lookup_middle.
  - exact Hw.
  - rewrite bytesOf_app in Hbuf, Hs by assumption.
    rewrite length_app in Hlen, Hoth. cbn [length] in Hlen, Hoth.
    unfold Buffer_Bytes in Hrun. rewrite Hbuf in Hrun.
    injection Hrun as <- <-. cbn [arr].
    split; [reflexivity|]. split; [lia|]. split; [|split; [assumption|]].
    + unfold bytesOf. cbn [arr lo hi]. rewrite Hbuf, Nat.sub_0_r, substring_full.
      now rewrite RawContent_spec.
    + intros id Hid Hne. rewrite Hoth by lia. now apply lookup_app_l.
Qed.

(** C10: a run of [Transform] and a run of the render pass each end
    with the source and the registry they started with.  [RawContent]
    does not hand out the source: whether the host's [Value] returns
    windows of the source or copies, the slice [RawContent] returns lies
    on the buffer it allocated itself, not on the array of the source
    nor on any array that existed; it holds the content of the block;
    the bytes of the source are as they were.  So a registered function
    that writes through its argument, whatever it writes, leaves the
    source as it was. *)
Theorem C10_passes_neither_write_nor_alias_the_source
    (host : NodeKind -> option HostRenderer) (fuel : nat) (doc : ref)
    (s s' t t' : world) (u : unit) (e : option error)
    (fb : FencedCodeBlock) (src content : slice) (m m1 m2 : memory)
    (f : PipeFuncM) (r : slice + error) :
  Transform fuel doc s = Some (u, s') ->
  Render (RegisterFuncs (hostRegistry host)) fuel doc t = Some (e, t') ->
  (forall line, line ∈ lines fb -> readsOnly ValueM line) ->
  arr src < length m ->
  RawContentM ValueM fb src m = Some (content, m1) ->
  confined f ->
  f content m1 = Some (r, m2) ->
  (source s' = source s /\ PipeFuncs s' = PipeFuncs s)
  /\ (source t' = source t /\ PipeFuncs t' = PipeFuncs t)
  /\ arr content = length m
  /\ arr content <> arr src
  /\ bytesOf m1 content = RawContent fb (bytesOf m src)
  /\ bytesOf m1 src = bytesOf m src
  /\ (forall id, id < length m -> id <> arr src -> m1 !! id = m !! id)
  /\ bytesOf m2 src = bytesOf m src.
Proof.
  intros HT HR Hro Hsrc Hraw Hconf Hf.
  destruct (passes_leave_source_and_registry host fuel doc s s' t t' u e HT HR)
    as [HsT HsR].
  destruct (RawContentM_fresh fb src content m m1 Hro Hsrc Hraw)
    as (Harr & Hlen & Hcontent & Hkeep & Hoth).
  do 2 (split; [assumption|]). split; [assumption|]. split; [lia|].
  do 3 (split; [assumption|]).
  rewrite <- Hkeep. unfold bytesOf.
  now rewrite (Hconf content m1 r m2 Hf (arr src)) by lia.
Qed.

End BufferProofs.

End Proofs.

(** * The theorems at the documents of the test *)

Lemma C4_transformer_failure_halts_witness :
  let s := docTagged {[ "banana" := failing ]} in
  nodes s !! 1 = Some (pfBlock fbBanana)
  /\ PipeFuncs s !! Language fbBanana srcBanana = Some failing
  /\ failing (RawContent fbBanana srcBanana) = inr "exit status 1"
  /\ renderFenced srcBanana 1 true s
     = Some ((WalkStop,
              Some ("fenced block transformer " +:+ dq +:+ "banana" +:+ dq
                    +:+ ": exit status 1")),
             called "banana" ("foo" +:+ nl) s).
Proof.
  intros s. do 3 (split; [reflexivity|]).
  exact (proj1 (C4_transformer_failure_halts
                  (hostRegistry noHost) srcBanana 0 1 s fbBanana failing
                  "exit status 1" eq_refl eq_refl eq_refl)).
Defined.

Lemma C5_lookup_miss_renders_nothing_witness :
  let s := docTagged ∅ in
  nodes s !! 1 = Some (pfBlock fbBanana)
  /\ firstChild (BaseBlock fbBanana) = None
  /\ PipeFuncs s !! Language fbBanana srcBanana = None
  /\ walkHelper nodes (dispatch (RegisterFuncs (hostRegistry preHost)) srcBanana)
       2 1 s = Some ((WalkContinue, None), s).
Proof.
  intros s. do 3 (split; [reflexivity|]).
  exact (proj2 (C5_lookup_miss_renders_nothing (hostRegistry preHost)
                  srcBanana 0 1 s fbBanana eq_refl eq_refl eq_refl)).
Defined.

(** C5 as stated does not hold: with the tag not registered, the tagged
    block is not rendered the way the host renders a fenced code block.
    The host's render function for fenced blocks is keyed by their kind
    and is not called for a node of kind [pfKind]; the sink stays empty,
    where the same block left untagged gets the host's rendering. *)
Lemma C5_miss_is_not_rendered_as_fenced_block :
  rendered (Render (RegisterFuncs (hostRegistry preHost)) 10 0 (docTagged ∅))
    = Some EmptyString
  /\ rendered (Render (RegisterFuncs (hostRegistry preHost)) 10 0 (docBanana ∅))
    = Some ("<pre><code>foo" +:+ nl +:+ "</code></pre>" +:+ nl)
  /\ rendered (Render (RegisterFuncs (hostRegistry preHost)) 10 0 (docTagged ∅))
     <> rendered (Render (RegisterFuncs (hostRegistry preHost)) 10 0 (docBanana ∅)).
Proof.
  split; [vm_compute; reflexivity|]. split; [vm_compute; reflexivity|].
  vm_compute. discriminate.
Qed.

Lemma C7_no_match_is_default_rendering_witness :
  let s := docUnknown in
  let b := mkBaseNode (Some 1) (Some 1) None None None 1 in
  let f := Fcons 1 Fnil Fnil in
  nodes s !! 0 = Some (Document b)
  /\ shape (nodes s) (firstChild b) f = true
  /\ sizeF f < 10
  /\ unmatched s = true
  /\ untagged (nodes s) = true
  /\ Transform 10 0 s = Some (tt, s).
Proof.
  intros s b f. do 2 (split; [reflexivity|]). split; [cbn; lia|].
  do 2 (split; [reflexivity|]).
  exact (proj1 (C7_no_match_is_default_rendering noHost 10 0 s b f
                  eq_refl eq_refl ltac:(cbn; lia) eq_refl eq_refl)).
Defined.

Lemma C9_tagged_nodes_come_from_registry_hits_witness :
  Transform 10 0 (docBanana bananaFuncs) = Some (tt, docBananaOut)
  /\ exists fb, nodes docBananaOut !! 3 = Some (pfBlock fb)
                /\ is_Some (bananaFuncs !! Language fb srcBanana)
                /\ lines fb = lines fbBanana.
Proof.
  split; [reflexivity|].
  destruct (proj1 (C9_tagged_nodes_come_from_registry_hits
                     10 0 (docBanana bananaFuncs) docBananaOut tt eq_refl)
              3 (pfBlock fbDetached) ltac:(cbn; lia) eq_refl)
    as (fb & orig & f0 & Hn & Hreg & _).
  exists fb. injection Hn as <-.
  split; [reflexivity|]. split; [exact Hreg|reflexivity].
Defined.

Lemma C8_Transform_is_idempotent_witness :
  let s := docBanana bananaFuncs in
  let b := mkBaseNode (Some 1) (Some 1) None None None 1 in
  let f := Fcons 1 Fnil Fnil in
  nodes s !! 0 = Some (Document b)
  /\ shape (nodes s) (firstChild b) f = true
  /\ sizeF f < 10
  /\ wfLinks (nodes s) = true
  /\ Transform 10 0 s = Some (tt, docBananaOut)
  /\ Transform 10 0 docBananaOut = Some (tt, docBananaOut).
Proof.
  intros s b f. do 2 (split; [reflexivity|]). split; [cbn; lia|].
  do 2 (split; [reflexivity|]).
  destruct (C8_Transform_is_idempotent 10 0 s docBananaOut b f tt
              eq_refl eq_refl ltac:(cbn; lia) eq_refl eq_refl)
    as (fbs & _ & _ & HT).
  exact HT.
Defined.

(** * The content handed to the registered function *)

Lemma SegmentValue_literal (src : bytes) (t : TextSegment) :
  literal src t = true -> SegmentValue t src = span src t.
Proof.
  unfold literal, SegmentValue. intros Hl.
  apply andb_prop in Hl as [Hp Hn]. apply bool_decide_eq_true in Hp.
  destruct (decide (Padding t = 0)); [|contradiction].
  destruct (ForceNewline t); [|reflexivity].
  cbn in Hn. now rewrite Hn.
Qed.

Lemma values_literal (src : bytes) (l : list TextSegment) :
  forallb (literal src) l = true ->
  map (fun t => SegmentValue t src) l = map (span src) l.
Proof.
  induction l as [|t l IH]; [reflexivity|]. cbn [forallb map].
  intros Hl. apply andb_prop in Hl as [Ht Hl].
  now rewrite (SegmentValue_literal src t Ht), IH.
Qed.

Lemma concat_spans (src : bytes) (l : list TextSegment) :
  forall first lst,
    chained l = true -> head l = Some first -> last l = Some lst ->
    Start first <= Stop lst
    /\ concatBytes (map (span src) l)
       = String.substring (Start first) (Stop lst - Start first) src.
Proof.
  induction l as [|t l IH]; intros first lst Hc Hh Hl; [discriminate|].
  injection Hh as ->. cbn [chained] in Hc. apply andb_prop in Hc as [Hle Hc].
  apply bool_decide_eq_true in Hle.
  destruct l as [|t' l].
  - injection Hl as ->. split; [assumption|].
    cbn. unfold span. now rewrite append_nil_r.
  - apply andb_prop in Hc as [Hst Hc]. apply bool_decide_eq_true in Hst.
    destruct (IH t' lst Hc eq_refl Hl) as [Hle' E].
    split; [lia|].
    change (concatBytes (map (span src) (first :: t' :: l)))
      with (span src first +:+ concatBytes (map (span src) (t' :: l))).
    rewrite E. unfold span.
    replace (Stop lst - Start first)
      with ((Stop first - Start first) + (Stop lst - Start t')) by lia.
    rewrite substring_add. do 2 f_equal. lia.
Qed.

(** C6, amended: the bytes handed to the registered function are the
    values [line.Value(src)] of the block's content lines, concatenated
    in order with nothing in between; a value is the line's span of the
    source, after as many spaces as the line has padding and with a
    newline added where the host asked for one and the span has none.
    Where every line is literal (no padding, no newline to add) the
    content is the concatenation of the spans, and where the lines also
    follow each other without a gap it is one span of the source, from
    the start of the first line to the end of the last. *)
Theorem C6_transformer_input_is_concatenated_line_values
    (src : bytes) (n : ref) (s : @world segmentText)
    (fb : @FencedCodeBlock segmentText) (f : PipeFunc) :
  nodes s !! n = Some (pfBlock fb) ->
  PipeFuncs s !! Language fb src = Some f ->
  (exists r s',
      renderFenced src n true s = Some (r, s')
      /\ calls s' = calls s ++ [(Language fb src, RawContent fb src)])
  /\ RawContent fb src
     = concatBytes (map (fun t => SegmentValue t src) (lines fb))
  /\ (forallb (literal src) (lines fb) = true ->
        RawContent fb src = concatBytes (map (span src) (lines fb)))
  /\ (forallb (literal src) (lines fb) = true ->
      chained (lines fb) = true ->
      forall first lst,
        head (lines fb) = Some first -> last (lines fb) = Some lst ->
        RawContent fb src
        = String.substring (Start first) (Stop lst - Start first) src).
Proof.
  intros Hn Hf.
  destruct (@transformer_input_is_concatenated_lines segmentText src n s fb f
              Hn Hf) as (Hraw & r & s' & Hrun & Hcalls).
  pose proof Hraw as Hraw0.
  change (RawContent fb src
          = concatBytes (map (fun t => SegmentValue t src) (lines fb))) in Hraw.
  split; [|split; [exact Hraw|split]].
  - exists r, s'. split; [exact Hrun|]. rewrite Hcalls. now rewrite <- Hraw0.
  - intros Hlit. rewrite Hraw. now rewrite values_literal.
  - intros Hlit Hch first lst Hfirst Hlast. rewrite Hraw, values_literal by assumption.
    exact (proj2 (concat_spans src (lines fb) first lst Hch Hfirst Hlast)).
Qed.

Lemma C6_transformer_input_is_concatenated_line_values_witness :
  let s := docLinesTagged in
  nodes s !! 1 = Some (pfBlock fbLines)
  /\ PipeFuncs s !! Language fbLines srcLines = Some o2a
  /\ forallb (literal srcLines) (lines fbLines) = true
  /\ chained (lines fbLines) = true
  /\ RawContent fbLines srcLines = "foo" +:+ nl +:+ "bar" +:+ nl
  /\ RawContent fbLines srcLines = String.substring 10 8 srcLines.
Proof.
  intros s. do 5 (split; [reflexivity|]).
  exact (proj2 (proj2 (proj2
           (C6_transformer_input_is_concatenated_line_values
              srcLines 1 s fbLines o2a eq_refl eq_refl)))
           eq_refl eq_refl (mkSegment 10 14 0 true) (mkSegment 14 18 0 true)
           eq_refl eq_refl).
Defined.

(** C6 as stated does not hold: the content is not always the literal
    text between the fences.  In a fence indented by two spaces, a line
    that starts with a tab has a padding of two, and its value starts
    with two spaces where the source has the tab: the function is called
    with bytes that are no span of the source. *)
Lemma C6_padded_line_is_not_the_literal_text :
  (Convert (RegisterFuncs (@hostRegistry segmentText (fun _ => None))) 10 0
     docPadded ≫= fun r => Some (calls (snd r)))
  = Some [("banana", "  foo" +:+ nl)]
  /\ String.substring 12 5 srcPadded = tab +:+ "foo" +:+ nl
  /\ "  foo" +:+ nl <> String.substring 12 5 srcPadded
  /\ isSpanOf ("  foo" +:+ nl) srcPadded = false.
Proof.
  split; [vm_compute; reflexivity|]. split; [vm_compute; reflexivity|].
  split; [vm_compute; discriminate|vm_compute; reflexivity].
Qed.

(** * Slices at the documents of the test *)

Lemma substring_empty (a k : nat) : String.substring a k EmptyString = EmptyString.
Proof. now destruct a, k. Qed.

(** The plain text layer's [Value] returns a window of the source. *)
Lemma ValuePlainM_readsOnly (line : nat * nat) :
  @readsOnly plainText ValuePlainM line.
Proof.
  intros src m v m' Hrun. unfold ValuePlainM in Hrun.
  destruct (decide (line.1 <= line.2 <= hi src - lo src)) as [Hb|];
    [|discriminate].
  injection Hrun as <- <-. split; [lia|]. split; [auto|]. split; [reflexivity|].
  unfold bytesOf. cbn [arr lo hi Value plainText].
  destruct (m !! arr src) as [a|]; [|now rewrite substring_empty].
  rewrite substring_substring by lia. f_equal. lia.
Qed.

Lemma scribble_confined : confined scribble.
Proof.
  intros a m r m' Hrun id Hid Hne. unfold scribble in Hrun.
  destruct (m !! arr a) as [x|]; [|discriminate].
  injection Hrun as _ <-. now rewrite list_lookup_insert_ne by congruence.
Qed.

Lemma C10_passes_neither_write_nor_alias_the_source_witness :
  let src := mkSlice 0 0 (String.length srcLines) in
  let content := mkSlice 1 0 8 in
  Transform 10 0 (docBanana bananaFuncs) = Some (tt, docBananaOut)
  /\ Render (RegisterFuncs (hostRegistry noHost)) 10 0 docBananaOut
     = Some (None, written ("faa" +:+ nl)
                     (called "banana" ("foo" +:+ nl) docBananaOut))
  /\ arr src < length [srcLines]
  /\ RawContentM (H := plainText) ValuePlainM fbLinesPlain src [srcLines]
     = Some (content, [srcLines; "foo" +:+ nl +:+ "bar" +:+ nl])
  /\ scribble content [srcLines; "foo" +:+ nl +:+ "bar" +:+ nl]
     = Some (inl content, [srcLines; "xxxxxxxx"])
  /\ arr content <> arr src
  /\ bytesOf [srcLines; "xxxxxxxx"] src = bytesOf [srcLines] src.
Proof.
  intros src content. do 2 (split; [reflexivity|]). split; [cbn; lia|].
  do 2 (split; [reflexivity|]).
  destruct (@C10_passes_neither_write_nor_alias_the_source plainText
              ValuePlainM noHost 10 0 (docBanana bananaFuncs) docBananaOut
              docBananaOut _ tt None fbLinesPlain src content [srcLines]
              [srcLines; "foo" +:+ nl +:+ "bar" +:+ nl] [srcLines; "xxxxxxxx"]
              scribble (inl content)
              eq_refl eq_refl (fun line _ => ValuePlainM_readsOnly line)
              ltac:(cbn; lia) eq_refl scribble_confined eq_refl)
    as (_ & _ & _ & Hne & _ & _ & _ & Hsrc).
  split; assumption.
Defined.

(** The first scenario of the test: a paragraph and nothing else.
    [Transform] finds no fenced block and returns the tree as it is. *)
Example Transform_lolcat :
  collectFenced 10 0 docLolcat = Some ((None, []), docLolcat)
  /\ Transform 10 0 docLolcat = Some (tt, docLolcat).
Proof. split; reflexivity. Qed.

(** The second scenario: one fence tagged banana converts to the
    function's output and nothing else. *)
Example Convert_banana :
  rendered (Convert (RegisterFuncs (hostRegistry preHost)) 10 0
              (docBanana bananaFuncs))
  = Some ("faa" +:+ nl).
Proof. vm_compute. reflexivity. Qed.

(** The third scenario: a fence with a tag that is not registered is
    left to the host. *)
Example Convert_unknown :
  rendered (Convert (RegisterFuncs (hostRegistry preHost)) 10 0 docUnknown)
  = Some ("<pre><code>foo" +:+ nl +:+ "</code></pre>" +:+ nl).
Proof. vm_compute. reflexivity. Qed.

(** The render pass on a tree with two tagged blocks calls the function
    once per block, in document order, and writes the outputs in that
    order. *)
Example Render_two_tagged :
  outcome 0 (Render (RegisterFuncs (hostRegistry noHost)) 10 0
               (docTwoTagged bananaFuncs))
  = Some (None, [1; 2], "faa" +:+ nl +:+ "baa" +:+ nl,
          [("banana", "foo" +:+ nl); ("banana", "boo" +:+ nl)]).
Proof. vm_compute. reflexivity. Qed.

(** With a failing function the render pass ends at the first tagged
    block: one call, nothing written, the second block not visited. *)
Example Render_failure_stops :
  outcome 0 (Render (RegisterFuncs (hostRegistry noHost)) 10 0
               (docTwoTagged {[ "banana" := failing ]}))
  = Some (Some ("fenced block transformer " +:+ dq +:+ "banana" +:+ dq
                +:+ ": exit status 1"),
          [1; 2], EmptyString, [("banana", "foo" +:+ nl)]).
Proof. vm_compute. reflexivity. Qed.

(** * Where the Tagger loses blocks

    The callback of the walk does not look at [enter], and the host's
    walk calls it on entering and on leaving a node: every fenced block
    is appended to [fencedBlocks] twice and goes through the replacement
    loop twice.  The second time its parent is nil, and [ReplaceChild]
    with the document as receiver and nil as [self] makes the new copy the
    first and last child of the document. *)

(** C2 at two fenced blocks tagged banana: after the conversion the
    document has a single child, a tagged copy of the second block, and
    the sink holds the second block's output only. *)
Theorem C2_two_matched_blocks_leave_one :
  collectFenced 10 0 docTwo = Some ((None, [1; 1; 2; 2]), docTwo)
  /\ outcome 0 (Convert (RegisterFuncs (hostRegistry noHost)) 10 0 docTwo)
     = Some (None, [6], "baa" +:+ nl, [("banana", "boo" +:+ nl)])
  /\ outcome 0 (Convert (RegisterFuncs (hostRegistry noHost)) 10 0 docPara)
     = Some (None, [4], "faa" +:+ nl, [("banana", "foo" +:+ nl)]).
Proof. repeat split; vm_compute; reflexivity. Qed.

(** C1 at the same document: the first block has a registered tag and
    the function returns faa and a newline for its content, but nothing
    is emitted for that block: the conversion's output is the second
    block's output alone. *)
Theorem C1_matched_block_gets_no_output :
  nodes docTwo !! 1 = Some (Fenced fbFoo)
  /\ PipeFuncs docTwo !! Language fbFoo srcTwo = Some o2a
  /\ o2a (RawContent fbFoo srcTwo) = inl ("faa" +:+ nl)
  /\ rendered (Convert (RegisterFuncs (hostRegistry preHost)) 10 0 docTwo)
     = Some ("baa" +:+ nl).
Proof. repeat split; vm_compute; reflexivity. Qed.

(** C3 at the same document: the render pass calls the registered
    function once, on the second block's content; it is never called on
    the content of the first block. *)
Theorem C3_first_matched_block_is_never_transformed :
  (Convert (RegisterFuncs (hostRegistry noHost)) 10 0 docTwo
     ≫= fun r => Some (calls (snd r)))
  = Some [("banana", "boo" +:+ nl)].
Proof. vm_compute. reflexivity. Qed.

(** * The further properties at the documents of the test *)

Lemma Transform_walk_never_fails_witness :
  collectFenced 10 0 docTwo = Some ((None, [1; 1; 2; 2]), docTwo)
  /\ forall x, x ∈ [1; 1; 2; 2] ->
       exists fb, nodes docTwo !! x = Some (Fenced fb).
Proof.
  split; [reflexivity|].
  exact (proj2 (proj2 (Transform_walk_never_fails 10 0 docTwo docTwo None
                         [1; 1; 2; 2] eq_refl))).
Defined.

Lemma Transform_walk_collects_each_block_twice_witness :
  let b := mkBaseNode (Some 1) (Some 2) None None None 2 in
  let f := Fcons 1 Fnil (Fcons 2 Fnil Fnil) in
  nodes docTwo !! 0 = Some (Document b)
  /\ shape (nodes docTwo) (firstChild b) f = true
  /\ sizeF f < 10
  /\ wfLinks (nodes docTwo) = true
  /\ collectFenced 10 0 docTwo = Some ((None, [1; 1; 2; 2]), docTwo).
Proof.
  intros b f. do 2 (split; [reflexivity|]). split; [cbn; lia|].
  split; [reflexivity|].
  exact (Transform_walk_collects_each_block_twice 10 0 docTwo b f
           eq_refl eq_refl ltac:(cbn; lia) eq_refl).
Defined.

Lemma renderFenced_assertion_is_safe_under_dispatch_witness :
  let s := docBanana bananaFuncs in
  nodes s !! 1 = Some (Fenced fbBanana)
  /\ renderFenced srcBanana 1 true s = None
  /\ is_Some (dispatch (RegisterFuncs (hostRegistry preHost)) srcBanana 1 true s).
Proof.
  intros s. split; [reflexivity|].
  destruct (renderFenced_assertion_is_safe_under_dispatch
              preHost srcBanana 1 true s (Fenced fbBanana) eq_refl)
    as [Hpanic Hsafe].
  split; [apply Hpanic; discriminate|exact Hsafe].
Defined.

Lemma Render_tagged_chain_in_order_witness :
  let s := docTwoTagged bananaFuncs in
  let tr := [("banana", "foo" +:+ nl, "faa" +:+ nl);
             ("banana", "boo" +:+ nl, "baa" +:+ nl)] in
  follow (nodes s) (Some 1) [1; 2] = Some None
  /\ length [1; 2] < 10
  /\ outputsOf s srcTwo [1; 2] = Some tr
  /\ walkChildren nodes (dispatch (RegisterFuncs (hostRegistry noHost)) srcTwo)
       10 (Some 1) s
     = Some ((WalkContinue, None), after tr s).
Proof.
  intros s tr. split; [reflexivity|]. split; [cbn; lia|].
  split; [reflexivity|].
  exact (Render_tagged_chain_in_order (hostRegistry noHost) srcTwo [1; 2]
           10 (Some 1) s tr eq_refl ltac:(cbn; lia) eq_refl).
Defined.

Lemma Render_failure_keeps_earlier_output_witness :
  let s := docTwoTagged {[ "banana" := failingOn ("boo" +:+ nl) ]} in
  let tr := [("banana", "foo" +:+ nl, "faa" +:+ nl)] in
  is_Some (follow (nodes s) (Some 1) ([1] ++ [2]))
  /\ length [1] + 1 < 10
  /\ outputsOf s srcTwo [1] = Some tr
  /\ piped s srcTwo 2 = Some ("banana", "boo" +:+ nl, inr "exit status 1")
  /\ walkChildren nodes (dispatch (RegisterFuncs (hostRegistry noHost)) srcTwo)
       10 (Some 1) s
     = Some ((WalkStop, Some (Errorf "banana" "exit status 1")),
             called "banana" ("boo" +:+ nl) (after tr s)).
Proof.
  intros s tr. split; [now exists None|]. split; [cbn; lia|].
  do 2 (split; [reflexivity|]).
  exact (Render_failure_keeps_earlier_output (hostRegistry noHost) srcTwo [1]
           10 (Some 1) s 2 tr "banana" ("boo" +:+ nl) "exit status 1"
           (ex_intro _ None eq_refl) ltac:(cbn; lia) eq_refl eq_refl).
Defined.

Lemma Render_only_appends_witness :
  Render (RegisterFuncs (hostRegistry noHost)) 10 0 docBananaOut
  = Some (None, written ("faa" +:+ nl)
                  (called "banana" ("foo" +:+ nl) docBananaOut))
  /\ nodes (written ("faa" +:+ nl)
              (called "banana" ("foo" +:+ nl) docBananaOut))
     = nodes docBananaOut.
Proof.
  split; [reflexivity|].
  exact (proj1 (Render_only_appends noHost 10 0 docBananaOut _ None eq_refl)).
Defined.

Lemma Transform_never_panics_witness :
  let b := mkBaseNode (Some 1) (Some 2) None None None 2 in
  let f := Fcons 1 Fnil (Fcons 2 Fnil Fnil) in
  nodes docTwo !! 0 = Some (Document b)
  /\ shape (nodes docTwo) (firstChild b) f = true
  /\ sizeF f < 10
  /\ closed (nodes docTwo) = true
  /\ exists s', Transform 10 0 docTwo = Some (tt, s')
                /\ closed (nodes s') = true
                /\ extends docTwo s'.
Proof.
  intros b f. do 2 (split; [reflexivity|]). split; [cbn; lia|].
  split; [reflexivity|].
  exact (Transform_never_panics 10 0 docTwo b f
           eq_refl eq_refl ltac:(cbn; lia) eq_refl).
Defined.

Lemma Transform_copies_each_matched_block_twice_witness :
  let b := mkBaseNode (Some 1) (Some 2) None None None 2 in
  let f := Fcons 1 Fnil (Fcons 2 Fnil Fnil) in
  nodes docTwo !! 0 = Some (Document b)
  /\ shape (nodes docTwo) (firstChild b) f = true
  /\ sizeF f < 10
  /\ wfLinks (nodes docTwo) = true
  /\ closed (nodes docTwo) = true
  /\ exists s', Transform 10 0 docTwo = Some (tt, s')
                /\ length (nodes s') = 7.
Proof.
  intros b f. do 2 (split; [reflexivity|]). split; [cbn; lia|].
  do 2 (split; [reflexivity|]).
  exact (Transform_copies_each_matched_block_twice 10 0 docTwo b f
           eq_refl eq_refl ltac:(cbn; lia) eq_refl eq_refl).
Defined.

Lemma Transform_keeps_a_copy_of_the_last_hit_only_witness :
  let b := mkBaseNode (Some 1) (Some 2) None None None 2 in
  let f := Fcons 1 Fnil (Fcons 2 Fnil Fnil) in
  nodes docTwo !! 0 = Some (Document b)
  /\ shape (nodes docTwo) (firstChild b) f = true
  /\ sizeF f < 10
  /\ wfLinks (nodes docTwo) = true
  /\ closed (nodes docTwo) = true
  /\ lastHit docTwo (fencedOf (nodes docTwo) f) = Some 2
  /\ exists s' fb, Transform 10 0 docTwo = Some (tt, s')
                   /\ nodes docTwo !! 2 = Some (Fenced fb)
                   /\ soleCopy 0 fb s'.
Proof.
  intros b f. do 2 (split; [reflexivity|]). split; [cbn; lia|].
  do 3 (split; [reflexivity|]).
  exact (Transform_keeps_a_copy_of_the_last_hit_only 10 0 docTwo b f 2
           eq_refl eq_refl ltac:(cbn; lia) eq_refl eq_refl eq_refl).
Defined.

Lemma Convert_renders_the_last_hit_only_witness :
  let b := mkBaseNode (Some 1) (Some 2) None None None 2 in
  let f := Fcons 1 Fnil (Fcons 2 Fnil Fnil) in
  nodes docTwo !! 0 = Some (Document b)
  /\ shape (nodes docTwo) (firstChild b) f = true
  /\ sizeF f < 10
  /\ wfLinks (nodes docTwo) = true
  /\ closed (nodes docTwo) = true
  /\ lastHit docTwo (fencedOf (nodes docTwo) f) = Some 2
  /\ nodes docTwo !! 2 = Some (Fenced fbBoo)
  /\ PipeFuncs docTwo !! Language fbBoo srcTwo = Some o2a
  /\ o2a (RawContent fbBoo srcTwo) = inl ("baa" +:+ nl)
  /\ hostRegistry noHost KindDocument = None
  /\ exists s', Transform 10 0 docTwo = Some (tt, s')
       /\ Convert (RegisterFuncs (hostRegistry noHost)) 10 0 docTwo
          = Some (None, written ("baa" +:+ nl)
                          (called "banana" ("boo" +:+ nl) s')).
Proof.
  intros b f. do 2 (split; [reflexivity|]). split; [cbn; lia|].
  do 7 (split; [reflexivity|]).
  exact (Convert_renders_the_last_hit_only (hostRegistry noHost) 10 0 docTwo
           b f 2 fbBoo o2a ("baa" +:+ nl)
           eq_refl eq_refl ltac:(cbn; lia) eq_refl eq_refl eq_refl eq_refl
           eq_refl eq_refl
           (fun g (Hg : hostRegistry noHost KindDocument = Some g) =>
              ltac:(discriminate Hg))).
Defined.

Lemma replaceOne_puts_the_copy_in_place_witness :
  let bd := mkBaseNode (Some 1) (Some 2) None None None 2 in
  closed (nodes docTwo) = true
  /\ nodes docTwo !! 0 = Some (Document bd)
  /\ nodes docTwo !! 1 = Some (Fenced fbFoo)
  /\ parent (BaseBlock fbFoo) = Some 0
  /\ PipeFuncs docTwo !! Language fbFoo (source docTwo) = Some o2a
  /\ prev (BaseBlock fbFoo) = None
  /\ next (BaseBlock fbFoo) = Some 2
  /\ exists s' bd' fy,
       replaceOne 0 1 docTwo = Some (tt, s')
       /\ nodes s' !! 3 = Some (pfBlock fy)
       /\ parent (BaseBlock fy) = Some 0
       /\ prev (BaseBlock fy) = None
       /\ next (BaseBlock fy) = Some 2
       /\ detached 1 s'
       /\ nodes s' !! 0 = Some (Document bd')
       /\ firstChild bd' = Some 3
       /\ lastChild bd' = Some 2
       /\ childCount bd' = 1%Z.
Proof.
  intros bd. do 7 (split; [reflexivity|]).
  destruct (replaceOne_puts_the_copy_in_place 0 1 docTwo bd fbFoo o2a
              eq_refl eq_refl eq_refl eq_refl eq_refl
              ltac:(discriminate) ltac:(discriminate)
              ltac:(discriminate) ltac:(discriminate) (fun _ => eq_refl))
    as (s' & bd' & fy & Hrun & HY & _ & _ & Hp & Hv & Hn & Hdet & HD & Hf & Hl
        & Hc & _).
  exists s', bd', fy. repeat split; assumption.
Defined.

Lemma replaceOne_under_another_parent_relinks_the_document_witness :
  let bd := mkBaseNode (Some 1) (Some 1) None None None 1 in
  let nc := Other "Blockquote" (mkBaseNode (Some 2) (Some 2) (Some 0) None None 1) in
  closed (nodes docQuote) = true
  /\ nodes docQuote !! 0 = Some (Document bd)
  /\ nodes docQuote !! 1 = Some nc
  /\ nodes docQuote !! 2 = Some (Fenced fbQuoted)
  /\ parent (BaseBlock fbQuoted) = Some 1
  /\ PipeFuncs docQuote !! Language fbQuoted (source docQuote) = Some o2a
  /\ exists s' bd' nc' fy,
       replaceOne 0 2 docQuote = Some (tt, s')
       /\ nodes s' !! 3 = Some (pfBlock fy)
       /\ parent (BaseBlock fy) = Some 1
       /\ nodes s' !! 0 = Some (Document bd')
       /\ firstChild bd' = Some 3
       /\ lastChild bd' = Some 3
       /\ nodes s' !! 1 = Some nc'
       /\ firstChild (base nc') = None
       /\ lastChild (base nc') = None.
Proof.
  intros bd nc. do 6 (split; [reflexivity|]).
  destruct (replaceOne_under_another_parent_relinks_the_document
              0 1 2 docQuote bd nc fbQuoted o2a
              eq_refl eq_refl eq_refl eq_refl eq_refl
              ltac:(discriminate) ltac:(discriminate) eq_refl
              ltac:(discriminate) ltac:(discriminate)
              ltac:(discriminate) ltac:(discriminate)
              ltac:(discriminate) ltac:(discriminate) (fun _ => eq_refl))
    as (s' & bd' & nc' & fy & Hrun & HY & _ & _ & Hp & _ & _ & _ & HD & Hf
        & Hl & _ & HC & Hcf & Hcl & _).
  exists s', bd', nc', fy. repeat split; assumption.
Defined.
